(** * Silent Charges: the turn-resolution core of [game.js], embedded in Rocq

    The development follows the source file by file and class by class:
    [Vec], the entity classes, [Level] (with its constructor), [Pathfinder]
    (the two A* loops), and the [Game] operations [placeBomb],
    [simulateTurn], [chooseGuardTarget], [resolveMovementConflicts] and the
    blast computation.  The level editor's import and export of guards are
    embedded in the module [Editor].

    Numbers are JavaScript numbers that hold integers throughout the code
    paths modelled here; they are embedded as [Z].  A JavaScript [Map] that
    is only read with [get]/[has] is a [gmap]; a [Map] that is iterated is
    an association list in insertion order. *)

From Stdlib Require Import ZArith QArith Qround Lia.
From stdpp Require Import base decidable option list numbers countable gmap.

Local Open Scope Z_scope.
Set Warnings "-register-all".

(** ** Constants and enums *)

Definition MAX_GRID_SIZE : Z := 64.

Module Tile.
Definition FLOOR : Z := 0.
Definition WALL : Z := 1.
Definition VOID : Z := 2.
End Tile.

Inductive BombState := TICKING | EXPLODING.

Inductive GameState := PLAYING | WON | LOST.

Global Instance BombState_eq_dec : EqDecision BombState.
Proof. solve_decision. Defined.

Global Instance GameState_eq_dec : EqDecision GameState.
Proof. solve_decision. Defined.

(** [a || b] on a possibly absent number: [undefined] and [0] are falsy. *)
Definition js_or (a : option Z) (b : Z) : Z :=
  match a with
  | Some 0 | None => b
  | Some n => n
  end.

(** ** Configuration *)

(** The merged configuration of a level.  [maxActiveBombs] has no entry in
    [DEFAULT_CONFIG], so it stays [undefined] ([None]) unless the level
    supplies it; [timersAllowed] is only ever tested for truthiness, so an
    absent value is [false]. *)
Record Config := mkConfig {
  gridSize : Z;
  blastRange : Z;
  defaultHearingRadius : Z;
  memoryTTL : Z;
  maxBombsPerTurn : Z;
  maxActiveBombs : option Z;
  timersAllowed : bool
}.

Definition DEFAULT_CONFIG : Config :=
  {| gridSize := 32;
     blastRange := 3;
     defaultHearingRadius := 8;
     memoryTTL := 8;
     maxBombsPerTurn := 1;
     maxActiveBombs := None;
     timersAllowed := false |}.

(** The [config] object of a level descriptor: every key may be absent. *)
Record ConfigData := mkConfigData {
  cd_gridSize : option Z;
  cd_blastRange : option Z;
  cd_defaultHearingRadius : option Z;
  cd_memoryTTL : option Z;
  cd_maxBombsPerTurn : option Z;
  cd_maxActiveBombs : option Z;
  cd_timersAllowed : option bool
}.

(** [{ ...DEFAULT_CONFIG, ...levelData.config }] *)
Definition merge_config (d : Config) (c : ConfigData) : Config :=
  {| gridSize := default (gridSize d) (cd_gridSize c);
     blastRange := default (blastRange d) (cd_blastRange c);
     defaultHearingRadius := default (defaultHearingRadius d) (cd_defaultHearingRadius c);
     memoryTTL := default (memoryTTL d) (cd_memoryTTL c);
     maxBombsPerTurn := default (maxBombsPerTurn d) (cd_maxBombsPerTurn c);
     maxActiveBombs := match cd_maxActiveBombs c with
                       | Some n => Some n
                       | None => maxActiveBombs d
                       end;
     timersAllowed := default (timersAllowed d) (cd_timersAllowed c) |}.

(** ** Utility: [Vec] *)

Record Vec := mkVec { vx : Z; vy : Z }.

Global Instance Vec_eq_dec : EqDecision Vec.
Proof. solve_decision. Defined.

(** Keys of the form [`${x},${y}`] identify a cell; the string is an
    injective image of the coordinate pair, so the cell itself is the key. *)
Global Instance Vec_countable : Countable Vec :=
  inj_countable' (fun v => (vx v, vy v)) (fun p => mkVec (fst p) (snd p))
                 (fun v => match v with mkVec _ _ => eq_refl end).

Definition equals (a b : Vec) : bool :=
  (vx a =? vx b) && (vy a =? vy b).

Definition manhattanDistance (a b : Vec) : Z :=
  Z.abs (vx a - vx b) + Z.abs (vy a - vy b).

(** ** Entities *)

Record Target := mkTarget {
  t_id : Z;
  t_pos : Vec;
  destroyed : bool
}.

Record Bomb := mkBomb {
  b_id : Z;
  b_pos : Vec;
  hasTimer : bool;
  timer : Z;
  b_state : BombState;
  turnPlaced : Z
}.

(** [new Bomb(id, pos, hasTimer)]; [turnPlaced] is assigned by [placeBomb]
    right after construction. *)
Definition new_Bomb (id : Z) (pos : Vec) (hasTimer0 : bool) (turn : Z) : Bomb :=
  {| b_id := id; b_pos := pos; hasTimer := hasTimer0;
     timer := if hasTimer0 then 3 else 1;
     b_state := TICKING; turnPlaced := turn |}.

Definition getNoiseLevel (b : Bomb) : Z :=
  match b_state b with
  | EXPLODING => 4
  | TICKING => if hasTimer b then 4 - timer b else 3
  end.

Definition cycleTimer (b : Bomb) : Bomb :=
  if hasTimer b
  then {| b_id := b_id b; b_pos := b_pos b; hasTimer := hasTimer b;
          timer := (if timer b =? 3 then 1 else timer b + 1);
          b_state := b_state b; turnPlaced := turnPlaced b |}
  else b.

Record Memory := mkMemory { m_pos : Vec; m_turnIndex : Z }.

Record Guard := mkGuard {
  g_id : Z;
  g_pos : Vec;
  hearingRadius : Z;
  memory : option Memory;
  targetPos : option Vec
}.

Definition new_Guard (id : Z) (pos : Vec) (radius : Z) : Guard :=
  {| g_id := id; g_pos := pos; hearingRadius := radius;
     memory := None; targetPos := None |}.

Definition set_pos (g : Guard) (p : Vec) : Guard :=
  {| g_id := g_id g; g_pos := p; hearingRadius := hearingRadius g;
     memory := memory g; targetPos := targetPos g |}.

Definition set_memory (g : Guard) (m : option Memory) : Guard :=
  {| g_id := g_id g; g_pos := g_pos g; hearingRadius := hearingRadius g;
     memory := m; targetPos := targetPos g |}.

Definition set_targetPos (g : Guard) (t : option Vec) : Guard :=
  {| g_id := g_id g; g_pos := g_pos g; hearingRadius := hearingRadius g;
     memory := memory g; targetPos := t |}.

(** ** Level descriptors and [Level] *)

Record GuardData := mkGuardData {
  gd_x : Z;
  gd_y : Z;
  gd_hearingRadius : option Z
}.

Record TargetData := mkTargetData { td_x : Z; td_y : Z }.

(** What JSON may hold where the code expects an array: [null] or nothing
    at all ([Nullish]); a value that is no array ([Other], with its
    truthiness), which is a number, a boolean, an object without a [length],
    and also a string where the code only calls [forEach] or [map] on the
    value or asks whether it is an array; or an array.  A string in the place
    of a row of the grid, and for the editor in the place of the grid, where
    the code reads the [length] and the characters of the value, is outside
    this model. *)
Inductive MaybeArray (A : Type) : Type :=
  | Nullish
  | Other (truthy : bool)
  | Arr (items : list A).
Arguments Nullish {A}.
Arguments Other {A} truthy.
Arguments Arr {A} items.

(** What JSON may hold where the code expects a string: a falsy value
    ([NoString]: the key absent, [null], [0], [false]), a truthy value that
    is no string ([NotString]), or a string, the list of its UTF-16 code
    units (the empty string is falsy as well). *)
Inductive MaybeString : Type :=
  | NoString
  | NotString
  | Str (s : list Z).

(** A level descriptor as parsed from JSON.  A cell of the grid is a
    number; an entry of [targets] or [guards] is [null] ([None]) or an
    object whose coordinates are integers; [bounds], when given, is an
    object of which the constructor reads [x] and [y]. *)
Record LevelData := mkLevelData {
  ld_config : ConfigData;
  ld_grid : MaybeArray (MaybeArray Z);
  ld_layout : MaybeString;
  ld_bounds : option Vec;
  ld_targets : MaybeArray (option TargetData);
  ld_guards : MaybeArray (option GuardData)
}.

Record Level := mkLevel {
  config : Config;
  grid : list (list Z);
  targets : list Target;
  guards : list Guard
}.

(** [createEmptyGrid]: a square of [VOID] whose side is
    [Math.min(gridSize || 32, MAX_GRID_SIZE)]. *)
Definition createEmptyGrid (c : Config) : list (list Z) :=
  let side := Z.min (js_or (Some (gridSize c)) (gridSize DEFAULT_CONFIG)) MAX_GRID_SIZE in
  replicate (Z.to_nat side) (replicate (Z.to_nat side) Tile.VOID).

(** The inner loop [for x < min(row.length, gridSize): this.grid[y][x] =
    levelData.grid[y][x]] writes the cells [0 .. n-1] from left to right (an
    assignment one past the end of a JavaScript array appends). *)
Definition load_row (size : Z) (drow row : list Z) : list Z :=
  let n := Z.to_nat (Z.min (Z.of_nat (length drow)) size) in
  take n drow ++ drop n row.

(** The outer loop over [y < min(grid.length, gridSize)].  A row of the
    descriptor that is [null] has no [length]: reading it throws ([None]).
    A row that is no array has [length] [undefined], so the inner loop does
    nothing.  [this.grid[y]] is [undefined] for a row that [createEmptyGrid]
    did not create; assigning into it throws. *)
Fixpoint load_grid (size : Z) (y : nat) (data : list (MaybeArray Z))
    (g : list (list Z)) : option (list (list Z)) :=
  match data with
  | [] => Some g
  | drow :: data' =>
      if Z.of_nat y <? size then
        match drow with
        | Nullish => None
        | Other _ => load_grid size (S y) data' g
        | Arr cells =>
            if 0 <? Z.min (Z.of_nat (length cells)) size then
              match g !! y with
              | Some row => load_grid size (S y) data' (<[y := load_row size cells row]> g)
              | None => None
              end
            else load_grid size (S y) data' g
        end
      else Some g
  end.

(** *** The ASCII layout *)

(** [String.prototype.trim] removes the white space and the line
    terminators of ECMAScript from both ends. *)
Definition is_space (c : Z) : bool :=
  bool_decide (c ∈ [9; 10; 11; 12; 13; 32; 160; 5760; 8232; 8233; 8239; 8287; 12288; 65279])
  || ((8192 <=? c) && (c <=? 8202)).

Fixpoint trimStart (s : list Z) : list Z :=
  match s with
  | [] => []
  | c :: s' => if is_space c then trimStart s' else s
  end.

Definition trim (s : list Z) : list Z :=
  reverse (trimStart (reverse (trimStart s))).

(** [s.split(sep)] for a separator of one code unit: the pieces between
    the separators, of which there is always at least one. *)
Fixpoint split (sep : Z) (s : list Z) : list (list Z) :=
  match s with
  | [] => [[]]
  | c :: s' =>
      if c =? sep then [] :: split sep s'
      else match split sep s' with
           | line :: lines => (c :: line) :: lines
           | [] => [[c]]
           end
  end.

Definition LINE_FEED : Z := 10.

(** The [switch] of [parseASCIILayout]: ['#'] is a wall, ['.'], ['G'],
    ['T'] and ['S'] are floor, every other character is void. *)
Definition tile_of_char (char : Z) : Z :=
  if char =? 35 then Tile.WALL
  else if bool_decide (char ∈ [46; 71; 84; 83]) then Tile.FLOOR
  else Tile.VOID.

(** What a hole of a JavaScript array is filled with.  A hole reads
    [undefined], which is equal to no tile code; so is this number, and the
    program only ever compares a cell with the three tile codes. *)
Definition HOLE : Z := -1.

(** [row[x] = tile].  For a negative [x] the assignment sets a property
    that is no element, and no cell changes; past the end of the row the
    assignment lengthens it, leaving holes between the old end and [x]. *)
Definition set_cell (row : list Z) (x : Z) (tile : Z) : list Z :=
  if x <? 0 then row
  else if x <? Z.of_nat (length row) then <[Z.to_nat x := tile]> row
  else row ++ replicate (Z.to_nat x - length row) HOLE ++ [tile].

(** The inner loop over the characters of one line, from column [x] on.
    [this.grid[y]] is [undefined] for a negative [y] and for a row that
    [createEmptyGrid] did not create; assigning into it throws ([None]). *)
Fixpoint layout_line (size : Z) (x y : Z) (line : list Z) (g : list (list Z))
    : option (list (list Z)) :=
  match line with
  | [] => Some g
  | char :: line' =>
      if (size <=? x) || (size <=? y) then layout_line size (x + 1) y line' g
      else if y <? 0 then None
      else match g !! Z.to_nat y with
           | Some row =>
               layout_line size (x + 1) y line'
                           (<[Z.to_nat y := set_cell row x (tile_of_char char)]> g)
           | None => None
           end
  end.

Fixpoint layout_lines (size : Z) (startX y : Z) (lines : list (list Z))
    (g : list (list Z)) : option (list (list Z)) :=
  match lines with
  | [] => Some g
  | line :: lines' =>
      g' ← layout_line size startX y line g;
      layout_lines size startX (y + 1) lines' g'
  end.

(** [parseASCIILayout(layout)], with [this.bounds] the [bounds] of the
    descriptor or [null]. *)
Definition parseASCIILayout (c : Config) (bounds : option Vec) (layout : list Z)
    (g : list (list Z)) : option (list (list Z)) :=
  let lines := split LINE_FEED (trim layout) in
  let startY := match bounds with Some b => vy b | None => 0 end in
  let startX := match bounds with Some b => vx b | None => 0 end in
  layout_lines (gridSize c) startX startY lines g.

(** [initializeFromData], the grid: the [grid] of the descriptor when it is
    an array, else its [layout] when that is truthy ([layout.trim] is no
    function unless the layout is a string), else nothing. *)
Definition initialize_grid (c : Config) (ld : LevelData) (g : list (list Z))
    : option (list (list Z)) :=
  match ld_grid ld with
  | Arr data => load_grid (gridSize c) 0 data g
  | _ =>
      match ld_layout ld with
      | Str (char :: s) => parseASCIILayout c (ld_bounds ld) (char :: s) g
      | Str [] | NoString => Some g
      | NotString => None
      end
  end.

(** [array.forEach(...)] over the entries of the descriptor: a value that
    is no array has no [forEach], and reading [x] of a [null] entry
    throws. *)
Definition entries {A : Type} (v : MaybeArray (option A)) : option (list A) :=
  match v with
  | Arr items => mapM id items
  | _ => None
  end.

Definition add_targets (ts : list TargetData) : list Target :=
  imap (fun index td => mkTarget (Z.of_nat index) (mkVec (td_x td) (td_y td)) false) ts.

Definition add_guards (c : Config) (gs : list GuardData) : list Guard :=
  imap (fun index gd =>
          new_Guard (Z.of_nat index) (mkVec (gd_x gd) (gd_y gd))
                    (js_or (gd_hearingRadius gd) (defaultHearingRadius c))) gs.

(** [new Level(levelData)]: [None] stands for a thrown [TypeError]. *)
Definition new_Level (ld : LevelData) : option Level :=
  let c := merge_config DEFAULT_CONFIG (ld_config ld) in
  g ← initialize_grid c ld (createEmptyGrid c);
  ts ← entries (ld_targets ld);
  gs ← entries (ld_guards ld);
  Some {| config := c; grid := g; targets := add_targets ts; guards := add_guards c gs |}.

Definition isValidPosition (l : Level) (pos : Vec) : bool :=
  (0 <=? vx pos) && (vx pos <? gridSize (config l)) &&
  (0 <=? vy pos) && (vy pos <? gridSize (config l)).

(** [this.grid[pos.y][pos.x]] for a valid position; [None] is [undefined]
    (a missing cell, which is equal to no tile code). *)
Definition tileAt (l : Level) (pos : Vec) : option Z :=
  row ← grid l !! Z.to_nat (vy pos);
  row !! Z.to_nat (vx pos).

Definition isPassable (l : Level) (pos : Vec) : bool :=
  isValidPosition l pos && bool_decide (tileAt l pos = Some Tile.FLOOR).

Definition isOccupiedByTarget (l : Level) (pos : Vec) : bool :=
  existsb (fun t => negb (destroyed t) && equals (t_pos t) pos) (targets l).

Definition isOccupiedByGuard (l : Level) (pos : Vec) : bool :=
  existsb (fun g => equals (g_pos g) pos) (guards l).

Definition canPlaceBomb (l : Level) (pos : Vec) : bool :=
  if negb (isValidPosition l pos) then false
  else if negb (bool_decide (tileAt l pos = Some Tile.FLOOR)) then false
  else if isOccupiedByTarget l pos then false
  else if isOccupiedByGuard l pos then false
  else true.

(** ** [Array.prototype.sort] with a comparator

    The sort is stable.  For a comparator that is a total preorder, as the
    comparators of this program are, its result is determined: the sorted
    arrangement that keeps equal elements in their order.  It is embedded
    as an insertion sort that puts an element before the first element it
    does not exceed. *)
Section Sort.
Context {A : Type} (cmp : A -> A -> Z).

Fixpoint js_insert (x : A) (l : list A) : list A :=
  match l with
  | [] => [x]
  | y :: l' => if cmp x y <=? 0 then x :: y :: l' else y :: js_insert x l'
  end.

Fixpoint js_sort (l : list A) : list A :=
  match l with
  | [] => []
  | x :: l' => js_insert x (js_sort l')
  end.
End Sort.

(** ** Pathfinding using A* *)

(** Path lengths: a number or [Infinity]. *)
Inductive Dist := Finite (d : Z) | Infinity.

Global Instance Dist_eq_dec : EqDecision Dist.
Proof. solve_decision. Defined.

(** [d <= r] for a finite [r]. *)
Definition Dist_leb (d : Dist) (r : Z) : bool :=
  match d with
  | Finite n => n <=? r
  | Infinity => false
  end.

Definition directions : list Vec :=
  [mkVec 0 (-1); mkVec 1 0; mkVec 0 1; mkVec (-1) 0].

Definition vadd (p d : Vec) : Vec := mkVec (vx p + vx d) (vy p + vy d).

(** [gScore.get(key) || Infinity]: an absent score and a score of [0] both
    read as [Infinity]. *)
Definition gScore_get (gScore : gmap Vec Z) (k : Vec) : Dist :=
  match gScore !! k with
  | Some 0 | None => Infinity
  | Some g => Finite g
  end.

(** [tentativeG < currentGScore] *)
Definition lt_Dist (g : Z) (d : Dist) : bool :=
  match d with
  | Finite n => g <? n
  | Infinity => true
  end.

(** [openSet.findIndex(item => at pos)] followed by [splice(index, 1)]:
    the first entry at [pos], if any, is removed. *)
Fixpoint remove_first {A : Type} (p : A -> bool) (l : list A) : list A :=
  match l with
  | [] => []
  | x :: l' => if p x then l' else x :: remove_first p l'
  end.

Module Pathfinder.

(** Entries of [openSet] in [getPathDistance]. *)
Record Node := mkNode { pos : Vec; g : Z; f : Z }.

(** The comparator of [openSet.sort]: by [f], then by [h], then by [y],
    then by [x]. *)
Definition compare_pos (target : Vec) (fa : Z) (pa : Vec) (fb : Z) (pb : Vec) : Z :=
  if negb (fa =? fb) then fa - fb
  else
    let hA := manhattanDistance pa target in
    let hB := manhattanDistance pb target in
    if negb (hA =? hB) then hA - hB
    else if negb (vy pa =? vy pb) then vy pa - vy pb
    else vx pa - vx pb.

Definition compare (target : Vec) (a b : Node) : Z :=
  compare_pos target (f a) (pos a) (f b) (pos b).

(** One pass of the body of [for (const dir of directions)]. *)
Definition relax (l : Level) (target : Vec) (closedSet : gset Vec) (current : Node)
    (st : list Node * gmap Vec Z) (dir : Vec) : list Node * gmap Vec Z :=
  let '(openSet, gScore) := st in
  let neighbor := vadd (pos current) dir in
  if negb (isPassable l neighbor) || bool_decide (neighbor ∈ closedSet) then st
  else
    let tentativeG := g current + 1 in
    if lt_Dist tentativeG (gScore_get gScore neighbor) then
      let f := tentativeG + manhattanDistance neighbor target in
      (remove_first (fun item => equals (pos item) neighbor) openSet
         ++ [mkNode neighbor tentativeG f],
       <[neighbor := tentativeG]> gScore)
    else st.

(** The [while (openSet.length > 0)] loop of [getPathDistance]; [None]
    when the iteration budget [fuel] runs out. *)
Fixpoint distance_loop (l : Level) (target : Vec) (fuel : nat)
    (openSet : list Node) (closedSet : gset Vec) (gScore : gmap Vec Z) : option Dist :=
  match fuel with
  | O => None
  | S fuel' =>
      match js_sort (compare target) openSet with
      | [] => Some Infinity
      | current :: rest =>
          if equals (pos current) target then Some (Finite (g current))
          else
            let closedSet' := {[pos current]} ∪ closedSet in
            let '(openSet', gScore') :=
              foldl (relax l target closedSet' current) (rest, gScore) directions in
            distance_loop l target fuel' openSet' closedSet' gScore'
      end
  end.

(** Every iteration closes one more cell, and only the start cell and
    in-bounds cells are ever opened: this many iterations always suffice. *)
Definition budget (l : Level) : nat :=
  S (S (Z.to_nat (gridSize (config l)) * Z.to_nat (gridSize (config l)))).

Definition getPathDistance_fuel (fuel : nat) (l : Level) (start target : Vec) : option Dist :=
  if equals start target then Some (Finite 0)
  else distance_loop l target fuel
         [mkNode start 0 (manhattanDistance start target)] ∅ {[start := 0]}.

Definition getPathDistance (l : Level) (start target : Vec) : Dist :=
  default Infinity (getPathDistance_fuel (budget l) l start target).

(** Entries of [openSet] in [getNextStep] carry their parent entry. *)
Inductive PNode := mkPNode (ppos : Vec) (pg : Z) (pf : Z) (parent : option PNode).

Definition ppos (n : PNode) : Vec := let 'mkPNode p _ _ _ := n in p.
Definition pg (n : PNode) : Z := let 'mkPNode _ g _ _ := n in g.
Definition pf (n : PNode) : Z := let 'mkPNode _ _ f _ := n in f.
Definition parent (n : PNode) : option PNode := let 'mkPNode _ _ _ p := n in p.

Definition pcompare (target : Vec) (a b : PNode) : Z :=
  compare_pos target (pf a) (ppos a) (pf b) (ppos b).

(** [while (pathNode.parent && !pathNode.parent.pos.equals(start))
    pathNode = pathNode.parent] *)
Fixpoint first_step (start : Vec) (pathNode : PNode) : Vec :=
  match pathNode with
  | mkPNode p _ _ None => p
  | mkPNode p _ _ (Some par) =>
      if equals (ppos par) start then p else first_step start par
  end.

Definition prelax (l : Level) (target : Vec) (closedSet : gset Vec) (current : PNode)
    (st : list PNode * gmap Vec Z) (dir : Vec) : list PNode * gmap Vec Z :=
  let '(openSet, gScore) := st in
  let neighbor := vadd (ppos current) dir in
  if negb (isPassable l neighbor) || bool_decide (neighbor ∈ closedSet) then st
  else
    let tentativeG := pg current + 1 in
    if lt_Dist tentativeG (gScore_get gScore neighbor) then
      let f := tentativeG + manhattanDistance neighbor target in
      (remove_first (fun item => equals (ppos item) neighbor) openSet
         ++ [mkPNode neighbor tentativeG f (Some current)],
       <[neighbor := tentativeG]> gScore)
    else st.

Fixpoint step_loop (l : Level) (start target : Vec) (fuel : nat)
    (openSet : list PNode) (closedSet : gset Vec) (gScore : gmap Vec Z) : option Vec :=
  match fuel with
  | O => None
  | S fuel' =>
      match js_sort (pcompare target) openSet with
      | [] => Some start
      | current :: rest =>
          if equals (ppos current) target then Some (first_step start current)
          else
            let closedSet' := {[ppos current]} ∪ closedSet in
            let '(openSet', gScore') :=
              foldl (prelax l target closedSet' current) (rest, gScore) directions in
            step_loop l start target fuel' openSet' closedSet' gScore'
      end
  end.

(** [getNextStep]; [None] when the budget runs out. *)
Definition getNextStep (l : Level) (start target : Vec) : option Vec :=
  if equals start target then Some start
  else step_loop l start target (budget l)
         [mkPNode start 0 (manhattanDistance start target) None] ∅ {[start := 0]}.

End Pathfinder.

(** ** The [Game] class: state and bomb placement *)

Record Game := mkGame {
  level : Level;
  bombs : list Bomb;
  turnIndex : Z;
  gameState : GameState;
  bombIdCounter : Z
}.

(** [loadLevel(levelData)]: the only step that can fail is the [Level]
    constructor; no other check is made. *)
Definition loadLevel (ld : LevelData) : option Game :=
  l ← new_Level ld;
  Some {| level := l; bombs := []; turnIndex := 0;
          gameState := PLAYING; bombIdCounter := 0 |}.

(** [n >= limit] where [limit] may be [undefined]: a comparison with
    [undefined] is [false]. *)
Definition ge_limit (n : Z) (limit : option Z) : bool :=
  match limit with
  | Some m => m <=? n
  | None => false
  end.

Definition bombsThisTurn (gm : Game) : Z :=
  Z.of_nat (length (filter (fun b => turnPlaced b = turnIndex gm) (bombs gm))).

(** [placeBomb(pos)]: the returned boolean and the state afterwards. *)
Definition placeBomb (gm : Game) (pos : Vec) : bool * Game :=
  if negb (canPlaceBomb (level gm) pos) then (false, gm)
  else if ge_limit (Z.of_nat (length (bombs gm))) (maxActiveBombs (config (level gm)))
  then (false, gm)
  else if maxBombsPerTurn (config (level gm)) <=? bombsThisTurn gm then (false, gm)
  else
    let bomb := new_Bomb (bombIdCounter gm) pos (timersAllowed (config (level gm)))
                         (turnIndex gm) in
    (true, {| level := level gm; bombs := bombs gm ++ [bomb];
              turnIndex := turnIndex gm; gameState := gameState gm;
              bombIdCounter := bombIdCounter gm + 1 |}).

(** ** Guard target selection *)

(** A noise source [{pos, level}]. *)
Record Source := mkSource { s_pos : Vec; s_level : Z }.

Global Instance Source_eq_dec : EqDecision Source.
Proof. solve_decision. Defined.

(** [a - b] on path lengths, up to sign (the only use is as the result of a
    sort comparator); never reached with two [Infinity]. *)
Definition Dist_sub (a b : Dist) : Z :=
  match a, b with
  | Finite x, Finite y => x - y
  | Infinity, Finite _ => 1
  | Finite _, Infinity => -1
  | Infinity, Infinity => 0
  end.

(** The comparator of [audibleSources.sort].  The boolean attached to a
    source is [explodingSources.includes(source)]: the two arrays hold
    distinct objects, and [allSources] lists the ticking ones first. *)
Definition source_compare (l : Level) (guard : Guard) (a b : Source * bool) : Z :=
  if negb (s_level (fst a) =? s_level (fst b)) then s_level (fst b) - s_level (fst a)
  else
    let distA := Pathfinder.getPathDistance l (g_pos guard) (s_pos (fst a)) in
    let distB := Pathfinder.getPathDistance l (g_pos guard) (s_pos (fst b)) in
    if negb (bool_decide (distA = distB)) then Dist_sub distA distB
    else if negb (bool_decide (snd a = snd b)) then (if snd b then 1 else -1)
    else if negb (vy (s_pos (fst a)) =? vy (s_pos (fst b)))
         then vy (s_pos (fst a)) - vy (s_pos (fst b))
    else vx (s_pos (fst a)) - vx (s_pos (fst b)).

Definition audible (l : Level) (guard : Guard) (s : Source) : bool :=
  Dist_leb (Pathfinder.getPathDistance l (g_pos guard) (s_pos s)) (hearingRadius guard).

Definition allSources (tickingSources explodingSources : list Source) : list (Source * bool) :=
  ((fun s => (s, false)) <$> tickingSources) ++ ((fun s => (s, true)) <$> explodingSources).

Definition chooseGuardTarget (l : Level) (guard : Guard)
    (tickingSources explodingSources : list Source) : option Source :=
  let audibleSources :=
    List.filter (fun a => audible l guard (fst a)) (allSources tickingSources explodingSources) in
  fst <$> head (js_sort (source_compare l guard) audibleSources).

(** ** Movement conflicts *)

(** [Map.prototype.set] on a map that is later iterated: an existing key
    keeps its place, a new key goes last. *)
Fixpoint map_set {V : Type} (k : Z) (v : V) (m : list (Z * V)) : list (Z * V) :=
  match m with
  | [] => [(k, v)]
  | (k', v') :: m' => if k' =? k then (k, v) :: m' else (k', v') :: map_set k v m'
  end.

Fixpoint map_get {V : Type} (m : list (Z * V)) (k : Z) : option V :=
  match m with
  | [] => None
  | (k', v') :: m' => if k' =? k then Some v' else map_get m' k
  end.

(** [this.level.guards.find(g => g.id === id)] *)
Definition find_guard (gs : list Guard) (id : Z) : option Guard :=
  List.find (fun g => g_id g =? id) gs.

(** Group proposals by destination. *)
Definition group_by_destination (proposals : list (Z * Vec)) : gmap Vec (list Z) :=
  foldl (fun (m : gmap Vec (list Z)) (p : Z * Vec) =>
           <[snd p := default [] (m !! snd p) ++ [fst p]]> m) ∅ proposals.

(** The body of the second loop of [resolveMovementConflicts]; [None] is a
    thrown [TypeError] (a proposal for an id that no guard has).  A guard id
    of [0] is falsy in [if (occupyingGuardId)]. *)
Definition resolve_one (gs : list Guard) (proposals : list (Z * Vec))
    (destinationMap : gmap Vec (list Z)) (validMoves : gmap Z Vec)
    (p : Z * Vec) : option (gmap Z Vec) :=
  let '(guardId, destination) := p in
  guard ← find_guard gs guardId;
  claimants ← destinationMap !! destination;
  if 1 <? Z.of_nat (length claimants) then Some (<[guardId := g_pos guard]> validMoves)
  else
    let occupyingGuardId :=
      match destinationMap !! g_pos guard with
      | Some ids => List.find (fun id => negb (id =? guardId)) ids
      | None => None
      end in
    let move := Some (<[guardId := destination]> validMoves) in
    match occupyingGuardId with
    | Some oid =>
        if oid =? 0 then move
        else
          match map_get proposals oid with
          | Some occupyingDestination =>
              if equals occupyingDestination (g_pos guard) then
                occupyingGuard ← find_guard gs oid;
                Some (<[oid := g_pos occupyingGuard]> (<[guardId := g_pos guard]> validMoves))
              else move
          | None => move
          end
    | None => move
    end.

Fixpoint resolve_all (gs : list Guard) (proposals : list (Z * Vec))
    (destinationMap : gmap Vec (list Z)) (validMoves : gmap Z Vec)
    (todo : list (Z * Vec)) : option (gmap Z Vec) :=
  match todo with
  | [] => Some validMoves
  | p :: todo' =>
      vm ← resolve_one gs proposals destinationMap validMoves p;
      resolve_all gs proposals destinationMap vm todo'
  end.

Definition apply_moves (validMoves : gmap Z Vec) (gs : list Guard) : list Guard :=
  (fun guard => match validMoves !! g_id guard with
                | Some newPos => set_pos guard newPos
                | None => guard
                end) <$> gs.

(** [resolveMovementConflicts(proposals)]: the guards afterwards. *)
Definition resolveMovementConflicts (gs : list Guard) (proposals : list (Z * Vec))
    : option (list Guard) :=
  let destinationMap := group_by_destination proposals in
  validMoves ← resolve_all gs proposals destinationMap ∅ proposals;
  Some (apply_moves validMoves gs).

(** ** Blast *)

(** [Math.round]: to the nearest integer, halves upwards. *)
Definition js_round (q : Q) : Z := Qfloor (q + (1 # 2))%Q.

(** The [i]-th sample between [start] and [end].  Arithmetic is exact here;
    on a grid of at most 64 by 64 cells JavaScript's doubles give the same
    cells whenever [steps < 22] (from 22 on, a product such as
    [(15/22) * 11] falls just short of a half and rounds the other way). *)
Definition sample (start end_ : Vec) (i : Z) : Vec :=
  let dx := vx end_ - vx start in
  let dy := vy end_ - vy start in
  let steps := Z.max (Z.abs dx) (Z.abs dy) in
  let stepX := (inject_Z dx / inject_Z steps)%Q in
  let stepY := (inject_Z dy / inject_Z steps)%Q in
  mkVec (js_round (inject_Z (vx start) + stepX * inject_Z i)%Q)
        (js_round (inject_Z (vy start) + stepY * inject_Z i)%Q).

Definition isWall (l : Level) (p : Vec) : bool :=
  isValidPosition l p && bool_decide (tileAt l p = Some Tile.WALL).

Definition hasLineOfSight (l : Level) (start end_ : Vec) : bool :=
  let dx := vx end_ - vx start in
  let dy := vy end_ - vy start in
  if (dx =? 0) && (dy =? 0) then true
  else
    let steps := Z.max (Z.abs dx) (Z.abs dy) in
    forallb (fun i => negb (isWall l (sample start end_ i))) (seqZ 1 (steps - 1)).

(** [Math.sqrt(dx^2 + dy^2) <= radius] on integers (the square root of a
    double is correctly rounded, so the test is the one on the squares). *)
Definition within_radius (dx dy radius : Z) : bool :=
  (0 <=? radius) && (dx * dx + dy * dy <=? radius * radius).

Definition calculateCircularBlast (l : Level) (bombPos : Vec) (radius : Z) : list Vec :=
  x ← seqZ (vx bombPos - radius) (2 * radius + 1);
  y ← seqZ (vy bombPos - radius) (2 * radius + 1);
  let pos := mkVec x y in
  if within_radius (x - vx bombPos) (y - vy bombPos) radius && isValidPosition l pos
     && hasLineOfSight l bombPos pos
  then [pos] else [].

Definition calculateBlastTiles (l : Level) (bombPos : Vec) : list Vec :=
  let blastRadius := Z.max 1 (blastRange (config l) - 1) in
  calculateCircularBlast l bombPos blastRadius.

(** ** One turn: [simulateTurn] *)

Definition set_timer (b : Bomb) (t : Z) : Bomb :=
  {| b_id := b_id b; b_pos := b_pos b; hasTimer := hasTimer b; timer := t;
     b_state := b_state b; turnPlaced := turnPlaced b |}.

Definition set_state (b : Bomb) (s : BombState) : Bomb :=
  {| b_id := b_id b; b_pos := b_pos b; hasTimer := hasTimer b; timer := timer b;
     b_state := s; turnPlaced := turnPlaced b |}.

Definition set_destroyed (t : Target) (d : bool) : Target :=
  {| t_id := t_id t; t_pos := t_pos t; destroyed := d |}.

(** Phase 1, one bomb: the bomb afterwards and the sources it pushes to
    [tickingSources] and [explodingSources]. *)
Definition tick_bomb (timers : bool) (bomb : Bomb) : Bomb * list Source * list Source :=
  if timers && hasTimer bomb then
    if 1 <? timer bomb then
      let bomb' := set_timer bomb (timer bomb - 1) in
      (bomb', [mkSource (b_pos bomb) (getNoiseLevel bomb')], [])
    else
      (set_state bomb EXPLODING,
       [mkSource (b_pos bomb) (getNoiseLevel bomb)],
       [mkSource (b_pos bomb) 4])
  else (set_state bomb EXPLODING, [], [mkSource (b_pos bomb) 4]).

Definition tick_bombs (timers : bool) (bs : list Bomb) : list Bomb * list Source * list Source :=
  foldl (fun acc bomb =>
           let '(ticked, ticking, exploding) := acc in
           let '(bomb', t, e) := tick_bomb timers bomb in
           (ticked ++ [bomb'], ticking ++ t, exploding ++ e))
        ([], [], []) bs.

(** Phase 2, one guard: the guard afterwards and its proposal. *)
Definition decide_guard (l : Level) (turn : Z) (tickingSources explodingSources : list Source)
    (guard : Guard) : option (Guard * Vec) :=
  match chooseGuardTarget l guard tickingSources explodingSources with
  | Some target =>
      nextStep ← Pathfinder.getNextStep l (g_pos guard) (s_pos target);
      Some (set_targetPos (set_memory guard None) (Some (s_pos target)), nextStep)
  | None =>
      match memory guard with
      | Some m =>
          if turn - m_turnIndex m <=? memoryTTL (config l) then
            nextStep ← Pathfinder.getNextStep l (g_pos guard) (m_pos m);
            Some (set_targetPos guard (Some (m_pos m)), nextStep)
          else Some (set_targetPos guard None, g_pos guard)
      | None => Some (set_targetPos guard None, g_pos guard)
      end
  end.

Fixpoint decide_guards (l : Level) (turn : Z) (tickingSources explodingSources : list Source)
    (gs : list Guard) (proposals : list (Z * Vec)) : option (list Guard * list (Z * Vec)) :=
  match gs with
  | [] => Some ([], proposals)
  | guard :: gs' =>
      '(guard', nextStep) ← decide_guard l turn tickingSources explodingSources guard;
      '(rest, proposals') ← decide_guards l turn tickingSources explodingSources gs'
                              (map_set (g_id guard) nextStep proposals);
      Some (guard' :: rest, proposals')
  end.

(** Phase 4, one bomb: targets on a blast tile are destroyed. *)
Definition destroy_targets (blastTiles : list Vec) (ts : list Target) : list Target :=
  (fun target =>
     if negb (destroyed target) && existsb (fun tile => equals tile (t_pos target)) blastTiles
     then set_destroyed target true else target) <$> ts.

Definition guard_in_blast (blastTiles : list Vec) (gs : list Guard) : bool :=
  existsb (fun guard => existsb (fun tile => equals tile (g_pos guard)) blastTiles) gs.

(** Phase 5, one guard. *)
Definition explosion_compare (l : Level) (guard : Guard) (a b : Source) : Z :=
  let distA := Pathfinder.getPathDistance l (g_pos guard) (s_pos a) in
  let distB := Pathfinder.getPathDistance l (g_pos guard) (s_pos b) in
  if negb (bool_decide (distA = distB)) then Dist_sub distA distB
  else if negb (vy (s_pos a) =? vy (s_pos b)) then vy (s_pos a) - vy (s_pos b)
  else vx (s_pos a) - vx (s_pos b).

Definition update_memory (l : Level) (turn : Z) (explodingSources : list Source)
    (guard : Guard) : Guard :=
  let audibleExplosions := List.filter (audible l guard) explodingSources in
  match js_sort (explosion_compare l guard) audibleExplosions with
  | first :: _ => set_memory guard (Some (mkMemory (s_pos first) turn))
  | [] =>
      match memory guard with
      | Some m => if memoryTTL (config l) <? turn - m_turnIndex m
                  then set_memory guard None else guard
      | None => guard
      end
  end.

Definition with_guards (l : Level) (gs : list Guard) : Level :=
  {| config := config l; grid := grid l; targets := targets l; guards := gs |}.

Definition with_targets (l : Level) (ts : list Target) : Level :=
  {| config := config l; grid := grid l; targets := ts; guards := guards l |}.

(** [simulateTurn()]: the game afterwards; [None] when the pathfinding
    budget runs out or an exception is thrown.  The explosion animations
    and the delayed level change are presentation and are left out. *)
Definition simulateTurn (gm : Game) : option Game :=
  let turn := turnIndex gm + 1 in
  let l := level gm in
  (* Phase 1: tick bombs and collect noise sources *)
  let '(bombs1, tickingSources, explodingSources) :=
    tick_bombs (timersAllowed (config l)) (bombs gm) in
  (* Phase 2: guard target selection and movement *)
  '(guards2, proposals) ← decide_guards l turn tickingSources explodingSources (guards l) [];
  (* Phase 3: resolve movement conflicts *)
  guards3 ← resolveMovementConflicts guards2 proposals;
  let l3 := with_guards l guards3 in
  (* Phase 4: handle explosions *)
  let explodingBombs := List.filter (fun b => bool_decide (b_state b = EXPLODING)) bombs1 in
  let targets4 :=
    foldl (fun ts bomb => destroy_targets (calculateBlastTiles l3 (b_pos bomb)) ts)
          (targets l) explodingBombs in
  let anyGuardKilled :=
    existsb (fun bomb => guard_in_blast (calculateBlastTiles l3 (b_pos bomb)) guards3)
            explodingBombs in
  let bombs4 := List.filter (fun b => negb (bool_decide (b_state b = EXPLODING))) bombs1 in
  (* Phase 5: update guard memory *)
  let guards5 := update_memory l3 turn explodingSources <$> guards3 in
  (* Phase 6: check win/lose conditions *)
  let state6 :=
    if anyGuardKilled then LOST
    else if forallb destroyed targets4 then WON
    else gameState gm in
  Some {| level := with_targets (with_guards l guards5) targets4;
          bombs := bombs4; turnIndex := turn; gameState := state6;
          bombIdCounter := bombIdCounter gm |}.

(** ** The level editor: guards through export and import *)

Module Editor.

(** A guard of the editor: [{id, x, y, hearingRadius}]. *)
Record EGuard := mkEGuard { e_id : Z; e_x : Z; e_y : Z; e_hearingRadius : Z }.

(** [exportLevel]: the [guards] array of the descriptor. *)
Definition exportGuards (gs : list EGuard) : list GuardData :=
  (fun guard => mkGuardData (e_x guard) (e_y guard) (Some (e_hearingRadius guard))) <$> gs.

(** [importLevel]: the editor's guards from the descriptor's. *)
Definition importGuards (gs : list GuardData) : list EGuard :=
  imap (fun index guard =>
          mkEGuard (Z.of_nat index) (gd_x guard) (gd_y guard)
                   (js_or (gd_hearingRadius guard) 8)) gs.

End Editor.

(** * Specification-side notions and scenarios *)

(** The cells of the grid. *)
Definition cells (l : Level) : list Vec :=
  x ← seqZ 0 (gridSize (config l));
  y ← seqZ 0 (gridSize (config l));
  [mkVec x y].

(** The grid stores a tile for every in-bounds cell, so that no lookup
    [this.grid[y][x]] of an in-bounds cell meets a missing row.  Every level
    loaded with a grid size of at most 64 is of this kind. *)
Definition grid_complete (l : Level) : bool :=
  forallb (fun pos => bool_decide (is_Some (tileAt l pos))) (cells l).

Definition square (side : nat) (g : list (list Z)) : Prop :=
  length g = side /\ Forall (fun row => length row = side) g.

(** ** Scenarios *)

(** A corridor along the row [y = 0] of a square grid of the given side;
    the rows below stay [VOID]. *)
Definition corridor_config (side : Z) : ConfigData :=
  {| cd_gridSize := Some side; cd_blastRange := None; cd_defaultHearingRadius := None;
     cd_memoryTTL := None; cd_maxBombsPerTurn := None; cd_maxActiveBombs := None;
     cd_timersAllowed := None |}.

Definition corridor (row : list Z) (ts : list TargetData) (gs : list GuardData) : LevelData :=
  {| ld_config := corridor_config (Z.of_nat (length row));
     ld_grid := Arr [Arr row]; ld_layout := NoString; ld_bounds := None;
     ld_targets := Arr (Some <$> ts); ld_guards := Arr (Some <$> gs) |}.

(** Two guards walking east in file towards a bomb: guard 0 in front at
    [(1,0)], guard 1 behind it at [(0,0)], the bomb at [(4,0)], a target out
    of reach of the blast at [(7,0)]. *)
Definition file_level : LevelData :=
  corridor [0; 0; 0; 0; 0; 0; 0; 0] [mkTargetData 7 0]
           [mkGuardData 1 0 None; mkGuardData 0 0 None].

Definition file_game : option Game :=
  gm ← loadLevel file_level;
  Some (snd (placeBomb gm (mkVec 4 0))).

(** The same level with the two guards listed in the other order. *)
Definition file_level_rev : LevelData :=
  corridor [0; 0; 0; 0; 0; 0; 0; 0] [mkTargetData 7 0]
           [mkGuardData 0 0 None; mkGuardData 1 0 None].

Definition file_game_rev : option Game :=
  gm ← loadLevel file_level_rev;
  Some (snd (placeBomb gm (mkVec 4 0))).

(** The swap of the specification: a guard at [(0,0)] proposing [(1,0)]
    and a guard at [(1,0)] proposing [(0,0)]. *)
Definition swap_guards : list Guard :=
  [new_Guard 0 (mkVec 0 0) 8; new_Guard 1 (mkVec 1 0) 8].

Definition swap_proposals : list (Z * Vec) := [(0, mkVec 1 0); (1, mkVec 0 0)].

Definition swap_proposals_rev : list (Z * Vec) := [(1, mkVec 0 0); (0, mkVec 1 0)].

Definition positions (gs : list Guard) : list Vec := g_pos <$> gs.

(** ** Bomb placement

    As the specification words it: the reasons for a
    rejection. *)
Definition occupiedByBomb (gm : Game) (pos : Vec) : Prop :=
  Exists (fun b => b_pos b = pos) (bombs gm).

Definition claimed_rejection (gm : Game) (pos : Vec) : Prop :=
  isPassable (level gm) pos = false
  \/ isOccupiedByTarget (level gm) pos = true
  \/ isOccupiedByGuard (level gm) pos = true
  \/ occupiedByBomb gm pos
  \/ (exists m, maxActiveBombs (config (level gm)) = Some m /\ m <= Z.of_nat (length (bombs gm)))
  \/ maxBombsPerTurn (config (level gm)) <= bombsThisTurn gm.

(** The reasons [placeBomb] tests. *)
Definition tested_rejection (gm : Game) (pos : Vec) : Prop :=
  isPassable (level gm) pos = false
  \/ isOccupiedByTarget (level gm) pos = true
  \/ isOccupiedByGuard (level gm) pos = true
  \/ (exists m, maxActiveBombs (config (level gm)) = Some m /\ m <= Z.of_nat (length (bombs gm)))
  \/ maxBombsPerTurn (config (level gm)) <= bombsThisTurn gm.

(** Two placements per turn allowed, on a corridor of three cells. *)
Definition stack_level : LevelData :=
  {| ld_config := {| cd_gridSize := Some 3; cd_blastRange := None;
                     cd_defaultHearingRadius := None; cd_memoryTTL := None;
                     cd_maxBombsPerTurn := Some 2; cd_maxActiveBombs := Some 4;
                     cd_timersAllowed := None |};
     ld_grid := Arr [Arr [0; 0; 0]]; ld_layout := NoString; ld_bounds := None;
     ld_targets := Arr []; ld_guards := Arr [] |}.

Definition stack_game : option Game :=
  gm ← loadLevel stack_level;
  Some (snd (placeBomb gm (mkVec 1 0))).

(** A guard standing on a [WALL] cell and a target on a [VOID] cell. *)
Definition off_floor_level : LevelData :=
  {| ld_config := corridor_config 2;
     ld_grid := Arr [Arr [1; 0]; Arr [0; 2]];
     ld_layout := NoString; ld_bounds := None;
     ld_targets := Arr [Some (mkTargetData 1 1)];
     ld_guards := Arr [Some (mkGuardData 0 0 None)] |}.

(** A descriptor whose grid rows are ragged and too many. *)
Definition ragged_level : LevelData :=
  {| ld_config := corridor_config 2;
     ld_grid := Arr [Arr [0]; Arr [0; 0; 0]; Arr []; Arr [1]];
     ld_layout := NoString; ld_bounds := None;
     ld_targets := Arr [];
     ld_guards := Arr [] |}.

(** Some guard or target of the descriptor sits off a Floor cell. *)
Definition entity_off_floor (ld : LevelData) (l : Level) : Prop :=
  Exists (fun gd => isPassable l (mkVec (gd_x gd) (gd_y gd)) = false)
         (default [] (entries (ld_guards ld)))
  \/ Exists (fun td => isPassable l (mkVec (td_x td) (td_y td)) = false)
            (default [] (entries (ld_targets ld))).

Definition guard_cell (gd : GuardData) : Vec := mkVec (gd_x gd) (gd_y gd).
Definition target_cell (td : TargetData) : Vec := mkVec (td_x td) (td_y td).

(** *** When the constructor throws

    The [Level] constructor has rows [0 .. min(gridSize || 32, 64) - 1]
    and no other. *)
Definition no_row (c : Config) (y : Z) : Prop :=
  y < 0 \/ Z.min (js_or (Some (gridSize c)) (gridSize DEFAULT_CONFIG)) MAX_GRID_SIZE <= y.

(** Some row of the descriptor's grid, of an index below [gridSize], is
    [null], or is a non-empty array at an index where the level has no
    row. *)
Definition bad_grid_row (c : Config) (rows : list (MaybeArray Z)) : Prop :=
  exists y : nat,
    Z.of_nat y < gridSize c
    /\ (rows !! y = Some Nullish
        \/ exists cells, rows !! y = Some (Arr cells) /\ cells <> []
                         /\ no_row c (Z.of_nat y)).

(** Some character of the layout, once the layout is trimmed, cut into
    lines and shifted by the bounds, falls on columns and rows below
    [gridSize] and on a row that the level does not have. *)
Definition bad_layout_cell (c : Config) (bounds : option Vec) (layout : list Z) : Prop :=
  exists (row col : nat) (line : list Z),
    split LINE_FEED (trim layout) !! row = Some line
    /\ (col < length line)%nat
    /\ match bounds with Some b => vx b | None => 0 end + Z.of_nat col < gridSize c
    /\ match bounds with Some b => vy b | None => 0 end + Z.of_nat row < gridSize c
    /\ no_row c (match bounds with Some b => vy b | None => 0 end + Z.of_nat row).

Definition grid_throws (c : Config) (ld : LevelData) : Prop :=
  match ld_grid ld with
  | Arr rows => bad_grid_row c rows
  | _ =>
      match ld_layout ld with
      | NotString => True
      | Str layout => layout <> [] /\ bad_layout_cell c (ld_bounds ld) layout
      | NoString => False
      end
  end.

(** The value is no array, or one of its entries is [null]. *)
Definition entries_throw {A : Type} (v : MaybeArray (option A)) : Prop :=
  match v with
  | Arr items => None ∈ items
  | _ => True
  end.

Definition load_throws (ld : LevelData) : Prop :=
  grid_throws (merge_config DEFAULT_CONFIG (ld_config ld)) ld
  \/ entries_throw (ld_targets ld)
  \/ entries_throw (ld_guards ld).

(** Descriptors on which the constructor throws although both entity
    arrays are given: a [null] row, a [null] target, and a layout that the
    bounds move one row above the grid. *)
Definition null_row_level : LevelData :=
  {| ld_config := corridor_config 1;
     ld_grid := Arr [Nullish]; ld_layout := NoString; ld_bounds := None;
     ld_targets := Arr []; ld_guards := Arr [] |}.

Definition null_target_level : LevelData :=
  {| ld_config := corridor_config 1;
     ld_grid := Arr [Arr [0]]; ld_layout := NoString; ld_bounds := None;
     ld_targets := Arr [None]; ld_guards := Arr [] |}.

Definition raised_layout_level : LevelData :=
  {| ld_config := corridor_config 1;
     ld_grid := Nullish; ld_layout := Str [35]; ld_bounds := Some (mkVec 0 (-1));
     ld_targets := Arr []; ld_guards := Arr [] |}.

(** A level without [maxActiveBombs] that allows three placements a turn. *)
Definition uncapped_level : LevelData :=
  {| ld_config := {| cd_gridSize := Some 4; cd_blastRange := None;
                     cd_defaultHearingRadius := None; cd_memoryTTL := None;
                     cd_maxBombsPerTurn := Some 3; cd_maxActiveBombs := None;
                     cd_timersAllowed := Some true |};
     ld_grid := Arr [Arr [0; 0; 0; 0]]; ld_layout := NoString; ld_bounds := None;
     ld_targets := Arr []; ld_guards := Arr [] |}.

(** A guard with an explicit hearing radius of 0 in a level whose default
    radius is 5. *)
Definition zero_radius_level : LevelData :=
  {| ld_config := {| cd_gridSize := Some 1; cd_blastRange := None;
                     cd_defaultHearingRadius := Some 5; cd_memoryTTL := None;
                     cd_maxBombsPerTurn := None; cd_maxActiveBombs := None;
                     cd_timersAllowed := None |};
     ld_grid := Arr [Arr [0]]; ld_layout := NoString; ld_bounds := None;
     ld_targets := Arr [];
     ld_guards := Arr [Some (mkGuardData 0 0 (Some 0))] |}.

(** ** Blast

    The blast of the specification: the bomb's own cell and four rays of
    up to [range] cells along N/E/S/W, each ray stopping before the first
    Wall it meets (and at the edge of the grid). *)
Fixpoint ray (l : Level) (p dir : Vec) (n : nat) : list Vec :=
  match n with
  | O => []
  | S n' =>
      let q := vadd p dir in
      if isValidPosition l q && negb (isWall l q) then q :: ray l q dir n' else []
  end.

Definition orthogonalCross (l : Level) (bombPos : Vec) (range : Z) : list Vec :=
  bombPos :: (dir ← directions; ray l bombPos dir (Z.to_nat range)).

(** A room of five by five Floor cells. *)
Definition room_level : LevelData :=
  {| ld_config := corridor_config 5;
     ld_grid := Arr (replicate 5 (Arr (replicate 5 Tile.FLOOR)));
     ld_layout := NoString; ld_bounds := None;
     ld_targets := Arr []; ld_guards := Arr [] |}.

(** The corridor of the scenario, [F F F F F], and the same corridor with
    a Wall at [x = 3]. *)
Definition corridor5 : LevelData := corridor [0; 0; 0; 0; 0] [] [].

Definition corridor5_wall : LevelData := corridor [0; 0; 0; 1; 0] [] [].

Definition corridor_cells : list Vec :=
  [mkVec 0 0; mkVec 1 0; mkVec 2 0; mkVec 3 0; mkVec 4 0].

(** ** Shortest paths

    As the specification words them: a path moves in the four directions
    and every cell it enters is passable (the cell it starts from is taken
    as given); its length is the number of moves. *)
Definition adjacent (a b : Vec) : Prop := manhattanDistance a b = 1.

Inductive path (l : Level) (a : Vec) : Vec -> nat -> Prop :=
  | path_here : path l a a 0
  | path_step (b c : Vec) (n : nat) :
      path l a b n -> adjacent b c -> isPassable l c = true -> path l a c (S n).

Definition shortest (l : Level) (a b : Vec) (n : nat) : Prop :=
  path l a b n /\ forall m, path l a b m -> (n <= m)%nat.

(** The cells a search from [start] can open. *)
Definition universe (l : Level) (start : Vec) : gset Vec :=
  {[start]} ∪ list_to_set (cells l).

(** The invariant of the [while] loop of [getPathDistance]. *)
Record open_ok (l : Level) (start target : Vec) (closedSet : gset Vec)
    (n : Pathfinder.Node) : Prop := {
  ok_g : 0 <= Pathfinder.g n;
  ok_path : path l start (Pathfinder.pos n) (Z.to_nat (Pathfinder.g n));
  ok_f : Pathfinder.f n = Pathfinder.g n + manhattanDistance (Pathfinder.pos n) target;
  ok_fresh : Pathfinder.pos n ∉ closedSet
}.

Definition listed (openSet : list Pathfinder.Node) (v : Vec) (gv : Z) : Prop :=
  exists n, n ∈ openSet /\ Pathfinder.pos n = v /\ Pathfinder.g n = gv.

Definition reached (openSet : list Pathfinder.Node) (closedSet : gset Vec)
    (v : Vec) (bound : Z) : Prop :=
  v ∈ closedSet
  \/ exists n, n ∈ openSet /\ Pathfinder.pos n = v /\ Pathfinder.g n <= bound.

Record search_inv (l : Level) (start target : Vec) (openSet : list Pathfinder.Node)
    (closedSet : gset Vec) (gScore : gmap Vec Z) : Prop := {
  inv_open : forall n, n ∈ openSet -> open_ok l start target closedSet n;
  inv_nodup : NoDup (Pathfinder.pos <$> openSet);
  inv_gscore : forall v gv, v ∉ closedSet -> gScore !! v = Some gv <-> listed openSet v gv;
  inv_closed : forall c, c ∈ closedSet ->
    exists d, shortest l start c d
              /\ forall v, adjacent c v -> isPassable l v = true ->
                           reached openSet closedSet v (Z.of_nat d + 1);
  inv_start : start ∈ closedSet
              \/ (openSet = [Pathfinder.mkNode start 0 (manhattanDistance start target)]
                  /\ closedSet = ∅);
  inv_target : target ∉ closedSet;
  inv_positive : start ∈ closedSet -> forall n, n ∈ openSet -> 1 <= Pathfinder.g n;
  inv_universe : closedSet ⊆ universe l start
}.

(** The invariant of the [for] loop over the directions, after the
    directions [seen] and with [current] just closed. *)
Record relax_inv (l : Level) (start target : Vec) (current : Pathfinder.Node)
    (closedSet : gset Vec) (seen : list Vec)
    (openSet : list Pathfinder.Node) (gScore : gmap Vec Z) : Prop := {
  mid_open : forall n, n ∈ openSet ->
    open_ok l start target ({[Pathfinder.pos current]} ∪ closedSet) n /\ 1 <= Pathfinder.g n;
  mid_nodup : NoDup (Pathfinder.pos <$> openSet);
  mid_gscore : forall v gv, v ∉ {[Pathfinder.pos current]} ∪ closedSet ->
    gScore !! v = Some gv <-> listed openSet v gv;
  mid_closed : forall c, c ∈ closedSet ->
    exists d, shortest l start c d
              /\ forall v, adjacent c v -> isPassable l v = true ->
                           reached openSet ({[Pathfinder.pos current]} ∪ closedSet) v
                                   (Z.of_nat d + 1);
  mid_done : forall dir, dir ∈ seen ->
    isPassable l (vadd (Pathfinder.pos current) dir) = true ->
    reached openSet ({[Pathfinder.pos current]} ∪ closedSet)
            (vadd (Pathfinder.pos current) dir) (Pathfinder.g current + 1)
}.

(** What the search is to return: the length of a shortest path, or
    [Infinity] when there is no path at all. *)
Definition exact (l : Level) (start target : Vec) (r : Dist) : Prop :=
  match r with
  | Finite d => 0 <= d /\ shortest l start target (Z.to_nat d)
  | Infinity => forall n, ~ path l start target n
  end.

(** ** Ranking of noise sources

    The order in which a guard ranks the sources it hears, as the
    specification words it: loudness descending, then path distance
    ascending, then detonation before ticking, then position in row-major
    order ascending.  A source comes with the flag that tells a detonation
    from a ticking bomb. *)
Definition Dist_lt (a b : Dist) : Prop :=
  match a, b with
  | Finite x, Finite y => x < y
  | Finite _, Infinity => True
  | Infinity, _ => False
  end.

Definition source_before (l : Level) (guard : Guard) (a b : Source * bool) : Prop :=
  let da := Pathfinder.getPathDistance l (g_pos guard) (s_pos (fst a)) in
  let db := Pathfinder.getPathDistance l (g_pos guard) (s_pos (fst b)) in
  s_level (fst b) < s_level (fst a)
  \/ (s_level (fst a) = s_level (fst b)
      /\ (Dist_lt da db
          \/ (da = db
              /\ ((snd a = true /\ snd b = false)
                  \/ (snd a = snd b
                      /\ (vy (s_pos (fst a)) < vy (s_pos (fst b))
                          \/ (vy (s_pos (fst a)) = vy (s_pos (fst b))
                              /\ vx (s_pos (fst a)) <= vx (s_pos (fst b))))))))).

(** The same order on integer keys. *)
Definition source_key (l : Level) (guard : Guard) (a : Source * bool) : list Z :=
  let d := Pathfinder.getPathDistance l (g_pos guard) (s_pos (fst a)) in
  [- s_level (fst a);
   match d with Finite _ => 0 | Infinity => 1 end;
   match d with Finite x => x | Infinity => 0 end;
   if snd a then 0 else 1;
   vy (s_pos (fst a));
   vx (s_pos (fst a))].

Fixpoint lex_le (a b : list Z) : Prop :=
  match a, b with
  | x :: a', y :: b' => x < y \/ (x = y /\ lex_le a' b')
  | _, _ => True
  end.

(** * Further notions *)

(** ** Movement conflicts *)

(** The guards that propose the cell [d], in the order of the proposal
    map. *)
Definition claimants (proposals : list (Z * Vec)) (d : Vec) : list Z :=
  fst <$> filter (fun p => snd p = d) proposals.

(** The proposal map is well formed for the guards: its keys are distinct
    (it is a [Map]), the guards' ids are distinct, and every key is the id
    of a guard. *)
Definition proposals_for (gs : list Guard) (proposals : list (Z * Vec)) : Prop :=
  NoDup (g_id <$> gs)
  /\ NoDup (fst <$> proposals)
  /\ forall id, id ∈ fst <$> proposals -> id ∈ g_id <$> gs.

(** The invariant of the second loop of [resolveMovementConflicts]: an
    entry of [validMoves] is the guard's own cell, or its proposal when no
    one else claims that cell. *)
Definition moves_ok (gs : list Guard) (proposals : list (Z * Vec))
    (validMoves : gmap Z Vec) : Prop :=
  forall id v, validMoves !! id = Some v ->
    exists guard, find_guard gs id = Some guard
      /\ (v = g_pos guard
          \/ (map_get proposals id = Some v /\ claimants proposals v = [id])).

(** ** The next step *)

(** An entry of [getNextStep] without its parent is an entry of
    [getPathDistance]. *)
Definition erase (n : Pathfinder.PNode) : Pathfinder.Node :=
  Pathfinder.mkNode (Pathfinder.ppos n) (Pathfinder.pg n) (Pathfinder.pf n).

(** The parents of an entry lead back to the start, one move onto a Floor
    cell at a time. *)
Inductive chain_ok (l : Level) (start : Vec) : Pathfinder.PNode -> Prop :=
  | chain_root (f : Z) : chain_ok l start (Pathfinder.mkPNode start 0 f None)
  | chain_link (p : Vec) (g f : Z) (par : Pathfinder.PNode) :
      chain_ok l start par ->
      adjacent (Pathfinder.ppos par) p ->
      isPassable l p = true ->
      g = Pathfinder.pg par + 1 ->
      chain_ok l start (Pathfinder.mkPNode p g f (Some par)).

(** The search of [getPathDistance] from its initial state, with the
    budget of the level. *)
Definition distance_loop_from (l : Level) (start target : Vec) : option Dist :=
  Pathfinder.distance_loop l target (Pathfinder.budget l)
    [Pathfinder.mkNode start 0 (manhattanDistance start target)] ∅ {[start := 0]}.

(** ** One turn *)

(** A guard's move: it stays, or it steps onto a Floor cell next to it. *)
Definition step_from (l : Level) (p v : Vec) : Prop :=
  v = p \/ (adjacent p v /\ isPassable l v = true).

(** A bomb detonates on the next turn unless the level allows timers and
    the bomb has one with more than one tick left. *)
Definition detonates (timers : bool) (b : Bomb) : bool :=
  negb (timers && hasTimer b && (1 <? timer b)).

(** The states the game is played in: the grid stores every in-bounds
    cell, the guards have distinct ids, and every live bomb is ticking. *)
Definition playable (gm : Game) : bool :=
  grid_complete (level gm)
  && bool_decide (NoDup (g_id <$> guards (level gm)))
  && forallb (fun b => bool_decide (b_state b = TICKING)) (bombs gm).

(** A cell is hit by the blast of one of the bombs. *)
Definition hit (l : Level) (bs : list Bomb) (p : Vec) : bool :=
  existsb (fun b => existsb (fun tile => equals tile p) (calculateBlastTiles l (b_pos b))) bs.

(** What stays of a guard while it chooses its move. *)
Definition same_guard (a b : Guard) : Prop :=
  g_id b = g_id a /\ g_pos b = g_pos a /\ hearingRadius b = hearingRadius a.

(** Two guards two cells apart that propose the cell between them. *)
Definition contest_guards : list Guard :=
  [new_Guard 0 (mkVec 0 0) 8; new_Guard 1 (mkVec 2 0) 8].

Definition contest_proposals : list (Z * Vec) := [(0, mkVec 1 0); (1, mkVec 1 0)].

(** The guard at [(0,0)] stays put while its neighbour proposes that cell. *)
Definition hold_proposals : list (Z * Vec) := [(0, mkVec 0 0); (1, mkVec 0 0)].

(** The two guards in file with the bomb one cell nearer, at [(3,0)]. *)
Definition ambush_game : option Game :=
  gm ← loadLevel file_level;
  Some (snd (placeBomb gm (mkVec 3 0))).

(** ** Player input: clicks, end of turn, undo

    The handlers of the [Game] class that change the game: a click on the
    canvas ([handleCanvasClick], the only caller of [placeBomb]), the end of
    a turn ([endTurn], the only caller of [simulateTurn]) and [undo].  The
    click position is the grid cell that [Math.floor] gives. *)

Definition with_bombs (gm : Game) (bs : list Bomb) : Game :=
  {| level := level gm; bombs := bs; turnIndex := turnIndex gm;
     gameState := gameState gm; bombIdCounter := bombIdCounter gm |}.

(** [existingBomb.cycleTimer()] on the bomb that
    [this.bombs.find(bomb => bomb.pos.equals(clickPos))] returns: the first
    bomb on the cell is changed in place. *)
Fixpoint cycle_first (clickPos : Vec) (bs : list Bomb) : list Bomb :=
  match bs with
  | [] => []
  | bomb :: bs' =>
      if equals (b_pos bomb) clickPos then cycleTimer bomb :: bs'
      else bomb :: cycle_first clickPos bs'
  end.

Definition handleCanvasClick (gm : Game) (clickPos : Vec) : Game :=
  if negb (bool_decide (gameState gm = PLAYING)) then gm
  else
    let placed := snd (placeBomb gm clickPos) in
    if timersAllowed (config (level gm)) then
      match List.find (fun bomb => equals (b_pos bomb) clickPos) (bombs gm) with
      | Some existingBomb =>
          if hasTimer existingBomb then with_bombs gm (cycle_first clickPos (bombs gm))
          else placed
      | None => placed
      end
    else placed.

(** [endTurn()]; the restart that follows a lost game and the level change
    that follows a won one are started by timers and load a level anew. *)
Definition endTurn (gm : Game) : option Game :=
  if negb (bool_decide (gameState gm = PLAYING)) then Some gm
  else simulateTurn gm.

(** An entry of [gameHistory]: the state that [saveGameState] serialises. *)
Record Snapshot := mkSnapshot {
  sn_bombs : list Bomb;
  sn_guards : list Guard;
  sn_targets : list Target;
  sn_turnIndex : Z;
  sn_gameState : GameState
}.

(** The game together with its [gameHistory]. *)
Record Session := mkSession {
  game : Game;
  gameHistory : list Snapshot
}.

Definition saveGameState (s : Session) : Session :=
  let state := {| sn_bombs := bombs (game s);
                  sn_guards := guards (level (game s));
                  sn_targets := targets (level (game s));
                  sn_turnIndex := turnIndex (game s);
                  sn_gameState := gameState (game s) |} in
  let history := gameHistory s ++ [state] in
  {| game := game s;
     gameHistory := if (20 <? length history)%nat then tail history else history |}.

(** [loadLevel], with the history it resets and the one call of
    [saveGameState] that the program makes. *)
Definition loadLevel_with_history (ld : LevelData) : option Session :=
  gm ← loadLevel ld;
  Some (saveGameState {| game := gm; gameHistory := [] |}).

(** [this.level.guards.forEach((guard, index) => ...)] of [undo]; a saved
    array that is too short gives [undefined] and a thrown [TypeError]. *)
Fixpoint restore_guards (gs saved : list Guard) : option (list Guard) :=
  match gs with
  | [] => Some []
  | guard :: gs' =>
      savedGuard ← head saved;
      rest ← restore_guards gs' (tail saved);
      Some ({| g_id := g_id guard; g_pos := g_pos savedGuard;
               hearingRadius := hearingRadius guard; memory := memory savedGuard;
               targetPos := None |} :: rest)
  end.

Fixpoint restore_targets (ts saved : list Target) : option (list Target) :=
  match ts with
  | [] => Some []
  | target :: ts' =>
      savedTarget ← head saved;
      rest ← restore_targets ts' (tail saved);
      Some (set_destroyed target (destroyed savedTarget) :: rest)
  end.

(** [undo()]; [None] is a thrown [TypeError]. *)
Definition undo (s : Session) : option Session :=
  if (length (gameHistory s) <=? 1)%nat then Some s
  else
    let history := removelast (gameHistory s) in
    previousState ← last history;
    gs ← restore_guards (guards (level (game s))) (sn_guards previousState);
    ts ← restore_targets (targets (level (game s))) (sn_targets previousState);
    Some {| game := {| level := with_targets (with_guards (level (game s)) gs) ts;
                       bombs := sn_bombs previousState;
                       turnIndex := sn_turnIndex previousState;
                       gameState := sn_gameState previousState;
                       bombIdCounter := bombIdCounter (game s) |};
            gameHistory := history |}.

(** What the player does. *)
Inductive Input :=
  | Click (clickPos : Vec)
  | EndTurn
  | Undo.

Definition handle (s : Session) (i : Input) : option Session :=
  match i with
  | Click clickPos =>
      Some {| game := handleCanvasClick (game s) clickPos; gameHistory := gameHistory s |}
  | EndTurn =>
      gm ← endTurn (game s);
      Some {| game := gm; gameHistory := gameHistory s |}
  | Undo => undo s
  end.

Fixpoint run (s : Session) (inputs : list Input) : option Session :=
  match inputs with
  | [] => Some s
  | i :: inputs' => s' ← handle s i; run s' inputs'
  end.

(** What holds of the bombs of every game that play can reach. *)
Record bombs_ok (gm : Game) : Prop := {
  bo_ids : NoDup (b_id <$> bombs gm);
  bo_fresh : Forall (fun b => b_id b < bombIdCounter gm) (bombs gm);
  bo_state : Forall (fun b => b_state b = TICKING) (bombs gm);
  bo_timer : Forall (fun b => hasTimer b = timersAllowed (config (level gm))
                              /\ if hasTimer b then 1 <= timer b <= 3 else timer b = 1)
                    (bombs gm);
  bo_turn : Forall (fun b => turnPlaced b <= turnIndex gm) (bombs gm);
  bo_cap : forall m, maxActiveBombs (config (level gm)) = Some m ->
                     Z.of_nat (length (bombs gm)) <= Z.max 0 m;
  bo_turncap : bombsThisTurn gm <= Z.max 0 (maxBombsPerTurn (config (level gm)));
  bo_cells : timersAllowed (config (level gm)) = true -> NoDup (b_pos <$> bombs gm)
}.

(** What play keeps of the level that was loaded. *)
Definition level_kept (l0 l : Level) : Prop :=
  config l = config l0 /\ grid l = grid l0
  /\ g_id <$> guards l = g_id <$> guards l0
  /\ hearingRadius <$> guards l = hearingRadius <$> guards l0
  /\ t_id <$> targets l = t_id <$> targets l0
  /\ t_pos <$> targets l = t_pos <$> targets l0.

Definition session_ok (l0 : Level) (s : Session) : Prop :=
  playable (game s) = true
  /\ bombs_ok (game s)
  /\ level_kept l0 (level (game s))
  /\ length (gameHistory s) = 1%nat.

(** A level with timers: a corridor of four Floor cells, one guard at its
    west end, one target at its east end. *)
Definition timer_level : LevelData :=
  {| ld_config := {| cd_gridSize := Some 4; cd_blastRange := None;
                     cd_defaultHearingRadius := None; cd_memoryTTL := None;
                     cd_maxBombsPerTurn := Some 2; cd_maxActiveBombs := Some 3;
                     cd_timersAllowed := Some true |};
     ld_grid := Arr [Arr [0; 0; 0; 0]]; ld_layout := NoString; ld_bounds := None;
     ld_targets := Arr [Some (mkTargetData 3 0)];
     ld_guards := Arr [Some (mkGuardData 0 0 None)] |}.

(** Two clicks on the cell [(2,0)] (the second one cycles the timer of the
    bomb placed by the first), the end of the turn, and an undo. *)
Definition timer_inputs : list Input :=
  [Click (mkVec 2 0); Click (mkVec 2 0); EndTurn; Undo].

(** The guard at [(0,0)] stays put while the guard at [(1,0)] proposes the
    free cell [(2,0)]. *)
Definition advance_proposals : list (Z * Vec) := [(0, mkVec 0 0); (1, mkVec 2 0)].

(** One guard at the west end of a corridor of eight cells, a target at
    its east end, and a bomb placed at [(6,0)]. *)
Definition lone_level : LevelData :=
  corridor [0; 0; 0; 0; 0; 0; 0; 0] [mkTargetData 7 0] [mkGuardData 0 0 None].

Definition lone_game : option Game :=
  gm ← loadLevel lone_level;
  Some (snd (placeBomb gm (mkVec 6 0))).

(** ** The level editor

    The state of the [LevelEditor] class and the methods that change it or
    read it: [initializeGrid], [paint] with the [remove...] helpers,
    [validateLevel], [exportLevel], [testLevel] and [importLevel].  The
    values that the methods read from the form of the page are parameters;
    they are taken to be numbers ([parseInt] succeeds). *)

Inductive EditorTool :=
  | TOOL_FLOOR | TOOL_WALL | TOOL_VOID | TOOL_GUARD | TOOL_TARGET | TOOL_ERASE.

(** A target of the editor: [{id, x, y}]. *)
Record ETarget := mkETarget { et_id : Z; et_x : Z; et_y : Z }.

Record LevelEditor := mkLevelEditor {
  ed_gridSize : Z;
  ed_grid : list (list Z);
  ed_guards : list Editor.EGuard;
  ed_targets : list ETarget;
  guardIdCounter : Z;
  targetIdCounter : Z
}.

(** [array[i]] for a number [i] that may be negative: [None] is
    [undefined]. *)
Definition js_index {A : Type} (xs : list A) (i : Z) : option A :=
  if i <? 0 then None else xs !! Z.to_nat i.

(** [initializeGrid()]: a square of [VOID]; the entities are cleared. *)
Definition initializeGrid (ed : LevelEditor) : LevelEditor :=
  {| ed_gridSize := ed_gridSize ed;
     ed_grid := replicate (Z.to_nat (ed_gridSize ed))
                          (replicate (Z.to_nat (ed_gridSize ed)) Tile.VOID);
     ed_guards := []; ed_targets := [];
     guardIdCounter := 0; targetIdCounter := 0 |}.

(** [this.gridSize = size; this.updateGridSize()] *)
Definition updateGridSize (size : Z) (ed : LevelEditor) : LevelEditor :=
  initializeGrid {| ed_gridSize := size; ed_grid := ed_grid ed;
                    ed_guards := ed_guards ed; ed_targets := ed_targets ed;
                    guardIdCounter := guardIdCounter ed;
                    targetIdCounter := targetIdCounter ed |}.

(** The editor as its constructor leaves it. *)
Definition new_LevelEditor : LevelEditor :=
  updateGridSize 24 {| ed_gridSize := 24; ed_grid := []; ed_guards := []; ed_targets := [];
                       guardIdCounter := 0; targetIdCounter := 0 |}.

Definition isValidGridPos (ed : LevelEditor) (pos : Vec) : bool :=
  (0 <=? vx pos) && (vx pos <? ed_gridSize ed) && (0 <=? vy pos) && (vy pos <? ed_gridSize ed).

Definition removeGuardAt (pos : Vec) (gs : list Editor.EGuard) : list Editor.EGuard :=
  remove_first (fun guard => (Editor.e_x guard =? vx pos) && (Editor.e_y guard =? vy pos)) gs.

Definition removeTargetAt (pos : Vec) (ts : list ETarget) : list ETarget :=
  remove_first (fun target => (et_x target =? vx pos) && (et_y target =? vy pos)) ts.

Definition removeEntitiesAt (pos : Vec) (ed : LevelEditor) : LevelEditor :=
  {| ed_gridSize := ed_gridSize ed; ed_grid := ed_grid ed;
     ed_guards := removeGuardAt pos (ed_guards ed);
     ed_targets := removeTargetAt pos (ed_targets ed);
     guardIdCounter := guardIdCounter ed; targetIdCounter := targetIdCounter ed |}.

(** [this.grid[pos.y][pos.x] = tile].  [None] when the row is [undefined]
    (a thrown [TypeError]) and also when the index is not one that a list
    of tiles can take: beyond the end of the row JavaScript would lengthen
    the row and leave holes in it ([paint] only writes at in-bounds
    positions).  A write at the end of the row appends. *)
Definition set_tile (g : list (list Z)) (pos : Vec) (tile : Z) : option (list (list Z)) :=
  row ← js_index g (vy pos);
  if (vx pos <? 0) || (Z.of_nat (length row) <? vx pos) then None
  else Some (<[Z.to_nat (vy pos) :=
                take (Z.to_nat (vx pos)) row ++ tile :: drop (S (Z.to_nat (vx pos))) row]> g).

Definition with_grid (ed : LevelEditor) (g : list (list Z)) : LevelEditor :=
  {| ed_gridSize := ed_gridSize ed; ed_grid := g;
     ed_guards := ed_guards ed; ed_targets := ed_targets ed;
     guardIdCounter := guardIdCounter ed; targetIdCounter := targetIdCounter ed |}.

Definition paint_tile (ed : LevelEditor) (pos : Vec) (tile : Z) : option LevelEditor :=
  g ← set_tile (ed_grid ed) pos tile;
  Some (removeEntitiesAt pos (with_grid ed g)).

(** [this.grid[pos.y][pos.x] === Tile.FLOOR]; [None] is a thrown
    [TypeError]. *)
Definition on_floor (g : list (list Z)) (x y : Z) : option bool :=
  row ← js_index g y;
  Some (bool_decide (js_index row x = Some Tile.FLOOR)).

(** [paint(pos)] with the current tool and the hearing radius that the
    form shows. *)
Definition paint (tool : EditorTool) (radius : Z) (pos : Vec) (ed : LevelEditor)
    : option LevelEditor :=
  if negb (isValidGridPos ed pos) then Some ed
  else
    match tool with
    | TOOL_FLOOR => paint_tile ed pos Tile.FLOOR
    | TOOL_WALL => paint_tile ed pos Tile.WALL
    | TOOL_VOID => paint_tile ed pos Tile.VOID
    | TOOL_GUARD =>
        floor ← on_floor (ed_grid ed) (vx pos) (vy pos);
        if floor : bool then
          Some {| ed_gridSize := ed_gridSize ed; ed_grid := ed_grid ed;
                  ed_guards := removeGuardAt pos (ed_guards ed)
                               ++ [Editor.mkEGuard (guardIdCounter ed) (vx pos) (vy pos) radius];
                  ed_targets := ed_targets ed;
                  guardIdCounter := guardIdCounter ed + 1;
                  targetIdCounter := targetIdCounter ed |}
        else Some ed
    | TOOL_TARGET =>
        floor ← on_floor (ed_grid ed) (vx pos) (vy pos);
        if floor : bool then
          Some {| ed_gridSize := ed_gridSize ed; ed_grid := ed_grid ed;
                  ed_guards := ed_guards ed;
                  ed_targets := removeTargetAt pos (ed_targets ed)
                                ++ [mkETarget (targetIdCounter ed) (vx pos) (vy pos)];
                  guardIdCounter := guardIdCounter ed;
                  targetIdCounter := targetIdCounter ed + 1 |}
        else Some ed
    | TOOL_ERASE => Some (removeEntitiesAt pos ed)
    end.

(** [removeGuard(id)] and [removeTarget(id)], the buttons of the entity
    lists. *)
Definition removeGuard (id : Z) (ed : LevelEditor) : LevelEditor :=
  {| ed_gridSize := ed_gridSize ed; ed_grid := ed_grid ed;
     ed_guards := remove_first (fun guard => Editor.e_id guard =? id) (ed_guards ed);
     ed_targets := ed_targets ed;
     guardIdCounter := guardIdCounter ed; targetIdCounter := targetIdCounter ed |}.

Definition removeTarget (id : Z) (ed : LevelEditor) : LevelEditor :=
  {| ed_gridSize := ed_gridSize ed; ed_grid := ed_grid ed;
     ed_guards := ed_guards ed;
     ed_targets := remove_first (fun target => et_id target =? id) (ed_targets ed);
     guardIdCounter := guardIdCounter ed; targetIdCounter := targetIdCounter ed |}.

(** The messages of [validateLevel]. *)
Inductive LevelError :=
  | NoTarget
  | GuardOffFloor (x y : Z)
  | TargetOffFloor (x y : Z).

Fixpoint validate_guards (g : list (list Z)) (gs : list Editor.EGuard)
    : option (list LevelError) :=
  match gs with
  | [] => Some []
  | guard :: gs' =>
      floor ← on_floor g (Editor.e_x guard) (Editor.e_y guard);
      rest ← validate_guards g gs';
      Some ((if floor : bool then []
             else [GuardOffFloor (Editor.e_x guard) (Editor.e_y guard)]) ++ rest)
  end.

Fixpoint validate_targets (g : list (list Z)) (ts : list ETarget)
    : option (list LevelError) :=
  match ts with
  | [] => Some []
  | target :: ts' =>
      floor ← on_floor g (et_x target) (et_y target);
      rest ← validate_targets g ts';
      Some ((if floor : bool then []
             else [TargetOffFloor (et_x target) (et_y target)]) ++ rest)
  end.

(** [validateLevel()]: the list of errors; [None] is a thrown
    [TypeError]. *)
Definition validateLevel (ed : LevelEditor) : option (list LevelError) :=
  guardErrors ← validate_guards (ed_grid ed) (ed_guards ed);
  targetErrors ← validate_targets (ed_grid ed) (ed_targets ed);
  Some ((if bool_decide (ed_targets ed = []) then [NoTarget] else [])
        ++ guardErrors ++ targetErrors).

(** The form of the page.  A string is the list of its UTF-16 code
    units; only its being empty is ever tested. *)
Record Form := mkForm {
  levelId : list Z;
  levelName : list Z;
  f_timersAllowed : bool;
  f_blastRange : Z;
  f_maxActiveBombs : Z;
  f_maxBombsPerTurn : Z;
  f_defaultHearingRadius : Z
}.

(** A level file: the descriptor with its [id] and [name], and whether it
    has a [config] (a truthy value under that key; when it has none, the
    fields of [ld_config] are all absent). *)
Record LevelFile := mkLevelFile {
  lf_id : list Z;
  lf_name : list Z;
  lf_config : bool;
  lf_data : LevelData
}.

Definition exportTargets (ts : list ETarget) : list TargetData :=
  (fun target => mkTargetData (et_x target) (et_y target)) <$> ts.

(** [exportLevel()]: the descriptor that is serialised. *)
Definition exportLevel (form : Form) (ed : LevelEditor) : LevelFile :=
  {| lf_id := levelId form;
     lf_name := levelName form;
     lf_config := true;
     lf_data :=
       {| ld_config :=
            {| cd_gridSize := Some (ed_gridSize ed);
               cd_blastRange := Some (f_blastRange form);
               cd_defaultHearingRadius := Some (f_defaultHearingRadius form);
               cd_memoryTTL := Some 8;
               cd_maxBombsPerTurn := Some (f_maxBombsPerTurn form);
               cd_maxActiveBombs := Some (f_maxActiveBombs form);
               cd_timersAllowed := Some (f_timersAllowed form) |};
          ld_grid := Arr (Arr <$> ed_grid ed);
          ld_layout := NoString; ld_bounds := None;
          ld_targets := Arr (Some <$> exportTargets (ed_targets ed));
          ld_guards := Arr (Some <$> Editor.exportGuards (ed_guards ed)) |} |}.

(** [testLevel()]: the errors shown, or the level handed to the game. *)
Definition testLevel (form : Form) (ed : LevelEditor) : option (list LevelError + LevelFile) :=
  errors ← validateLevel ed;
  match errors with
  | [] => Some (inr (exportLevel form ed))
  | _ => Some (inl errors)
  end.

Definition importTargets (ts : list TargetData) : list ETarget :=
  imap (fun index target => mkETarget (Z.of_nat index) (td_x target) (td_y target)) ts.

(** The truthiness of a value found in the place of an array. *)
Definition truthy {A : Type} (v : MaybeArray A) : bool :=
  match v with
  | Nullish => false
  | Other t => t
  | Arr _ => true
  end.

(** The loops of [importLevel] over the rows of the file's grid: the grid
    that they reach, and whether they ran to their end.  A [null] row has
    no [length], and reading it throws; a row that is no array has [length]
    [undefined] and is passed over. *)
Fixpoint import_grid (size : Z) (y : nat) (data : list (MaybeArray Z))
    (g : list (list Z)) : list (list Z) * bool :=
  match data with
  | [] => (g, true)
  | drow :: data' =>
      if Z.of_nat y <? size then
        match drow with
        | Nullish => (g, false)
        | Other _ => import_grid size (S y) data' g
        | Arr cells =>
            if 0 <? Z.min (Z.of_nat (length cells)) size then
              match g !! y with
              | Some row => import_grid size (S y) data' (<[y := load_row size cells row]> g)
              | None => (g, false)
              end
            else import_grid size (S y) data' g
        end
      else (g, true)
  end.

(** [(value || []).map(...)]: a falsy value stands for no entry, a truthy
    value that is no array has no [map], and reading [x] of a [null] entry
    throws ([None]). *)
Definition import_entries {A : Type} (v : MaybeArray (option A)) : option (list A) :=
  match v with
  | Nullish | Other false => Some []
  | Other true => None
  | Arr items => mapM id items
  end.

(** How an import ends: with the message of success, with the error
    ['Invalid level format'], or with the message of an exception of the
    runtime. *)
Inductive ImportStatus := Imported | Invalid | Failed.

(** [importLevel(json)] on a parsed file: how it ends, and the editor that
    it leaves.  A file without [id], [name], [config] or [grid] is refused
    before anything is changed.  For any other file the editor is reset to
    the grid size of the file; an exception thrown from then on is caught,
    and the editor stays as the statements before it have left it. *)
Definition importLevel (file : LevelFile) (ed : LevelEditor) : ImportStatus * LevelEditor :=
  if bool_decide (lf_id file = []) || bool_decide (lf_name file = [])
     || negb (lf_config file) || negb (truthy (ld_grid (lf_data file)))
  then (Invalid, ed)
  else
    let size := js_or (cd_gridSize (ld_config (lf_data file))) 24 in
    let fresh := updateGridSize size ed in
    let loaded :=
      match ld_grid (lf_data file) with
      | Arr (row :: rows) => import_grid size 0 (row :: rows) (ed_grid fresh)
      | _ => (ed_grid fresh, true)
      end in
    if negb (snd loaded) then (Failed, with_grid fresh (fst loaded))
    else
      match import_entries (ld_guards (lf_data file)) with
      | None => (Failed, with_grid fresh (fst loaded))
      | Some guardData =>
          let gs := Editor.importGuards guardData in
          match import_entries (ld_targets (lf_data file)) with
          | None =>
              (Failed,
               {| ed_gridSize := size; ed_grid := fst loaded; ed_guards := gs;
                  ed_targets := [];
                  guardIdCounter := Z.of_nat (length gs); targetIdCounter := 0 |})
          | Some targetData =>
              let ts := importTargets targetData in
              (Imported,
               {| ed_gridSize := size; ed_grid := fst loaded; ed_guards := gs;
                  ed_targets := ts;
                  guardIdCounter := Z.of_nat (length gs);
                  targetIdCounter := Z.of_nat (length ts) |})
          end
      end.

(** A file that [importLevel] refuses. *)
Definition refused (file : LevelFile) : Prop :=
  lf_id file = [] \/ lf_name file = [] \/ lf_config file = false
  \/ ld_grid (lf_data file) = Nullish \/ ld_grid (lf_data file) = Other false.

(** The value is a truthy one that is no array, or an array with a [null]
    entry. *)
Definition import_entries_throw {A : Type} (v : MaybeArray (option A)) : Prop :=
  match v with
  | Arr items => None ∈ items
  | Other true => True
  | _ => False
  end.

(** Some row of the file's grid of an index below the grid size is
    [null]. *)
Definition null_row (file : LevelFile) : Prop :=
  exists (rows : list (MaybeArray Z)) (y : nat),
    ld_grid (lf_data file) = Arr rows
    /\ Z.of_nat y < js_or (cd_gridSize (ld_config (lf_data file))) 24
    /\ rows !! y = Some Nullish.

(** The tile that a descriptor gives to a cell: the cell [grid[y][x]] when
    the grid is an array; else the tile of the character at line [y -
    bounds.y] and column [x - bounds.x] of the layout; [VOID] where the
    descriptor has nothing. *)
Definition descriptor_tile (ld : LevelData) (pos : Vec) : Z :=
  match ld_grid ld with
  | Arr rows =>
      match rows !! Z.to_nat (vy pos) with
      | Some (Arr cells) => default Tile.VOID (cells !! Z.to_nat (vx pos))
      | _ => Tile.VOID
      end
  | _ =>
      match ld_layout ld with
      | Str layout =>
          let startX := match ld_bounds ld with Some b => vx b | None => 0 end in
          let startY := match ld_bounds ld with Some b => vy b | None => 0 end in
          default Tile.VOID
                  (line ← js_index (split LINE_FEED (trim layout)) (vy pos - startY);
                   char ← js_index line (vx pos - startX);
                   Some (tile_of_char char))
      | _ => Tile.VOID
      end
  end.

(** The cell [(x, y)] of a grid. *)
Definition cell_of (g : list (list Z)) (x y : nat) : option Z :=
  row ← g !! y; row !! x.

(** A layout of two lines, [#.] and [G], placed one column to the right
    and one row down. *)
Definition layout_level : LevelData :=
  {| ld_config := corridor_config 3;
     ld_grid := Nullish; ld_layout := Str [10; 35; 46; 10; 71; 32];
     ld_bounds := Some (mkVec 1 1);
     ld_targets := Arr []; ld_guards := Arr [] |}.

(** A file whose second row is [null], and a file whose [guards] is a
    number. *)
Definition broken_grid_file : LevelFile :=
  {| lf_id := [108]; lf_name := [76]; lf_config := true;
     lf_data := {| ld_config := corridor_config 2;
                   ld_grid := Arr [Arr [0; 0]; Nullish];
                   ld_layout := NoString; ld_bounds := None;
                   ld_targets := Arr []; ld_guards := Arr [] |} |}.

Definition broken_guards_file : LevelFile :=
  {| lf_id := [108]; lf_name := [76]; lf_config := true;
     lf_data := {| ld_config := corridor_config 2;
                   ld_grid := Arr [Arr [0; 0]];
                   ld_layout := NoString; ld_bounds := None;
                   ld_targets := Arr []; ld_guards := Other true |} |}.

(** What the mouse and the entity lists do to a level. *)
Inductive Edit :=
  | Paint (tool : EditorTool) (radius : Z) (pos : Vec)
  | RemoveGuard (id : Z)
  | RemoveTarget (id : Z)
  | Resize (size : Z)
  | ClearLevel.

Definition edit (ed : LevelEditor) (e : Edit) : option LevelEditor :=
  match e with
  | Paint tool radius pos => paint tool radius pos ed
  | RemoveGuard id => Some (removeGuard id ed)
  | RemoveTarget id => Some (removeTarget id ed)
  | Resize size => Some (updateGridSize size ed)
  | ClearLevel => Some (initializeGrid ed)
  end.

Fixpoint edits (ed : LevelEditor) (es : list Edit) : option LevelEditor :=
  match es with
  | [] => Some ed
  | e :: es' => ed' ← edit ed e; edits ed' es'
  end.

(** The grid of the editor is a square of side [gridSize]. *)
Definition ed_square (ed : LevelEditor) : Prop :=
  square (Z.to_nat (ed_gridSize ed)) (ed_grid ed).

(** Every guard and target stands on an in-bounds Floor cell, no two
    guards share a cell, and no two targets do. *)
Record entities_ok (ed : LevelEditor) : Prop := {
  eo_guards : Forall (fun guard =>
                on_floor (ed_grid ed) (Editor.e_x guard) (Editor.e_y guard) = Some true)
              (ed_guards ed);
  eo_targets : Forall (fun target =>
                 on_floor (ed_grid ed) (et_x target) (et_y target) = Some true)
               (ed_targets ed);
  eo_guard_cells : NoDup ((fun guard => mkVec (Editor.e_x guard) (Editor.e_y guard))
                          <$> ed_guards ed);
  eo_target_cells : NoDup ((fun target => mkVec (et_x target) (et_y target))
                           <$> ed_targets ed);
  eo_guard_ids : NoDup (Editor.e_id <$> ed_guards ed)
                 /\ Forall (fun guard => Editor.e_id guard < guardIdCounter ed) (ed_guards ed);
  eo_target_ids : NoDup (et_id <$> ed_targets ed)
                  /\ Forall (fun target => et_id target < targetIdCounter ed) (ed_targets ed)
}.

(** A small level drawn from scratch: three Floor cells in the top row, a
    guard on the first and a target on the third. *)
Definition drawn_edits : list Edit :=
  [Paint TOOL_FLOOR 8 (mkVec 0 0); Paint TOOL_FLOOR 8 (mkVec 1 0);
   Paint TOOL_FLOOR 8 (mkVec 2 0); Paint TOOL_GUARD 8 (mkVec 0 0);
   Paint TOOL_TARGET 8 (mkVec 2 0)].

Definition plain_form : Form :=
  {| levelId := [108; 49]; levelName := [76; 49];
     f_timersAllowed := false; f_blastRange := 3; f_maxActiveBombs := 4;
     f_maxBombsPerTurn := 1; f_defaultHearingRadius := 8 |}.

(** A descriptor of grid size 65 with 65 rows of one Floor cell. *)
Definition oversized_level : LevelData :=
  {| ld_config := corridor_config 65;
     ld_grid := Arr (replicate 65 (Arr [Tile.FLOOR]));
     ld_layout := NoString; ld_bounds := None;
     ld_targets := Arr []; ld_guards := Arr [] |}.

(** The cell [k] steps from [p] in the direction [dir]. *)
Definition along (p dir : Vec) (k : Z) : Vec :=
  mkVec (vx p + k * vx dir) (vy p + k * vy dir).

(** Evaluates the state that an equation [E : _ = Some gm] names. *)
Ltac concrete E := vm_compute in E; injection E as <-.

(** * Theorems *)

Lemma equals_eq (a b : Vec) : equals a b = true <-> a = b.
Proof.
  destruct a, b; unfold equals; simpl.
  rewrite andb_true_iff, !Z.eqb_eq. split; [intros [-> ->] | intros [= -> ->]]; done.
Qed.

Lemma equals_refl (a : Vec) : equals a a = true.
Proof. by apply equals_eq. Qed.

(** ** The grid of a loaded level *)

Lemma elem_of_cells (l : Level) (v : Vec) :
  v ∈ cells l <-> isValidPosition l v = true.
Proof.
  unfold isValidPosition, cells. destruct v as [x y]; simpl.
  rewrite !andb_true_iff, !Z.leb_le, !Z.ltb_lt, list_elem_of_bind. split.
  - intros (x' & (y' & [= -> ->]%list_elem_of_singleton & Hy%elem_of_seqZ)%list_elem_of_bind
              & Hx%elem_of_seqZ). lia.
  - intros [[[? ?] ?] ?]. exists x. split; [|apply elem_of_seqZ; lia].
    apply list_elem_of_bind. exists y. split; [left | apply elem_of_seqZ; lia].
Qed.

Lemma grid_complete_spec (l : Level) :
  grid_complete l = true <->
  forall pos, isValidPosition l pos = true -> is_Some (tileAt l pos).
Proof.
  unfold grid_complete. rewrite forallb_forall. split.
  - intros H pos Hv. eapply bool_decide_eq_true, H, list_elem_of_In, elem_of_cells, Hv.
  - intros H pos Hin. apply bool_decide_eq_true, H, elem_of_cells, list_elem_of_In, Hin.
Qed.

Lemma square_tile (l : Level) (side : nat) :
  square side (grid l) -> gridSize (config l) <= Z.of_nat side -> grid_complete l = true.
Proof.
  intros [Hlen Hrows] Hside. apply grid_complete_spec. intros [x y] Hv.
  unfold isValidPosition in Hv. simpl in Hv.
  rewrite !andb_true_iff, !Z.leb_le, !Z.ltb_lt in Hv.
  unfold tileAt. simpl.
  destruct (lookup_lt_is_Some_2 (grid l) (Z.to_nat y)) as [row Hrow]; [lia|].
  rewrite Hrow. simpl. apply lookup_lt_is_Some_2.
  rewrite Forall_forall in Hrows.
  rewrite (Hrows row) by (by eapply list_elem_of_lookup_2). lia.
Qed.

Lemma createEmptyGrid_square (c : Config) :
  square (Z.to_nat (Z.min (js_or (Some (gridSize c)) (gridSize DEFAULT_CONFIG)) MAX_GRID_SIZE))
         (createEmptyGrid c).
Proof.
  unfold createEmptyGrid. split; [apply length_replicate|].
  apply Forall_replicate, length_replicate.
Qed.

Lemma load_row_length (size : Z) (drow row : list Z) :
  size <= Z.of_nat (length row) -> length (load_row size drow row) = length row.
Proof.
  intros Hsize. unfold load_row.
  rewrite length_app, length_take, length_drop. lia.
Qed.

Lemma load_grid_square (size : Z) (side : nat) (data : list (MaybeArray Z)) :
  size <= Z.of_nat side ->
  forall (y : nat) (g g' : list (list Z)),
    square side g ->
    load_grid size y data g = Some g' -> square side g'.
Proof.
  intros Hsize. induction data as [|drow data IH]; intros y g g' Hsq; simpl.
  { by intros [= <-]. }
  destruct (Z.of_nat y <? size) eqn:Hy; [|by intros [= <-]].
  apply Z.ltb_lt in Hy.
  destruct drow as [|truthy|cells]; [done | by apply IH |].
  destruct (0 <? Z.min _ size); [|by apply IH].
  destruct Hsq as [Hlen Hrows].
  destruct (g !! y) as [row|] eqn:Hrow; [|done].
  apply IH. split; [by rewrite length_insert|].
  apply Forall_insert; [done|].
  rewrite Forall_forall in Hrows.
  rewrite load_row_length; rewrite (Hrows row) by (by eapply list_elem_of_lookup_2); lia.
Qed.

Lemma set_cell_length (row : list Z) (x tile : Z) :
  x < Z.of_nat (length row) -> length (set_cell row x tile) = length row.
Proof.
  intros Hx. unfold set_cell. destruct (x <? 0); [done|].
  replace (x <? Z.of_nat (length row)) with true by (symmetry; apply Z.ltb_lt; lia).
  apply length_insert.
Qed.

Lemma layout_line_square (size : Z) (side : nat) (y : Z) (line : list Z) :
  size <= Z.of_nat side ->
  forall (x : Z) (g g' : list (list Z)),
    square side g ->
    layout_line size x y line g = Some g' -> square side g'.
Proof.
  intros Hsize. induction line as [|char line IH]; intros x g g' Hsq; simpl.
  { by intros [= <-]. }
  destruct ((size <=? x) || (size <=? y)) eqn:Hskip; [by apply IH|].
  apply orb_false_iff in Hskip as [Hx%Z.leb_gt Hy%Z.leb_gt].
  destruct (y <? 0); [done|].
  destruct (g !! Z.to_nat y) as [row|] eqn:Hrow; [|done].
  apply IH. destruct Hsq as [Hlen Hrows]. split; [by rewrite length_insert|].
  apply Forall_insert; [done|].
  rewrite Forall_forall in Hrows.
  rewrite set_cell_length; rewrite (Hrows row) by (by eapply list_elem_of_lookup_2); lia.
Qed.

Lemma layout_lines_square (size : Z) (side : nat) (startX : Z) (lines : list (list Z)) :
  size <= Z.of_nat side ->
  forall (y : Z) (g g' : list (list Z)),
    square side g ->
    layout_lines size startX y lines g = Some g' -> square side g'.
Proof.
  intros Hsize. induction lines as [|line lines IH]; intros y g g' Hsq; simpl.
  { by intros [= <-]. }
  destruct (layout_line size startX y line g) as [g1|] eqn:H1; [|done]. simpl.
  apply IH. by eapply layout_line_square.
Qed.

Lemma initialize_grid_square (c : Config) (ld : LevelData) (side : nat)
    (g g' : list (list Z)) :
  gridSize c <= Z.of_nat side ->
  square side g ->
  initialize_grid c ld g = Some g' -> square side g'.
Proof.
  intros Hsize Hsq. unfold initialize_grid, parseASCIILayout.
  assert (Hlayout : match ld_layout ld with
                    | Str (char :: s) =>
                        layout_lines (gridSize c)
                          match ld_bounds ld with Some b => vx b | None => 0 end
                          match ld_bounds ld with Some b => vy b | None => 0 end
                          (split LINE_FEED (trim (char :: s))) g
                    | Str [] | NoString => Some g
                    | NotString => None
                    end = Some g' -> square side g').
  { destruct (ld_layout ld) as [| |[|char s]]; try (by intros [= <-]).
    by apply layout_lines_square. }
  destruct (ld_grid ld) as [|truthy|data]; [done | done |].
  by apply load_grid_square.
Qed.

(** What [new Level] returns: the merged configuration, the initialised
    grid and the entities of the descriptor, none of which is [null]. *)
Lemma new_Level_Some (ld : LevelData) (l : Level) :
  new_Level ld = Some l ->
  exists g ts gs,
    initialize_grid (merge_config DEFAULT_CONFIG (ld_config ld)) ld
                    (createEmptyGrid (merge_config DEFAULT_CONFIG (ld_config ld))) = Some g
    /\ entries (ld_targets ld) = Some ts
    /\ entries (ld_guards ld) = Some gs
    /\ l = {| config := merge_config DEFAULT_CONFIG (ld_config ld); grid := g;
              targets := add_targets ts;
              guards := add_guards (merge_config DEFAULT_CONFIG (ld_config ld)) gs |}.
Proof.
  unfold new_Level. intros Hl.
  destruct (initialize_grid _ _ _) as [g|]; [|done].
  destruct (entries (ld_targets ld)) as [ts|]; [|done].
  destruct (entries (ld_guards ld)) as [gs|]; [|done].
  simpl in Hl. injection Hl as <-. by exists g, ts, gs.
Qed.

(** A level loaded with a grid size of at most 64 stores every in-bounds
    cell. *)
Lemma new_Level_grid_complete (ld : LevelData) (l : Level) :
  new_Level ld = Some l ->
  gridSize (config l) <= MAX_GRID_SIZE ->
  grid_complete l = true.
Proof.
  intros (g & ts & gs & Hg & _ & _ & ->)%new_Level_Some. cbn [config].
  set (c := merge_config DEFAULT_CONFIG (ld_config ld)) in *. intros Hsize.
  set (side := Z.to_nat (Z.min (js_or (Some (gridSize c)) (gridSize DEFAULT_CONFIG))
                               MAX_GRID_SIZE)).
  assert (Hc : gridSize c <= Z.of_nat side).
  { unfold side, MAX_GRID_SIZE, js_or in *. change (gridSize DEFAULT_CONFIG) with 32.
    destruct (gridSize c); lia. }
  apply (square_tile _ side); [|done]. cbn [grid].
  eapply initialize_grid_square; [exact Hc | apply createEmptyGrid_square | exact Hg].
Qed.

(** ** Movement *)

(** C1 (the code departs from the claim).  Two guards in file on distinct
    Floor cells, both walking east towards a bomb: after [simulateTurn] the
    rear guard has stepped onto the cell of the front guard, which was held
    back, and both stand on [(1,0)]. *)
Theorem simulateTurn_guards_overlap :
  exists gm gm',
    file_game = Some gm
    /\ positions (guards (level gm)) = [mkVec 1 0; mkVec 0 0]
    /\ forallb (isPassable (level gm)) (positions (guards (level gm))) = true
    /\ simulateTurn gm = Some gm'
    /\ positions (guards (level gm')) = [mkVec 1 0; mkVec 1 0]
    /\ gameState gm' = PLAYING.
Proof. eexists _, _. repeat split; vm_compute; reflexivity. Qed.

(** C2 (the code departs from the claim).  The arbitration depends on the
    order of iteration.  The same two guards with the same two proposals, a
    swap, entered into the proposal map in the two possible orders: the
    guard with id 1 ends on [(0,0)] in one order and stays on [(1,0)] in the
    other.  And the two guards walking in file, listed in the level in the
    two possible orders: the guard that starts on [(1,0)] is held there in
    one order and advances to [(2,0)] in the other. *)
Theorem resolveMovementConflicts_order_dependent :
  (positions <$> resolveMovementConflicts swap_guards swap_proposals)
    = Some [mkVec 0 0; mkVec 0 0]
  /\ (positions <$> resolveMovementConflicts swap_guards swap_proposals_rev)
    = Some [mkVec 0 0; mkVec 1 0]
  /\ swap_proposals ≡ₚ swap_proposals_rev
  /\ ((fun gm => positions (guards (level gm))) <$> (file_game ≫= simulateTurn))
    = Some [mkVec 1 0; mkVec 1 0]
  /\ ((fun gm => positions (guards (level gm))) <$> (file_game_rev ≫= simulateTurn))
    = Some [mkVec 1 0; mkVec 2 0].
Proof.
  split; [vm_compute; reflexivity|]. split; [vm_compute; reflexivity|].
  split; [apply Permutation_swap|].
  split; vm_compute; reflexivity.
Qed.

(** ** Bomb placement *)

Lemma canPlaceBomb_spec (l : Level) (pos : Vec) :
  canPlaceBomb l pos
  = isPassable l pos && negb (isOccupiedByTarget l pos) && negb (isOccupiedByGuard l pos).
Proof.
  unfold canPlaceBomb, isPassable.
  destruct (isValidPosition l pos); simpl; [|done].
  destruct (bool_decide _); simpl; [|done].
  destruct (isOccupiedByTarget l pos); simpl; [done|].
  by destruct (isOccupiedByGuard l pos).
Qed.

Lemma ge_limit_true (n : Z) (limit : option Z) :
  ge_limit n limit = true <-> exists m, limit = Some m /\ m <= n.
Proof.
  destruct limit as [m|]; simpl.
  - rewrite Z.leb_le. split; [eauto | by intros (? & [= <-] & ?)].
  - split; [done | by intros (? & ? & ?)].
Qed.

(** C6, as the code has it.  On a level whose grid stores every in-bounds
    cell, [placeBomb] rejects, leaving the game as it was, exactly when the
    cell is not an in-bounds Floor cell, or holds an undestroyed target or a
    guard, or [maxActiveBombs] is configured and reached, or this turn's
    placements have reached [maxBombsPerTurn]; a bomb already on the cell is
    no reason.  Otherwise it appends exactly one bomb, at that cell, and
    changes nothing else but the id counter. *)
Theorem placeBomb_rejects_iff (gm : Game) (pos : Vec) :
  grid_complete (level gm) = true ->
  (fst (placeBomb gm pos) = false <-> tested_rejection gm pos)
  /\ (fst (placeBomb gm pos) = false -> snd (placeBomb gm pos) = gm)
  /\ (fst (placeBomb gm pos) = true ->
      exists bomb,
        b_pos bomb = pos /\ b_state bomb = TICKING /\ turnPlaced bomb = turnIndex gm
        /\ bombs (snd (placeBomb gm pos)) = bombs gm ++ [bomb]
        /\ level (snd (placeBomb gm pos)) = level gm
        /\ turnIndex (snd (placeBomb gm pos)) = turnIndex gm
        /\ gameState (snd (placeBomb gm pos)) = gameState gm).
Proof.
  intros _. unfold placeBomb, tested_rejection.
  rewrite canPlaceBomb_spec.
  destruct (isPassable (level gm) pos) eqn:Hp; simpl;
    [|split; [split; [auto | done] | split; [done | discriminate]]].
  destruct (isOccupiedByTarget (level gm) pos) eqn:Ht; simpl;
    [split; [split; [auto | done] | split; [done | discriminate]]|].
  destruct (isOccupiedByGuard (level gm) pos) eqn:Hg; simpl;
    [split; [split; [auto | done] | split; [done | discriminate]]|].
  destruct (ge_limit _ _) eqn:Hl.
  { apply ge_limit_true in Hl.
    split; [split; [auto 6 | done] | split; [done | discriminate]]. }
  destruct (_ <=? bombsThisTurn gm) eqn:Hn; simpl.
  { apply Z.leb_le in Hn.
    split; [split; [auto 6 | done] | split; [done | discriminate]]. }
  apply Z.leb_gt in Hn.
  split; [split; [discriminate|] | split; [discriminate|]].
  - intros [? | [? | [? | [Hm | ?]]]]; try discriminate; try lia.
    apply ge_limit_true in Hm. congruence.
  - intros _. eexists. repeat split; reflexivity.
Qed.

(** C6, an instance: on the level without an active-bomb cap a cell
    outside the grid is rejected and the game is left as it was. *)
Lemma placeBomb_rejects_iff_witness :
  exists gm,
    loadLevel uncapped_level = Some gm
    /\ fst (placeBomb gm (mkVec 9 9)) = false
    /\ snd (placeBomb gm (mkVec 9 9)) = gm.
Proof.
  assert (E : exists gm, loadLevel uncapped_level = Some gm) by (vm_compute; eauto).
  destruct E as [gm E]. exists gm. split; [exact E|].
  vm_compute in E. injection E as <-.
  split; [reflexivity|].
  apply placeBomb_rejects_iff; reflexivity.
Defined.

(** C6, the claim as stated fails: a cell that already holds a bomb is
    accepted for a second one. *)
Lemma placeBomb_on_bomb_accepted :
  exists gm,
    stack_game = Some gm
    /\ occupiedByBomb gm (mkVec 1 0)
    /\ fst (placeBomb gm (mkVec 1 0)) = true
    /\ ~ (fst (placeBomb gm (mkVec 1 0)) = false <-> claimed_rejection gm (mkVec 1 0)).
Proof.
  assert (E : exists gm, stack_game = Some gm) by (vm_compute; eauto).
  destruct E as [gm E]. exists gm. split; [exact E|].
  vm_compute in E. injection E as <-.
  assert (Hb : forall l c, occupiedByBomb
    {| level := l; bombs := [new_Bomb 0 (mkVec 1 0) false 0]; turnIndex := 0;
       gameState := PLAYING; bombIdCounter := c |} (mkVec 1 0)).
  { intros l c. apply Exists_cons_hd. reflexivity. }
  split; [apply Hb|]. split; [vm_compute; reflexivity|].
  intros [_ H].
  assert (Hc : fst (placeBomb
    {| level := {| config := {| gridSize := 3; blastRange := 3; defaultHearingRadius := 8;
                                memoryTTL := 8; maxBombsPerTurn := 2;
                                maxActiveBombs := Some 4; timersAllowed := false |};
                   grid := [[0; 0; 0]; [2; 2; 2]; [2; 2; 2]];
                   targets := []; guards := [] |};
       bombs := [new_Bomb 0 (mkVec 1 0) false 0]; turnIndex := 0;
       gameState := PLAYING; bombIdCounter := 1 |} (mkVec 1 0)) = false).
  { apply H. right; right; right; left. apply Hb. }
  vm_compute in Hc. discriminate.
Qed.

(** C9.  A level loaded from a descriptor without [maxActiveBombs] has no
    active-bomb cap: in every later state of that level (its grid storing
    every in-bounds cell), whatever the number of live bombs, [placeBomb]
    accepts exactly when the cell is placeable and this turn's placements
    are below [maxBombsPerTurn]. *)
Theorem placeBomb_without_maxActiveBombs (ld : LevelData) (gm0 gm : Game) (pos : Vec) :
  cd_maxActiveBombs (ld_config ld) = None ->
  loadLevel ld = Some gm0 ->
  config (level gm) = config (level gm0) ->
  grid_complete (level gm) = true ->
  maxActiveBombs (config (level gm)) = None
  /\ (fst (placeBomb gm pos) = true <->
      canPlaceBomb (level gm) pos = true
      /\ bombsThisTurn gm < maxBombsPerTurn (config (level gm))).
Proof.
  intros Hnone Hload Hcfg _.
  assert (Hm : maxActiveBombs (config (level gm)) = None).
  { rewrite Hcfg. unfold loadLevel in Hload.
    destruct (new_Level ld) as [l|] eqn:Hl; [|done].
    apply new_Level_Some in Hl as (g & ts & gs & _ & _ & _ & ->).
    simpl in Hload. injection Hload as <-. simpl. by rewrite Hnone. }
  split; [exact Hm|].
  unfold placeBomb. rewrite Hm. simpl.
  destruct (canPlaceBomb (level gm) pos); simpl; [|split; [done | by intros [? _]]].
  destruct (_ <=? bombsThisTurn gm) eqn:Hn; simpl.
  - apply Z.leb_le in Hn. split; [done | intros [_ ?]; lia].
  - apply Z.leb_gt in Hn. done.
Qed.

(** C9, an instance: with two bombs live and no cap configured, a third
    placement in the same turn is accepted. *)
Lemma placeBomb_without_maxActiveBombs_witness :
  exists gm0 gm,
    loadLevel uncapped_level = Some gm0
    /\ gm = snd (placeBomb (snd (placeBomb gm0 (mkVec 0 0))) (mkVec 1 0))
    /\ length (bombs gm) = 2%nat
    /\ fst (placeBomb gm (mkVec 2 0)) = true.
Proof.
  eexists _, _. split; [vm_compute; reflexivity|]. split; [reflexivity|].
  split; [vm_compute; reflexivity|].
  eapply (placeBomb_without_maxActiveBombs uncapped_level);
    [reflexivity | vm_compute; reflexivity | reflexivity | vm_compute; reflexivity |].
  split; [vm_compute; reflexivity | vm_compute; reflexivity].
Defined.

(** ** Loading a level *)

Lemma load_grid_Some (size : Z) (rows : list (list Z)) :
  forall (y : nat) (g : list (list Z)),
    size <= Z.of_nat (length g) ->
    exists g', load_grid size y (Arr <$> rows) g = Some g' /\ length g' = length g.
Proof.
  induction rows as [|drow rows IH]; intros y g Hlen; [simpl; eauto|].
  rewrite fmap_cons. cbn [load_grid].
  destruct (Z.of_nat y <? size) eqn:Hy; [|eauto].
  apply Z.ltb_lt in Hy.
  destruct (0 <? Z.min _ size); [|by apply IH].
  destruct (lookup_lt_is_Some_2 g y) as [row ->]; [lia|].
  destruct (IH (S y) (<[y:=load_row size drow row]> g)) as (g' & -> & Hg').
  - rewrite length_insert. lia.
  - exists g'. by rewrite Hg', length_insert.
Qed.

Lemma load_grid_length (size : Z) (data : list (MaybeArray Z)) :
  forall (y : nat) (g g' : list (list Z)),
    load_grid size y data g = Some g' -> length g' = length g.
Proof.
  induction data as [|drow data IH]; intros y g g'; simpl; [by intros [= <-]|].
  destruct (Z.of_nat y <? size); [|by intros [= <-]].
  destruct drow as [|truthy|cells]; [done | by apply IH |].
  destruct (0 <? Z.min _ size); [|by apply IH].
  destruct (g !! y) as [row|]; [|done].
  intros H%IH. by rewrite length_insert in H.
Qed.

(** The loop over the rows throws exactly at a [null] row or at a
    non-empty row for which the grid has no row. *)
Lemma load_grid_None (size : Z) (data : list (MaybeArray Z)) :
  forall (y0 : nat) (g : list (list Z)),
    load_grid size y0 data g = None <->
    exists k : nat,
      Z.of_nat (y0 + k) < size
      /\ (data !! k = Some Nullish
          \/ exists cells, data !! k = Some (Arr cells) /\ cells <> []
                           /\ (length g <= y0 + k)%nat).
Proof.
  induction data as [|drow data IH]; intros y0 g; simpl.
  { split; [done | by intros (k & _ & [? | (? & ? & _)])]. }
  assert (Hshift : forall g1 : list (list Z), length g1 = length g ->
            (exists k : nat,
               Z.of_nat (S y0 + k) < size
               /\ (data !! k = Some Nullish
                   \/ exists cells, data !! k = Some (Arr cells) /\ cells <> []
                                    /\ (length g1 <= S y0 + k)%nat))
            <-> (exists k : nat,
                   Z.of_nat (y0 + S k) < size
                   /\ ((drow :: data) !! S k = Some Nullish
                       \/ exists cells, (drow :: data) !! S k = Some (Arr cells)
                                        /\ cells <> [] /\ (length g <= y0 + S k)%nat))).
  { intros g1 Hg1. rewrite Hg1.
    split; intros (k & Hk & H); exists k; (split; [lia|]); simpl in *;
      (destruct H as [H | (cells & H & Hne & Hlen)];
       [by left | right; exists cells; repeat split; [done | done | lia]]). }
  assert (Hcons : forall P : nat -> Prop,
            (exists k, P k) <-> P 0%nat \/ exists k, P (S k)).
  { intros P. split.
    - intros [[|k] H]; eauto.
    - intros [H | [k H]]; eauto. }
  rewrite Hcons. rewrite <- (Hshift g eq_refl).
  destruct (Z.of_nat y0 <? size) eqn:Hy0.
  - apply Z.ltb_lt in Hy0. replace (y0 + 0)%nat with y0 by lia. simpl.
    destruct drow as [|truthy|cells].
    + split; [|done]. intros _. left. split; [lia | by left].
    + rewrite IH. split; [by right|].
      intros [(_ & [? | (? & ? & _)]) | H]; [done | done | exact H].
    + destruct (0 <? Z.min (Z.of_nat (length cells)) size) eqn:Hn.
      * apply Z.ltb_lt in Hn.
        destruct (g !! y0) as [row|] eqn:Hrow.
        -- rewrite IH. rewrite (Hshift (<[y0:=load_row size cells row]> g))
             by apply length_insert.
           rewrite <- (Hshift g eq_refl).
           split; [by right|].
           intros [(_ & [? | (cells' & He & _ & Hlen)]) | H]; [done | | exact H].
           apply lookup_lt_Some in Hrow. lia.
        -- split; [|done]. intros _. left. split; [lia|]. right.
           exists cells. split; [done|]. split; [intros ->; simpl in Hn; lia|].
           by apply lookup_ge_None.
      * apply Z.ltb_ge in Hn. rewrite IH. split; [by right|].
        intros [(_ & [? | (cells' & He & Hne & _)]) | H]; [done | | exact H].
        injection He as <-. destruct cells; [done|]. simpl in Hn. lia.
  - apply Z.ltb_ge in Hy0. split; [done|].
    intros [(? & _) | (k & ? & _)]; lia.
Qed.

Lemma layout_line_length (size y : Z) (line : list Z) :
  forall (x : Z) (g g' : list (list Z)),
    layout_line size x y line g = Some g' -> length g' = length g.
Proof.
  induction line as [|char line IH]; intros x g g'; simpl; [by intros [= <-]|].
  destruct ((size <=? x) || (size <=? y)); [by apply IH|].
  destruct (y <? 0); [done|].
  destruct (g !! Z.to_nat y) as [row|]; [|done].
  intros H%IH. by rewrite length_insert in H.
Qed.

(** A line of the layout throws exactly when one of its characters is
    written and the grid has no row [y]. *)
Lemma layout_line_None (size y : Z) (line : list Z) :
  forall (x : Z) (g : list (list Z)),
    layout_line size x y line g = None <->
    (exists col : nat, (col < length line)%nat /\ x + Z.of_nat col < size)
    /\ y < size /\ (y < 0 \/ Z.of_nat (length g) <= y).
Proof.
  induction line as [|char line IH]; intros x g; simpl.
  { split; [done | intros [(col & ? & _) _]; lia]. }
  assert (Hcons : (exists col : nat, (col < S (length line))%nat /\ x + Z.of_nat col < size)
                  <-> x < size
                      \/ exists col : nat, (col < length line)%nat
                                           /\ x + 1 + Z.of_nat col < size).
  { split.
    - intros ([|col] & Hc & Hx); [left; lia | right; exists col; lia].
    - intros [Hx | (col & Hc & Hx)]; [exists 0%nat; lia | exists (S col); lia]. }
  rewrite Hcons.
  destruct ((size <=? x) || (size <=? y)) eqn:Hskip.
  - rewrite IH. apply orb_true_iff in Hskip as [Hx%Z.leb_le | Hy%Z.leb_le].
    + split; [intros (? & ? & ?); auto|].
      intros ([? | (col & Hc & ?)] & ? & ?); [lia|]. split; [|done]. exists col. lia.
    + split; intros (_ & ? & _); lia.
  - apply orb_false_iff in Hskip as [Hx%Z.leb_gt Hy%Z.leb_gt].
    destruct (y <? 0) eqn:Hneg.
    + apply Z.ltb_lt in Hneg. split; [|done]. intros _. auto.
    + apply Z.ltb_ge in Hneg.
      destruct (g !! Z.to_nat y) as [row|] eqn:Hrow.
      * rewrite IH, length_insert. apply lookup_lt_Some in Hrow.
        split; intros (_ & _ & [? | ?]); lia.
      * apply lookup_ge_None in Hrow. split; [|done]. intros _.
        split; [auto|]. split; [done|]. right. lia.
Qed.

Lemma layout_lines_length (size startX : Z) (lines : list (list Z)) :
  forall (y : Z) (g g' : list (list Z)),
    layout_lines size startX y lines g = Some g' -> length g' = length g.
Proof.
  induction lines as [|line lines IH]; intros y g g'; simpl; [by intros [= <-]|].
  destruct (layout_line size startX y line g) as [g1|] eqn:H1; [|done]. simpl.
  intros ->%IH. by eapply layout_line_length.
Qed.

Lemma layout_lines_None (size startX : Z) (lines : list (list Z)) :
  forall (y : Z) (g : list (list Z)),
    layout_lines size startX y lines g = None <->
    exists (row col : nat) (line : list Z),
      lines !! row = Some line /\ (col < length line)%nat
      /\ startX + Z.of_nat col < size
      /\ y + Z.of_nat row < size
      /\ (y + Z.of_nat row < 0 \/ Z.of_nat (length g) <= y + Z.of_nat row).
Proof.
  induction lines as [|line lines IH]; intros y g; simpl.
  { split; [done | by intros (row & col & l & ? & _)]. }
  destruct (layout_line size startX y line g) as [g1|] eqn:H1; simpl.
  - rewrite IH, (layout_line_length _ _ _ _ _ _ H1).
    assert (Hnot : ~ ((exists col : nat, (col < length line)%nat
                                         /\ startX + Z.of_nat col < size)
                      /\ y < size /\ (y < 0 \/ Z.of_nat (length g) <= y))).
    { rewrite <- layout_line_None. by rewrite H1. }
    split.
    + intros (row & col & l & Hl & Hc & Hx & Hy & Hrow).
      exists (S row), col, l. simpl. repeat split; [done | done | done | lia | lia].
    + intros ([|row] & col & l & Hl & Hc & Hx & Hy & Hrow); simpl in Hl.
      * injection Hl as <-. destruct Hnot. split; [by exists col|].
        replace (y + Z.of_nat 0) with y in * by lia. done.
      * exists row, col, l. repeat split; [done | done | done | lia | lia].
  - apply layout_line_None in H1 as ((col & Hc & Hx) & Hy & Hrow).
    split; [|done]. intros _. exists 0%nat, col, line. simpl.
    repeat split; [done | done | lia | lia].
Qed.

Lemma createEmptyGrid_rows (c : Config) (y : Z) :
  no_row c y <-> y < 0 \/ Z.of_nat (length (createEmptyGrid c)) <= y.
Proof.
  unfold no_row, createEmptyGrid. rewrite length_replicate. lia.
Qed.

Lemma initialize_grid_None (c : Config) (ld : LevelData) :
  initialize_grid c ld (createEmptyGrid c) = None <-> grid_throws c ld.
Proof.
  unfold initialize_grid, grid_throws.
  assert (Hlayout :
    match ld_layout ld with
    | Str (char :: s) => parseASCIILayout c (ld_bounds ld) (char :: s) (createEmptyGrid c)
    | Str [] | NoString => Some (createEmptyGrid c)
    | NotString => None
    end = None
    <-> match ld_layout ld with
        | NotString => True
        | Str layout => layout <> [] /\ bad_layout_cell c (ld_bounds ld) layout
        | NoString => False
        end).
  { destruct (ld_layout ld) as [| |[|char s]]; [done | done | split; [done | by intros [? _]] |].
    unfold parseASCIILayout, bad_layout_cell. rewrite layout_lines_None.
    split.
    - intros (row & col & line & ? & ? & ? & ? & ?). split; [done|].
      exists row, col, line. by rewrite createEmptyGrid_rows.
    - intros (_ & row & col & line & ? & ? & ? & ? & ?).
      exists row, col, line. by rewrite <- createEmptyGrid_rows. }
  destruct (ld_grid ld) as [|truthy|rows]; [done | done |].
  rewrite load_grid_None. unfold bad_grid_row. simpl.
  split; intros (y & Hy & H); exists y; (split; [done|]);
    (destruct H as [H | (cells & H & Hne & Hlen)];
     [by left | right; exists cells; split; [done|]; split; [done|]]).
  - apply createEmptyGrid_rows. lia.
  - apply createEmptyGrid_rows in Hlen. lia.
Qed.

Lemma entries_None {A : Type} (v : MaybeArray (option A)) :
  entries v = None <-> entries_throw v.
Proof.
  destruct v as [|truthy|items]; simpl; [by split | by split |].
  induction items as [|[x|] items IH]; simpl.
  - split; [done | by intros ?%elem_of_nil].
  - destruct (mapM id items) as [xs|]; simpl.
    + split; [done|]. intros [? | H]%elem_of_cons; [done|]. by apply IH in H.
    + split; [|done]. intros _. right. by apply IH.
  - split; [|done]. intros _. left.
Qed.

Lemma entries_Some {A : Type} (v : MaybeArray (option A)) (xs : list A) :
  entries v = Some xs <-> v = Arr (Some <$> xs).
Proof.
  destruct v as [|truthy|items]; simpl; [done | done |].
  revert xs. induction items as [|[x|] items IH]; intros xs; simpl.
  - split; [by intros [= <-] | by destruct xs].
  - destruct (mapM id items) as [ys|] eqn:E; simpl.
    + split.
      * intros [= <-]. by pose proof (proj1 (IH ys) eq_refl) as [= ->].
      * destruct xs as [|x' xs]; [done|]. simpl. intros [= -> Hitems].
        apply (f_equal Arr), IH in Hitems. by injection Hitems as ->.
    + split; [done|]. destruct xs as [|x' xs]; [done|]. simpl. intros [= -> Hitems].
      apply (f_equal Arr), IH in Hitems. congruence.
  - split; [done|]. by destruct xs.
Qed.

Lemma createEmptyGrid_length (c : Config) :
  gridSize c <= MAX_GRID_SIZE -> gridSize c <= Z.of_nat (length (createEmptyGrid c)).
Proof.
  unfold createEmptyGrid, MAX_GRID_SIZE. rewrite length_replicate. simpl.
  destruct (gridSize c) eqn:E; simpl; lia.
Qed.

Lemma add_guards_positions (c : Config) (gs : list GuardData) :
  positions (add_guards c gs) = guard_cell <$> gs.
Proof.
  unfold positions, add_guards. apply list_eq. intros j.
  rewrite list_lookup_fmap, list_lookup_imap, list_lookup_fmap.
  by destruct (gs !! j).
Qed.

Lemma add_targets_positions (ts : list TargetData) :
  t_pos <$> add_targets ts = target_cell <$> ts.
Proof.
  unfold add_targets. apply list_eq. intros j.
  rewrite list_lookup_fmap, list_lookup_imap, list_lookup_fmap.
  by destruct (ts !! j).
Qed.




(** ** Hearing radius of zero *)

Lemma js_or_zero (d : Z) : js_or (Some 0) d = d.
Proof. reflexivity. Qed.

(** C10.  A guard entry with [hearingRadius: 0] is loaded with the level's
    configured default radius, and the editor's import gives the same entry
    the radius 8; an export followed by an import turns every radius 0 of
    the editor's guards into 8 and keeps every other radius. *)
Theorem zero_hearingRadius_is_replaced
    (ld : LevelData) (l : Level) (gds : list GuardData) (i : nat) (gd : GuardData) :
  new_Level ld = Some l ->
  ld_guards ld = Arr (Some <$> gds) ->
  gds !! i = Some gd ->
  gd_hearingRadius gd = Some 0 ->
  (exists guard, guards l !! i = Some guard
                 /\ g_pos guard = guard_cell gd
                 /\ hearingRadius guard = defaultHearingRadius (config l))
  /\ (exists eg, Editor.importGuards gds !! i = Some eg
                 /\ Editor.e_hearingRadius eg = 8)
  /\ (forall egs : list Editor.EGuard,
        Editor.e_hearingRadius <$> Editor.importGuards (Editor.exportGuards egs)
        = (fun eg => if Editor.e_hearingRadius eg =? 0 then 8
                     else Editor.e_hearingRadius eg) <$> egs).
Proof.
  intros Hl Hgs Hi H0. split; [|split].
  - apply new_Level_Some in Hl as (g & ts & gs & _ & _ & Hgs' & ->).
    apply entries_Some in Hgs'. rewrite Hgs in Hgs'. injection Hgs' as Hgs'.
    apply (inj (fmap Some)) in Hgs'. subst gs. simpl.
    eexists. unfold add_guards. rewrite list_lookup_imap, Hi. simpl.
    split; [reflexivity|]. by rewrite H0.
  - eexists. unfold Editor.importGuards. rewrite list_lookup_imap, Hi. simpl.
    split; [reflexivity|]. by rewrite H0.
  - intros egs. unfold Editor.importGuards, Editor.exportGuards.
    apply list_eq. intros j.
    rewrite list_lookup_fmap, list_lookup_imap, !list_lookup_fmap.
    destruct (egs !! j) as [eg|]; simpl; [|done].
    by destruct (Editor.e_hearingRadius eg).
Qed.

(** C10, an instance: with a configured default of 5, the guard entered
    with radius 0 hears to distance 5. *)
Lemma zero_hearingRadius_is_replaced_witness :
  exists l guard,
    new_Level zero_radius_level = Some l
    /\ guards l !! 0%nat = Some guard
    /\ hearingRadius guard = 5.
Proof.
  assert (E : exists l, new_Level zero_radius_level = Some l) by (vm_compute; eauto).
  destruct E as [l E]. 
  destruct (zero_hearingRadius_is_replaced zero_radius_level l
              [mkGuardData 0 0 (Some 0)] 0 (mkGuardData 0 0 (Some 0)) E
              eq_refl eq_refl eq_refl) as ((guard & Hg & _ & Hr) & _).
  exists l, guard. split; [exact E|]. split; [exact Hg|].
  rewrite Hr. vm_compute in E. injection E as <-. reflexivity.
Defined.

(** ** Blast *)

Lemma within_radius_spec (dx dy r : Z) :
  within_radius dx dy r = true <-> 0 <= r /\ dx * dx + dy * dy <= r * r.
Proof. unfold within_radius. rewrite andb_true_iff, !Z.leb_le. done. Qed.

Lemma disc_in_square (a b r : Z) :
  0 <= r -> a * a + b * b <= r * r -> - r <= a <= r /\ - r <= b <= r.
Proof.
  intros Hr H.
  assert (Ha : 0 <= a * a) by nia. assert (Hb : 0 <= b * b) by nia.
  assert (a * a <= r * r) by lia. assert (b * b <= r * r) by lia.
  repeat split.
  - destruct (Z_lt_le_dec a (- r)); [nia | lia].
  - destruct (Z_lt_le_dec r a); [nia | lia].
  - destruct (Z_lt_le_dec b (- r)); [nia | lia].
  - destruct (Z_lt_le_dec r b); [nia | lia].
Qed.

Lemma hasLineOfSight_spec (l : Level) (start end_ : Vec) :
  hasLineOfSight l start end_ = true <->
  forall i, 1 <= i < Z.max (Z.abs (vx end_ - vx start)) (Z.abs (vy end_ - vy start)) ->
            isWall l (sample start end_ i) = false.
Proof.
  unfold hasLineOfSight.
  destruct ((vx end_ - vx start =? 0) && (vy end_ - vy start =? 0)) eqn:E.
  - apply andb_true_iff in E as [?%Z.eqb_eq ?%Z.eqb_eq]. split; [|done]. lia.
  - rewrite forallb_forall. split.
    + intros H i Hi. apply negb_true_iff, H, list_elem_of_In, elem_of_seqZ. lia.
    + intros H i Hi%list_elem_of_In%elem_of_seqZ. apply negb_true_iff, H. lia.
Qed.

Lemma elem_of_calculateCircularBlast (l : Level) (bombPos pos : Vec) (radius : Z) :
  pos ∈ calculateCircularBlast l bombPos radius <->
  within_radius (vx pos - vx bombPos) (vy pos - vy bombPos) radius = true
  /\ isValidPosition l pos = true
  /\ hasLineOfSight l bombPos pos = true.
Proof.
  unfold calculateCircularBlast. rewrite list_elem_of_bind. split.
  - intros (x & (y & Hpos & Hy)%list_elem_of_bind & Hx).
    destruct (_ && _ && _) eqn:E in Hpos; [|by apply elem_of_nil in Hpos].
    apply list_elem_of_singleton in Hpos as ->. simpl.
    by apply andb_true_iff in E as [[? ?]%andb_true_iff ?].
  - intros (Hr & Hv & Hlos). destruct pos as [x y]; simpl in *.
    apply within_radius_spec in Hr as Hr'.
    destruct Hr' as [Hr0 Hr'].
    apply disc_in_square in Hr' as [? ?]; [|done].
    exists x. split.
    + apply list_elem_of_bind. exists y. split.
      * rewrite Hr, Hv, Hlos. simpl. apply list_elem_of_singleton. reflexivity.
      * apply elem_of_seqZ. lia.
    + apply elem_of_seqZ. lia.
Qed.

(** C3, as the code has it.  The blast of a bomb is the disc of radius
    [max(1, blastRange - 1)] around it, cut to the grid and to the cells in
    line of sight: a cell of any terrain belongs to it exactly when its
    Euclidean distance from the bomb is at most that radius, it lies in
    bounds, and no in-bounds Wall sits on a sampled point strictly between
    the bomb and the cell.  (Stated for a grid that stores every in-bounds
    cell and for [blastRange <= 22], where the sampled points are exactly
    those of the program.) *)
Theorem calculateBlastTiles_is_disc (l : Level) (bombPos pos : Vec) :
  grid_complete l = true ->
  blastRange (config l) <= 22 ->
  pos ∈ calculateBlastTiles l bombPos <->
  (vx pos - vx bombPos) ^ 2 + (vy pos - vy bombPos) ^ 2
    <= Z.max 1 (blastRange (config l) - 1) ^ 2
  /\ isValidPosition l pos = true
  /\ forall i, 1 <= i < Z.max (Z.abs (vx pos - vx bombPos)) (Z.abs (vy pos - vy bombPos)) ->
               isWall l (sample bombPos pos i) = false.
Proof.
  intros _ _. unfold calculateBlastTiles.
  rewrite elem_of_calculateCircularBlast, within_radius_spec, hasLineOfSight_spec.
  rewrite !Z.pow_2_r. split.
  - intros [[_ ?] ?]. done.
  - intros [? ?]. split; [split; [lia | done] | done].
Qed.

(** C3, an instance: the diagonal neighbour of a bomb in the middle of a
    room of Floor cells is in its blast. *)
Lemma calculateBlastTiles_is_disc_witness :
  exists l,
    new_Level room_level = Some l
    /\ mkVec 1 1 ∈ calculateBlastTiles l (mkVec 2 2).
Proof.
  assert (E : exists l, new_Level room_level = Some l) by (vm_compute; eauto).
  destruct E as [l E]. exists l. split; [exact E|].
  vm_compute in E. injection E as <-.
  apply calculateBlastTiles_is_disc; [vm_compute; reflexivity | vm_compute; discriminate|].
  split; [vm_compute; discriminate|]. split; [reflexivity|].
  simpl. intros i Hi. lia.
Defined.

(** C3, the claim as stated fails: in a room of Floor cells the blast of
    a bomb with [blastRange = 3] holds the diagonal neighbour [(1,1)] of the
    bomb at [(2,2)], which is on none of the four rays, and it stops two
    cells from the bomb where the rays go on to the third. *)
Lemma blast_is_not_the_cross :
  exists l,
    new_Level room_level = Some l
    /\ blastRange (config l) = 3
    /\ mkVec 1 1 ∈ calculateBlastTiles l (mkVec 2 2)
    /\ (mkVec 1 1 ∉ orthogonalCross l (mkVec 2 2) (blastRange (config l)))
    /\ ~ (forall p, p ∈ calculateBlastTiles l (mkVec 2 2)
                    <-> p ∈ orthogonalCross l (mkVec 2 2) (blastRange (config l))).
Proof.
  assert (E : exists l, new_Level room_level = Some l) by (vm_compute; eauto).
  destruct E as [l E]. exists l. split; [exact E|].
  vm_compute in E. injection E as <-.
  split; [reflexivity|].
  assert (Hin : mkVec 1 1 ∈ calculateBlastTiles
            {| config := merge_config DEFAULT_CONFIG (ld_config room_level);
               grid := replicate 5 (replicate 5 Tile.FLOOR);
               targets := []; guards := [] |} (mkVec 2 2)).
  { apply (bool_decide_unpack _). vm_compute. exact I. }
  assert (Hout : mkVec 1 1 ∉ orthogonalCross
            {| config := merge_config DEFAULT_CONFIG (ld_config room_level);
               grid := replicate 5 (replicate 5 Tile.FLOOR);
               targets := []; guards := [] |} (mkVec 2 2) 3).
  { apply (bool_decide_unpack _). vm_compute. exact I. }
  split; [exact Hin|]. split; [exact Hout|].
  intros H. apply Hout, H, Hin.
Qed.

(** C8, as the code has it.  On the corridor [F F F F F] laid along the
    top row of a grid of side 5, with [blastRange = 3], the blast of a bomb
    at [x = 2] covers the corridor cells [x = 0..4]; with a Wall at [x = 3]
    it covers the corridor cells [x = 0..3] (the Wall cell itself is hit,
    the cell behind it is not).  In both cases the blast also holds the four
    in-bounds cells off the corridor that lie within the radius 2. *)
Theorem corridor_blast :
  exists l lw,
    new_Level corridor5 = Some l
    /\ new_Level corridor5_wall = Some lw
    /\ blastRange (config l) = 3 /\ blastRange (config lw) = 3
    /\ calculateBlastTiles l (mkVec 2 0)
       = [mkVec 0 0; mkVec 1 0; mkVec 1 1; mkVec 2 0; mkVec 2 1; mkVec 2 2;
          mkVec 3 0; mkVec 3 1; mkVec 4 0]
    /\ calculateBlastTiles lw (mkVec 2 0)
       = [mkVec 0 0; mkVec 1 0; mkVec 1 1; mkVec 2 0; mkVec 2 1; mkVec 2 2;
          mkVec 3 0; mkVec 3 1]
    /\ (forall x, mkVec x 0 ∈ calculateBlastTiles l (mkVec 2 0) <-> 0 <= x <= 4)
    /\ (forall x, mkVec x 0 ∈ calculateBlastTiles lw (mkVec 2 0) <-> 0 <= x <= 3).
Proof.
  assert (E : exists l, new_Level corridor5 = Some l) by (vm_compute; eauto).
  assert (Ew : exists l, new_Level corridor5_wall = Some l) by (vm_compute; eauto).
  destruct E as [l E], Ew as [lw Ew]. exists l, lw.
  split; [exact E|]. split; [exact Ew|].
  vm_compute in E, Ew. injection E as <-. injection Ew as <-.
  split; [reflexivity|]. split; [reflexivity|].
  match goal with
  | |- ?a = ?b /\ _ => assert (H1 : a = b) by (vm_compute; reflexivity)
  end.
  split; [exact H1|].
  match goal with
  | |- ?a = ?b /\ _ => assert (H2 : a = b) by (vm_compute; reflexivity)
  end.
  split; [exact H2|].
  rewrite H1, H2. split; intros x; rewrite !elem_of_cons, elem_of_nil; split.
  - intros H. repeat (destruct H as [H | H]); try (injection H; intros; lia). destruct H.
  - intros Hx.
    assert (x = 0 \/ x = 1 \/ x = 2 \/ x = 3 \/ x = 4)
      as [-> | [-> | [-> | [-> | ->]]]] by lia; auto 10.
  - intros H. repeat (destruct H as [H | H]); try (injection H; intros; lia). destruct H.
  - intros Hx.
    assert (x = 0 \/ x = 1 \/ x = 2 \/ x = 3) as [-> | [-> | [-> | ->]]] by lia; auto 10.
Qed.

(** C8, the claim as stated fails: the blast on the open corridor is not
    the set of corridor cells, it also reaches the Void cell [(2,1)] beside
    the bomb. *)
Lemma corridor_blast_leaves_corridor :
  exists l,
    new_Level corridor5 = Some l
    /\ mkVec 2 1 ∈ calculateBlastTiles l (mkVec 2 0)
    /\ tileAt l (mkVec 2 1) = Some Tile.VOID
    /\ ~ (forall p, p ∈ calculateBlastTiles l (mkVec 2 0) <-> p ∈ corridor_cells).
Proof.
  assert (E : exists l, new_Level corridor5 = Some l) by (vm_compute; eauto).
  destruct E as [l E]. exists l. split; [exact E|].
  vm_compute in E. injection E as <-.
  assert (Hin : mkVec 2 1 ∈ calculateBlastTiles
            {| config := merge_config DEFAULT_CONFIG (ld_config corridor5);
               grid := [0; 0; 0; 0; 0] :: replicate 4 (replicate 5 Tile.VOID);
               targets := []; guards := [] |} (mkVec 2 0)).
  { apply (bool_decide_unpack _). vm_compute. exact I. }
  split; [exact Hin|]. split; [reflexivity|].
  intros H. apply H in Hin. revert Hin. apply (bool_decide_unpack _). vm_compute. exact I.
Qed.

(** ** Sorting *)

Section SortFacts.
Context {A : Type} (cmp : A -> A -> Z).

Lemma js_insert_perm (x : A) (l : list A) : js_insert cmp x l ≡ₚ x :: l.
Proof.
  induction l as [|y l IH]; simpl; [done|].
  destruct (cmp x y <=? 0); [done|].
  rewrite IH. apply Permutation_swap.
Qed.

Lemma js_sort_perm (l : list A) : js_sort cmp l ≡ₚ l.
Proof.
  induction l as [|x l IH]; simpl; [done|].
  by rewrite js_insert_perm, IH.
Qed.

Hypothesis cmp_total : forall a b, cmp a b <= 0 \/ cmp b a <= 0.
Hypothesis cmp_trans : forall a b c, cmp a b <= 0 -> cmp b c <= 0 -> cmp a c <= 0.

Lemma js_insert_head (x : A) (l : list A) (h : A) (t : list A) :
  (forall h' t', l = h' :: t' -> Forall (fun y => cmp h' y <= 0) t') ->
  js_insert cmp x l = h :: t -> Forall (fun y => cmp h y <= 0) t.
Proof.
  destruct l as [|y l]; simpl.
  - intros _ [= <- <-]. constructor.
  - intros Hl. specialize (Hl y l eq_refl).
    destruct (cmp x y <=? 0) eqn:E.
    + apply Z.leb_le in E. intros [= <- <-]. constructor; [done|].
      eapply Forall_impl; [exact Hl|]. intros z Hz. by eapply cmp_trans.
    + apply Z.leb_gt in E. intros [= <- <-].
      rewrite js_insert_perm. constructor; [|done].
      destruct (cmp_total x y); lia.
Qed.

Lemma js_sort_head (l : list A) (h : A) (t : list A) :
  js_sort cmp l = h :: t -> Forall (fun y => cmp h y <= 0) t.
Proof.
  revert h t. induction l as [|x l IH]; simpl; [done|].
  intros h t. apply js_insert_head. intros h' t' E. by apply IH.
Qed.

(** The head of the sorted array is an element that no element precedes. *)
Lemma js_sort_first (l : list A) (h : A) (t : list A) :
  js_sort cmp l = h :: t ->
  h ∈ l /\ l ≡ₚ h :: t /\ forall y, y ∈ l -> cmp h y <= 0.
Proof.
  intros E. pose proof (js_sort_perm l) as Hp. rewrite E in Hp.
  split; [rewrite <- Hp; left|]. split; [done|].
  intros y Hy. rewrite <- Hp in Hy. apply elem_of_cons in Hy as [-> | Hy].
  - destruct (cmp_total h h); done.
  - apply js_sort_head in E.
    rewrite Forall_forall in E. by apply E.
Qed.

Lemma js_sort_nil (l : list A) : js_sort cmp l = [] -> l = [].
Proof.
  intros E. pose proof (js_sort_perm l) as Hp. rewrite E in Hp.
  by apply Permutation_nil_l in Hp.
Qed.
End SortFacts.

(** ** Pathfinding: geometry *)

Lemma adjacent_directions (u v : Vec) :
  adjacent u v <-> exists d, d ∈ directions /\ v = vadd u d.
Proof.
  unfold adjacent, manhattanDistance, directions, vadd. destruct u as [ux uy], v as [x y]; simpl.
  split.
  - intros H.
    assert ((x = ux /\ y = uy - 1) \/ (x = ux + 1 /\ y = uy)
            \/ (x = ux /\ y = uy + 1) \/ (x = ux - 1 /\ y = uy)) as Hc by lia.
    destruct Hc as [[-> ->] | [[-> ->] | [[-> ->] | [-> ->]]]].
    + exists (mkVec 0 (-1)). split; [set_solver|]. simpl. f_equal; lia.
    + exists (mkVec 1 0). split; [set_solver|]. simpl. f_equal; lia.
    + exists (mkVec 0 1). split; [set_solver|]. simpl. f_equal; lia.
    + exists (mkVec (-1) 0). split; [set_solver|]. simpl. f_equal; lia.
  - intros (d & Hd & [= -> ->]).
    rewrite !elem_of_cons, elem_of_nil in Hd.
    destruct Hd as [-> | [-> | [-> | [-> | []]]]]; simpl; lia.
Qed.

Lemma adjacent_heuristic (target u v : Vec) :
  adjacent u v -> manhattanDistance u target <= manhattanDistance v target + 1.
Proof. unfold adjacent, manhattanDistance. lia. Qed.

Lemma path_heuristic (l : Level) (target a b : Vec) (n : nat) :
  path l a b n -> manhattanDistance a target <= Z.of_nat n + manhattanDistance b target.
Proof.
  induction 1 as [|b c n _ IH Hadj _]; [lia|].
  apply (adjacent_heuristic target) in Hadj. lia.
Qed.

Lemma path_cell (l : Level) (a b : Vec) (n : nat) :
  path l a b n -> b = a \/ isPassable l b = true.
Proof. destruct 1; auto. Qed.

Lemma path_app (l : Level) (a b c : Vec) (n m : nat) :
  path l a b n -> path l b c m -> path l a c (n + m).
Proof.
  intros Hab. induction 1 as [|c d m _ IH Hadj Hp].
  - by rewrite Nat.add_0_r.
  - rewrite Nat.add_succ_r. by eapply path_step.
Qed.

Lemma shortest_unique (l : Level) (a b : Vec) (n m : nat) :
  shortest l a b n -> shortest l a b m -> n = m.
Proof. intros [Hn Hn'] [Hm Hm']. apply Hn' in Hm. apply Hm' in Hn. lia. Qed.

(** ** Pathfinding: the open list *)

Lemma elem_of_remove_first {A : Type} (p : A -> bool) (l : list A) (x : A) :
  x ∈ remove_first p l -> x ∈ l.
Proof.
  induction l as [|y l IH]; simpl; [done|].
  destruct (p y); [by right|].
  intros [-> | ?]%elem_of_cons; [left | right; auto].
Qed.

Lemma elem_of_remove_first_other {A : Type} (p : A -> bool) (l : list A) (x : A) :
  p x = false -> x ∈ l -> x ∈ remove_first p l.
Proof.
  intros Hx. induction l as [|y l IH]; simpl; [done|].
  intros [-> | ?]%elem_of_cons.
  - rewrite Hx. left.
  - destruct (p y); [done|]. right. auto.
Qed.

Lemma remove_first_sublist {A : Type} (p : A -> bool) (l : list A) :
  remove_first p l `sublist_of` l.
Proof.
  induction l as [|y l IH]; simpl; [done|].
  destruct (p y); [by apply sublist_cons | by apply sublist_skip].
Qed.

Lemma remove_first_pos (v : Vec) (openSet : list Pathfinder.Node) :
  NoDup (Pathfinder.pos <$> openSet) ->
  NoDup (Pathfinder.pos <$> remove_first (fun item => equals (Pathfinder.pos item) v) openSet)
  /\ v ∉ Pathfinder.pos <$> remove_first (fun item => equals (Pathfinder.pos item) v) openSet.
Proof.
  induction openSet as [|n openSet IH]; simpl.
  - intros _. split; [constructor | apply not_elem_of_nil].
  - intros [Hn Hnd]%NoDup_cons. destruct (equals (Pathfinder.pos n) v) eqn:E.
    + apply equals_eq in E. subst v. done.
    + destruct (IH Hnd) as [IH1 IH2]. simpl. split.
      * apply NoDup_cons. split; [|done].
        intros Hin. apply Hn.
        apply list_elem_of_fmap in Hin as (m & -> & Hm).
        apply list_elem_of_fmap. exists m. split; [done|].
        by eapply elem_of_remove_first.
      * intros [Hv | ?]%elem_of_cons; [|done].
        by rewrite Hv, equals_refl in E.
Qed.

(** ** Pathfinding: the comparator *)

Lemma compare_pos_le (target : Vec) (fa : Z) (pa : Vec) (fb : Z) (pb : Vec) :
  Pathfinder.compare_pos target fa pa fb pb <= 0 <->
  fa < fb \/ (fa = fb /\
    (manhattanDistance pa target < manhattanDistance pb target
     \/ (manhattanDistance pa target = manhattanDistance pb target /\
         (vy pa < vy pb \/ (vy pa = vy pb /\ vx pa <= vx pb))))).
Proof.
  unfold Pathfinder.compare_pos.
  destruct (fa =? fb) eqn:E1; simpl; [apply Z.eqb_eq in E1 | apply Z.eqb_neq in E1; lia].
  destruct (_ =? manhattanDistance pb target) eqn:E2; simpl;
    [apply Z.eqb_eq in E2 | apply Z.eqb_neq in E2; lia].
  destruct (vy pa =? vy pb) eqn:E3; simpl;
    [apply Z.eqb_eq in E3 | apply Z.eqb_neq in E3]; lia.
Qed.

Lemma compare_total (target : Vec) (a b : Pathfinder.Node) :
  Pathfinder.compare target a b <= 0 \/ Pathfinder.compare target b a <= 0.
Proof. unfold Pathfinder.compare. rewrite !compare_pos_le. lia. Qed.

Lemma compare_trans (target : Vec) (a b c : Pathfinder.Node) :
  Pathfinder.compare target a b <= 0 -> Pathfinder.compare target b c <= 0 ->
  Pathfinder.compare target a c <= 0.
Proof. unfold Pathfinder.compare. rewrite !compare_pos_le. lia. Qed.

Lemma compare_f (target : Vec) (a b : Pathfinder.Node) :
  Pathfinder.compare target a b <= 0 -> Pathfinder.f a <= Pathfinder.f b.
Proof. unfold Pathfinder.compare. rewrite compare_pos_le. lia. Qed.

(** ** Pathfinding: one node expansion *)

Section Expansion.
Import Pathfinder.
Variables (l : Level) (start target : Vec) (current : Node) (closedSet : gset Vec).
Hypothesis current_g : 0 <= g current.
Hypothesis current_path : path l start (pos current) (Z.to_nat (g current)).

Lemma gScore_get_Finite (gScore : gmap Vec Z) (v : Vec) (gv : Z) :
  gScore !! v = Some gv -> 1 <= gv -> gScore_get gScore v = Finite gv.
Proof. unfold gScore_get. intros -> ?. destruct gv; [lia|done..]. Qed.

Lemma reached_mono (openSet openSet' : list Node) (closed : gset Vec) (v : Vec) (b : Z) :
  (forall n, n ∈ openSet -> exists n', n' ∈ openSet' /\ pos n' = pos n /\ g n' <= g n) ->
  reached openSet closed v b -> reached openSet' closed v b.
Proof.
  intros Hmono [? | (n & Hn & Hv & Hb)]; [by left|].
  destruct (Hmono n Hn) as (n' & ? & ? & ?).
  right. exists n'. split; [done|]. split; [congruence | lia].
Qed.

Lemma relax_inv_done (seen : list Vec) (openSet : list Node) (gScore : gmap Vec Z)
    (dir : Vec) :
  relax_inv l start target current closedSet seen openSet gScore ->
  (isPassable l (vadd (pos current) dir) = true ->
   reached openSet ({[pos current]} ∪ closedSet) (vadd (pos current) dir) (g current + 1)) ->
  relax_inv l start target current closedSet (dir :: seen) openSet gScore.
Proof.
  intros [] Hdir. constructor; try done.
  intros dir' [-> | ?]%elem_of_cons; auto.
Qed.

Lemma relax_step (seen : list Vec) (openSet : list Node) (gScore : gmap Vec Z) (dir : Vec) :
  dir ∈ directions ->
  relax_inv l start target current closedSet seen openSet gScore ->
  relax_inv l start target current closedSet (dir :: seen)
    (fst (relax l target ({[pos current]} ∪ closedSet) current (openSet, gScore) dir))
    (snd (relax l target ({[pos current]} ∪ closedSet) current (openSet, gScore) dir)).
Proof.
  intros Hdir Hinv. unfold relax.
  set (v := vadd (pos current) dir).
  set (closed' := {[pos current]} ∪ closedSet).
  destruct (isPassable l v) eqn:Hp; simpl;
    [|apply relax_inv_done; [done | fold v; congruence]].
  destruct (bool_decide (v ∈ closed')) eqn:Hc; simpl.
  { apply bool_decide_eq_true in Hc. apply relax_inv_done; [done|]. by left. }
  apply bool_decide_eq_false in Hc.
  destruct (lt_Dist (g current + 1) (gScore_get gScore v)) eqn:Hlt; simpl.
  2: { apply relax_inv_done; [done|]. intros _. right.
       unfold gScore_get in Hlt.
       destruct (gScore !! v) as [gv|] eqn:Hgv; [|done].
       apply (mid_gscore _ _ _ _ _ _ _ _ Hinv) in Hgv as (n & Hn & Hv & Hgn); [|done].
       exists n. split; [done|]. split; [done|].
       destruct gv; simpl in Hlt; [done| |]; apply Z.ltb_ge in Hlt; lia. }
  (* the neighbour is (re)opened with a better score *)
  set (new := mkNode v (g current + 1) (g current + 1 + manhattanDistance v target)).
  set (kept := remove_first (fun item => equals (pos item) v) openSet).
  destruct (remove_first_pos v openSet (mid_nodup _ _ _ _ _ _ _ _ Hinv)) as [Hnd Hfresh].
  fold kept in Hnd, Hfresh.
  assert (Hkept : forall n, n ∈ kept -> n ∈ openSet).
  { intros n. apply elem_of_remove_first. }
  assert (Hother : forall n, n ∈ openSet -> pos n <> v -> n ∈ kept).
  { intros n Hn Hv. apply elem_of_remove_first_other; [|done].
    destruct (equals (pos n) v) eqn:E; [|done]. by apply equals_eq in E. }
  assert (Hmono : forall n, n ∈ openSet ->
            exists n', n' ∈ kept ++ [new] /\ pos n' = pos n /\ g n' <= g n).
  { intros n Hn. destruct (decide (pos n = v)) as [Hv | Hv].
    - exists new. split; [apply elem_of_app; right; left|]. split; [done|]. simpl.
      assert (Hgv : gScore !! v = Some (g n)).
      { apply (mid_gscore _ _ _ _ _ _ _ _ Hinv); [done|]. by exists n. }
      destruct (mid_open _ _ _ _ _ _ _ _ Hinv n Hn) as [_ Hpos].
      rewrite (gScore_get_Finite _ _ _ Hgv Hpos) in Hlt. simpl in Hlt.
      apply Z.ltb_lt in Hlt. lia.
    - exists n. split; [|done]. apply elem_of_app. left. auto. }
  constructor.
  - intros n [Hn | ->%list_elem_of_singleton]%elem_of_app.
    + apply Hinv. auto.
    + split; [|simpl; lia]. constructor; simpl; [lia| |done|done].
      replace (Z.to_nat (g current + 1)) with (S (Z.to_nat (g current))) by lia.
      eapply path_step; [done| |done].
      apply adjacent_directions. by exists dir.
  - rewrite fmap_app. apply NoDup_app. split; [done|]. split.
    + intros x Hx ->%list_elem_of_singleton. done.
    + simpl. apply NoDup_singleton.
  - intros w gw Hw. destruct (decide (w = v)) as [-> | Hne].
    + rewrite lookup_insert_eq. split.
      * intros [= <-]. exists new. split; [apply elem_of_app; right; left | done].
      * intros (n & [Hn | ->%list_elem_of_singleton]%elem_of_app & Hv & Hgn).
        -- exfalso. apply Hfresh. apply list_elem_of_fmap. by exists n.
        -- simpl in Hgn. by rewrite Hgn.
    + rewrite lookup_insert_ne by done.
      rewrite (mid_gscore _ _ _ _ _ _ _ _ Hinv) by done. split.
      * intros (n & Hn & Hv & Hgn). exists n. split; [|done].
        apply elem_of_app. left. apply Hother; [done | congruence].
      * intros (n & [Hn | ->%list_elem_of_singleton]%elem_of_app & Hv & Hgn).
        -- exists n. auto.
        -- simpl in Hv. congruence.
  - intros c Hcl. destruct (mid_closed _ _ _ _ _ _ _ _ Hinv c Hcl) as (d & Hd & Hnb).
    exists d. split; [done|]. intros w Hadj Hpw.
    eapply reached_mono; [exact Hmono | auto].
  - intros dir' [-> | Hin]%elem_of_cons Hp'.
    + right. exists new. split; [apply elem_of_app; right; left|]. split; [done | simpl; lia].
    + eapply reached_mono; [exact Hmono|]. by apply Hinv.
Qed.

Lemma relax_all (dirs seen : list Vec) (openSet : list Node) (gScore : gmap Vec Z) :
  (forall dir, dir ∈ dirs -> dir ∈ directions) ->
  relax_inv l start target current closedSet seen openSet gScore ->
  relax_inv l start target current closedSet (reverse dirs ++ seen)
    (fst (foldl (relax l target ({[pos current]} ∪ closedSet) current)
                (openSet, gScore) dirs))
    (snd (foldl (relax l target ({[pos current]} ∪ closedSet) current)
                (openSet, gScore) dirs)).
Proof.
  revert seen openSet gScore.
  induction dirs as [|dir dirs IH]; intros seen openSet gScore Hdirs Hinv; [done|].
  cbn [foldl].
  pose proof (relax_step seen openSet gScore dir (Hdirs dir (list_elem_of_here _ _)) Hinv) as Hstep.
  destruct (relax l target _ current (openSet, gScore) dir) as [o s]. simpl in Hstep.
  rewrite reverse_cons, <- app_assoc. simpl.
  apply IH; [|done]. intros d Hd. apply Hdirs. by right.
Qed.
End Expansion.

(** ** Pathfinding: the cells a search can open *)

Lemma size_list_to_set_le (vs : list Vec) :
  (size (list_to_set vs : gset Vec) <= length vs)%nat.
Proof.
  induction vs as [|v vs IH]; [by rewrite list_to_set_nil, size_empty|].
  rewrite list_to_set_cons, size_union_alt, size_singleton. cbn [length].
  pose proof (subseteq_size (list_to_set vs ∖ {[v]}) (list_to_set vs : gset Vec)
                ltac:(apply subseteq_difference_l; reflexivity)).
  lia.
Qed.

Lemma length_bind_const {A B : Type} (fn : A -> list B) (k : nat) (xs : list A) :
  (forall x, length (fn x) = k) -> length (xs ≫= fn) = (length xs * k)%nat.
Proof.
  intros Hk. induction xs as [|x xs IH]; [done|].
  rewrite bind_cons, length_app, Hk, IH. cbn [length]. lia.
Qed.

Lemma length_cells (l : Level) :
  length (cells l)
  = (Z.to_nat (gridSize (config l)) * Z.to_nat (gridSize (config l)))%nat.
Proof.
  unfold cells.
  rewrite (length_bind_const _ (Z.to_nat (gridSize (config l)))), length_seqZ; [done|].
  intros x. rewrite (length_bind_const _ 1%nat), length_seqZ; [lia | done].
Qed.

Lemma size_universe (l : Level) (start : Vec) :
  (size (universe l start) < Pathfinder.budget l)%nat.
Proof.
  unfold universe, Pathfinder.budget.
  rewrite size_union_alt, size_singleton.
  pose proof (subseteq_size (list_to_set (cells l) ∖ {[start]})
                (list_to_set (cells l) : gset Vec)
                ltac:(apply subseteq_difference_l; reflexivity)).
  pose proof (size_list_to_set_le (cells l)). rewrite length_cells in *. lia.
Qed.

Lemma path_in_universe (l : Level) (start v : Vec) (n : nat) :
  path l start v n -> v ∈ universe l start.
Proof.
  intros [-> | Hp]%path_cell; unfold universe; apply elem_of_union;
    [left; by apply elem_of_singleton|].
  right. apply elem_of_list_to_set, elem_of_cells.
  unfold isPassable in Hp. by apply andb_true_iff in Hp as [? _].
Qed.

(** ** Pathfinding: the search loop *)

Section Search.
Import Pathfinder.
Variables (l : Level) (start target : Vec).

(** Every path that leaves the closed set crosses the open list. *)
Lemma frontier (openSet : list Node) (closedSet : gset Vec) (gScore : gmap Vec Z)
    (x : Vec) (m : nat) :
  search_inv l start target openSet closedSet gScore ->
  start ∈ closedSet ->
  path l start x m ->
  x ∉ closedSet ->
  exists n k, n ∈ openSet /\ path l (pos n) x k /\ g n + Z.of_nat k <= Z.of_nat m.
Proof.
  intros Hinv Hstart Hpath. induction Hpath as [|b c m Hb IH Hadj Hp]; [done|].
  intros Hc. destruct (decide (b ∈ closedSet)) as [Hcl | Hcl].
  - destruct (inv_closed _ _ _ _ _ _ Hinv b Hcl) as (d & [_ Hd] & Hnb).
    destruct (Hnb c Hadj Hp) as [? | (n & Hn & Hv & Hg)]; [done|].
    exists n, 0%nat. split; [done|]. rewrite Hv. split; [constructor|].
    apply Hd in Hb. lia.
  - destruct (IH Hcl) as (n & k & Hn & Hk & Hg).
    exists n, (S k). split; [done|]. split; [by eapply path_step | lia].
Qed.

(** The entry taken from the open list carries the length of a shortest
    path to its cell. *)
Lemma pop_shortest (openSet : list Node) (closedSet : gset Vec) (gScore : gmap Vec Z)
    (current : Node) (rest : list Node) :
  search_inv l start target openSet closedSet gScore ->
  js_sort (compare target) openSet = current :: rest ->
  shortest l start (pos current) (Z.to_nat (g current)).
Proof.
  intros Hinv Hsort.
  destruct (js_sort_first _ (compare_total target) (compare_trans target) _ _ _ Hsort)
    as (Hcur & _ & Hmin).
  destruct (inv_open _ _ _ _ _ _ Hinv current Hcur) as [Hg Hpath Hf Hfresh].
  split; [done|]. intros m Hm.
  destruct (inv_start _ _ _ _ _ _ Hinv) as [Hstart | [-> _]].
  - destruct (frontier _ _ _ _ _ Hinv Hstart Hm Hfresh) as (n & k & Hn & Hk & Hle).
    pose proof (compare_f _ _ _ (Hmin n Hn)) as Hfn.
    destruct (inv_open _ _ _ _ _ _ Hinv n Hn) as [_ _ Hf' _].
    pose proof (path_heuristic _ target _ _ _ Hk). lia.
  - apply list_elem_of_singleton in Hcur as ->. simpl. lia.
Qed.

Lemma closed_reach (closedSet : gset Vec) (gScore : gmap Vec Z) (x : Vec) (m : nat) :
  search_inv l start target [] closedSet gScore ->
  path l start x m -> x ∈ closedSet.
Proof.
  intros Hinv. induction 1 as [|b c m Hb IH Hadj Hp].
  - by destruct (inv_start _ _ _ _ _ _ Hinv) as [? | [? _]].
  - destruct (inv_closed _ _ _ _ _ _ Hinv b IH) as (d & _ & Hnb).
    destruct (Hnb c Hadj Hp) as [? | (n & Hn & _)]; [done|].
    by apply elem_of_nil in Hn.
Qed.

Lemma search_inv_next (openSet : list Node) (closedSet : gset Vec) (gScore : gmap Vec Z)
    (current : Node) (rest : list Node) :
  search_inv l start target openSet closedSet gScore ->
  js_sort (compare target) openSet = current :: rest ->
  pos current <> target ->
  search_inv l start target
    (fst (foldl (relax l target ({[pos current]} ∪ closedSet) current) (rest, gScore)
                directions))
    ({[pos current]} ∪ closedSet)
    (snd (foldl (relax l target ({[pos current]} ∪ closedSet) current) (rest, gScore)
                directions)).
Proof.
  intros Hinv Hsort Hne.
  pose proof (pop_shortest _ _ _ _ _ Hinv Hsort) as Hshort.
  destruct (js_sort_first _ (compare_total target) (compare_trans target) _ _ _ Hsort)
    as (Hcur & Hperm & _).
  destruct (inv_open _ _ _ _ _ _ Hinv current Hcur) as [Hg Hpath Hf Hfresh].
  pose proof (inv_nodup _ _ _ _ _ _ Hinv) as Hnd.
  rewrite Hperm in Hnd. simpl in Hnd. apply NoDup_cons in Hnd as [Hcur_rest Hnd_rest].
  assert (Hrest : forall n, n ∈ rest -> n ∈ openSet /\ pos n <> pos current).
  { intros n Hn. split; [rewrite Hperm; by right|].
    intros E. apply Hcur_rest. rewrite <- E. apply list_elem_of_fmap. by exists n. }
  assert (Hback : forall n, n ∈ openSet -> pos n <> pos current -> n ∈ rest).
  { intros n Hn Hp. rewrite Hperm in Hn. apply elem_of_cons in Hn as [-> | ?]; done. }
  assert (Hinit : relax_inv l start target current closedSet [] rest gScore).
  { constructor.
    - intros n Hn. destruct (Hrest n Hn) as [Hn' Hp].
      destruct (inv_open _ _ _ _ _ _ Hinv n Hn') as [? ? ? ?].
      split; [constructor; try done|].
      + intros [?%elem_of_singleton | ?]%elem_of_union; done.
      + destruct (inv_start _ _ _ _ _ _ Hinv) as [Hs | [-> _]].
        * by apply (inv_positive _ _ _ _ _ _ Hinv).
        * apply list_elem_of_singleton in Hcur as ->.
          apply list_elem_of_singleton in Hn' as ->. done.
    - done.
    - intros v gv Hv. apply not_elem_of_union in Hv as [Hv1%not_elem_of_singleton Hv2].
      rewrite (inv_gscore _ _ _ _ _ _ Hinv) by done. split.
      + intros (n & Hn & Hp & Hgn). exists n. split; [|done]. apply Hback; congruence.
      + intros (n & Hn & Hp & Hgn). exists n. split; [|done]. by apply Hrest.
    - intros c Hc. destruct (inv_closed _ _ _ _ _ _ Hinv c Hc) as (d & Hd & Hnb).
      exists d. split; [done|]. intros v Hadj Hp.
      destruct (Hnb v Hadj Hp) as [? | (n & Hn & Hv & Hgn)].
      + left. apply elem_of_union. by right.
      + destruct (decide (pos n = pos current)) as [E | E].
        * left. apply elem_of_union. left. apply elem_of_singleton. congruence.
        * right. exists n. split; [by apply Hback | done].
    - intros dir Hdir. by apply elem_of_nil in Hdir. }
  pose proof (relax_all l start target current closedSet Hg Hpath directions [] rest gScore
                (fun _ H => H) Hinit) as Hfin.
  destruct (foldl _ (rest, gScore) directions) as [o s]. cbn [fst snd] in *.
  constructor.
  - intros n Hn. by apply (mid_open _ _ _ _ _ _ _ _ Hfin).
  - by apply (mid_nodup _ _ _ _ _ _ _ _ Hfin).
  - by apply (mid_gscore _ _ _ _ _ _ _ _ Hfin).
  - intros c [->%elem_of_singleton | Hc]%elem_of_union.
    + exists (Z.to_nat (g current)). split; [done|]. intros v Hadj Hp.
      apply adjacent_directions in Hadj as (dir & Hdir & ->).
      rewrite Z2Nat.id by done.
      apply (mid_done _ _ _ _ _ _ _ _ Hfin); [|done].
      rewrite app_nil_r. by apply elem_of_reverse.
    + by apply (mid_closed _ _ _ _ _ _ _ _ Hfin).
  - left. destruct (inv_start _ _ _ _ _ _ Hinv) as [Hs | [-> _]].
    + apply elem_of_union. by right.
    + apply list_elem_of_singleton in Hcur as ->. simpl.
      apply elem_of_union. left. by apply elem_of_singleton.
  - intros [?%elem_of_singleton | ?]%elem_of_union; [done|].
    by apply (inv_target _ _ _ _ _ _ Hinv).
  - intros _ n Hn. by apply (mid_open _ _ _ _ _ _ _ _ Hfin).
  - apply union_subseteq. split; [|by apply (inv_universe _ _ _ _ _ _ Hinv)].
    apply singleton_subseteq_l. by eapply path_in_universe.
Qed.

Lemma distance_loop_correct (fuel : nat) :
  forall (openSet : list Node) (closedSet : gset Vec) (gScore : gmap Vec Z),
    search_inv l start target openSet closedSet gScore ->
    (size (universe l start) - size closedSet < fuel)%nat ->
    exists r, distance_loop l target fuel openSet closedSet gScore = Some r
              /\ exact l start target r.
Proof.
  induction fuel as [|fuel IH]; intros openSet closedSet gScore Hinv Hfuel; [lia|].
  cbn [distance_loop].
  destruct (js_sort (compare target) openSet) as [|current rest] eqn:Hsort.
  - apply js_sort_nil in Hsort as ->.
    exists Infinity. split; [done|]. intros n Hn.
    apply (inv_target _ _ _ _ _ _ Hinv). by eapply closed_reach.
  - pose proof (pop_shortest _ _ _ _ _ Hinv Hsort) as Hshort.
    destruct (js_sort_first _ (compare_total target) (compare_trans target) _ _ _ Hsort)
      as (Hcur & _ & _).
    destruct (inv_open _ _ _ _ _ _ Hinv current Hcur) as [Hg Hpath Hf Hfresh].
    destruct (equals (pos current) target) eqn:E.
    + apply equals_eq in E. exists (Finite (g current)). split; [done|].
      simpl. by rewrite <- E.
    + assert (Hne : pos current <> target).
      { intros Heq. apply equals_eq in Heq. congruence. }
      pose proof (search_inv_next _ _ _ _ _ Hinv Hsort Hne) as Hnext.
      destruct (foldl _ (rest, gScore) directions) as [o s]. simpl in Hnext.
      apply IH; [done|].
      pose proof (subseteq_size _ _ (inv_universe _ _ _ _ _ _ Hnext)) as Hsize.
      rewrite size_union in Hsize |- * by (apply disjoint_singleton_l; done).
      rewrite size_singleton in Hsize |- *. lia.
Qed.
End Search.

Lemma search_inv_init (l : Level) (start target : Vec) :
  search_inv l start target
    [Pathfinder.mkNode start 0 (manhattanDistance start target)] ∅ {[start := 0]}.
Proof.
  constructor.
  - intros n ->%list_elem_of_singleton. constructor; simpl; [done|constructor|lia|].
    apply not_elem_of_empty.
  - apply NoDup_singleton.
  - intros v gv _. split.
    + intros [<- <-]%lookup_singleton_Some. eexists. split; [left | done].
    + intros (n & ->%list_elem_of_singleton & <- & <-). apply lookup_singleton_eq.
  - intros c Hc. by apply elem_of_empty in Hc.
  - by right.
  - apply not_elem_of_empty.
  - intros Hs. by apply elem_of_empty in Hs.
  - apply empty_subseteq.
Qed.

(** C4.  On a level whose grid stores every in-bounds cell (every level
    loaded with a grid size of at most 64), [getPathDistance(a, b)] runs to
    completion within its iteration budget and returns the exact length of
    a shortest path from [a] to [b] that moves in the four directions and
    enters Floor cells only (guards and bombs play no part: the search reads
    the terrain alone); it returns [Infinity] exactly when there is no such
    path. *)
Theorem getPathDistance_exact (l : Level) (a b : Vec) :
  grid_complete l = true ->
  Pathfinder.getPathDistance_fuel (Pathfinder.budget l) l a b
    = Some (Pathfinder.getPathDistance l a b)
  /\ (forall d, Pathfinder.getPathDistance l a b = Finite d <->
                0 <= d /\ shortest l a b (Z.to_nat d))
  /\ (Pathfinder.getPathDistance l a b = Infinity <-> forall n, ~ path l a b n).
Proof.
  intros _.
  assert (H : exists r, Pathfinder.getPathDistance_fuel (Pathfinder.budget l) l a b = Some r
                        /\ exact l a b r).
  { unfold Pathfinder.getPathDistance_fuel. destruct (equals a b) eqn:E.
    - apply equals_eq in E as ->. exists (Finite 0). split; [done|].
      split; [done|]. split; [constructor | lia].
    - apply distance_loop_correct; [apply search_inv_init|].
      pose proof (size_universe l a). rewrite size_empty. lia. }
  destruct H as (r & Hr & Hexact).
  unfold Pathfinder.getPathDistance. rewrite Hr. simpl. split; [done|].
  destruct r as [d|]; simpl in Hexact.
  - split.
    + intros d'. split.
      * by intros [= <-].
      * intros [Hd' Hs]. destruct Hexact as [Hd Hs'].
        pose proof (shortest_unique _ _ _ _ _ Hs Hs'). f_equal. lia.
    + split; [done|]. intros Hno. destruct Hexact as [_ [Hp _]]. by apply Hno in Hp.
  - split.
    + intros d. split; [done|]. intros [_ [Hp _]]. by apply Hexact in Hp.
    + done.
Qed.

(** C4, an instance: in a room of five by five Floor cells the corner
    [(0,0)] is four moves from the centre [(2,2)], and no path is shorter. *)
Lemma getPathDistance_exact_witness :
  exists l,
    new_Level room_level = Some l
    /\ Pathfinder.getPathDistance l (mkVec 0 0) (mkVec 2 2) = Finite 4
    /\ shortest l (mkVec 0 0) (mkVec 2 2) 4.
Proof.
  assert (E : exists l, new_Level room_level = Some l) by (vm_compute; eauto).
  destruct E as [l E]. exists l. split; [exact E|].
  vm_compute in E. injection E as <-.
  match goal with
  | |- Pathfinder.getPathDistance ?l ?a ?b = _ /\ _ =>
      destruct (getPathDistance_exact l a b) as (_ & Hd & _); [vm_compute; reflexivity|];
      assert (Hv : Pathfinder.getPathDistance l a b = Finite 4) by (vm_compute; reflexivity)
  end.
  split; [exact Hv|]. apply Hd in Hv. apply Hv.
Defined.

(** ** Guard target selection *)

Lemma source_before_key (l : Level) (guard : Guard) (a b : Source * bool) :
  source_before l guard a b <-> lex_le (source_key l guard a) (source_key l guard b).
Proof.
  unfold source_before, source_key. simpl.
  destruct (Pathfinder.getPathDistance l (g_pos guard) (s_pos a.1)) as [da|],
           (Pathfinder.getPathDistance l (g_pos guard) (s_pos b.1)) as [db|],
           (snd a), (snd b); simpl; split; intros H;
    repeat match goal with
           | H : _ \/ _ |- _ => destruct H
           | H : _ /\ _ |- _ => destruct H
           | H : Finite _ = Finite _ |- _ => injection H as H
           | H : Finite _ = Infinity |- _ => discriminate H
           | H : Infinity = Finite _ |- _ => discriminate H
           | H : true = false |- _ => discriminate H
           | H : false = true |- _ => discriminate H
           | H : False |- _ => destruct H
           end;
    try lia;
    try (destruct (Z_lt_le_dec (s_level b.1) (s_level a.1)); [by left | right; split; [lia|]]);
    try (right; split; [lia|]).
  all: try (destruct (Z_lt_le_dec da db); [by left | right; split; [f_equal; lia|]]).
  all: try (right; split; [done|]).
  all: try (left; done).
  all: try (right; split; [done|]; lia).
  all: try lia.
Qed.

Lemma source_compare_le (l : Level) (guard : Guard) (a b : Source * bool) :
  source_compare l guard a b <= 0 <-> source_before l guard a b.
Proof.
  unfold source_compare, source_before.
  destruct (s_level a.1 =? s_level b.1) eqn:E1; simpl;
    [apply Z.eqb_eq in E1 | apply Z.eqb_neq in E1; lia].
  destruct (bool_decide (_ = _)) eqn:E2; simpl.
  - apply bool_decide_eq_true in E2. rewrite E2.
    assert (Hirr : forall d, ~ Dist_lt d d) by (intros [d|]; simpl; lia).
    destruct (bool_decide (a.2 = b.2)) eqn:E3; simpl.
    + apply bool_decide_eq_true in E3.
      destruct (vy (s_pos a.1) =? vy (s_pos b.1)) eqn:E4; simpl;
        [apply Z.eqb_eq in E4 | apply Z.eqb_neq in E4].
      * split; [intros; right; split; [done|]; right; split; [done|]; right; split; [done|]; lia|].
        intros [? | [_ [?%Hirr | [_ [[? ?] | [_ ?]]]]]]; try lia; try done.
        destruct (snd a), (snd b); done.
      * split; [intros; right; split; [done|]; right; split; [done|]; right; split; [done|]; lia|].
        intros [? | [_ [?%Hirr | [_ [[? ?] | [_ ?]]]]]]; try lia; try done.
        destruct (snd a), (snd b); done.
    + apply bool_decide_eq_false in E3.
      destruct (snd a), (snd b); try done; simpl.
      * split; [intros; right; split; [done|]; right; split; [done|]; by left | lia].
      * split; [intros ?; exfalso; lia|].
        intros [? | [_ [?%Hirr | [_ [[? ?] | [? _]]]]]]; try lia; done.
  - apply bool_decide_eq_false in E2.
    destruct (Pathfinder.getPathDistance l (g_pos guard) (s_pos a.1)) as [da|],
             (Pathfinder.getPathDistance l (g_pos guard) (s_pos b.1)) as [db|]; simpl.
    + assert (da <> db) by congruence.
      split; [intros; right; split; [done|]; left; lia|].
      intros [? | [_ [? | [? _]]]]; try lia. done.
    + split; [intros; right; split; [done|]; by left | lia].
    + split; [intros ?; exfalso; lia|]. intros [? | [_ [? | [? _]]]]; try lia; done.
    + done.
Qed.

Lemma lex_le_total (a b : list Z) : lex_le a b \/ lex_le b a.
Proof.
  revert b. induction a as [|x a IH]; intros [|y b]; simpl; auto.
  destruct (Z.lt_trichotomy x y) as [? | [-> | ?]]; [by left; left | | by right; left].
  destruct (IH b); [left | right]; by right.
Qed.

Lemma lex_le_trans (a b c : list Z) :
  length a = length b -> length b = length c ->
  lex_le a b -> lex_le b c -> lex_le a c.
Proof.
  revert b c. induction a as [|x a IH]; intros [|y b] [|z c]; simpl; try done.
  intros [= Hab] [= Hbc] [? | [-> ?]] [? | [-> ?]]; try (left; lia).
  right. split; [done|]. by eapply IH.
Qed.

Lemma source_compare_total (l : Level) (guard : Guard) (a b : Source * bool) :
  source_compare l guard a b <= 0 \/ source_compare l guard b a <= 0.
Proof. rewrite !source_compare_le, !source_before_key. apply lex_le_total. Qed.

Lemma source_compare_trans (l : Level) (guard : Guard) (a b c : Source * bool) :
  source_compare l guard a b <= 0 -> source_compare l guard b c <= 0 ->
  source_compare l guard a c <= 0.
Proof. rewrite !source_compare_le, !source_before_key. by apply lex_le_trans. Qed.

(** The comparator of the memory update is the one above on sources of
    equal loudness and kind, and the comparator of [getNextStep] is the one
    of [getPathDistance]: both are total preorders too. *)
Lemma explosion_compare_source (l : Level) (guard : Guard) (a b : Source) :
  explosion_compare l guard a b
  = source_compare l guard (mkSource (s_pos a) 4, true) (mkSource (s_pos b) 4, true).
Proof. reflexivity. Qed.

Lemma explosion_compare_total (l : Level) (guard : Guard) (a b : Source) :
  explosion_compare l guard a b <= 0 \/ explosion_compare l guard b a <= 0.
Proof. rewrite !explosion_compare_source. apply source_compare_total. Qed.

Lemma explosion_compare_trans (l : Level) (guard : Guard) (a b c : Source) :
  explosion_compare l guard a b <= 0 -> explosion_compare l guard b c <= 0 ->
  explosion_compare l guard a c <= 0.
Proof. rewrite !explosion_compare_source. apply source_compare_trans. Qed.

Lemma pcompare_total (target : Vec) (a b : Pathfinder.PNode) :
  Pathfinder.pcompare target a b <= 0 \/ Pathfinder.pcompare target b a <= 0.
Proof. unfold Pathfinder.pcompare. rewrite !compare_pos_le. lia. Qed.

Lemma pcompare_trans (target : Vec) (a b c : Pathfinder.PNode) :
  Pathfinder.pcompare target a b <= 0 -> Pathfinder.pcompare target b c <= 0 ->
  Pathfinder.pcompare target a c <= 0.
Proof. unfold Pathfinder.pcompare. rewrite !compare_pos_le. lia. Qed.

Lemma Dist_leb_true (d : Dist) (r : Z) :
  Dist_leb d r = true <-> exists n, d = Finite n /\ n <= r.
Proof.
  destruct d as [n|]; simpl.
  - rewrite Z.leb_le. split; [eauto | by intros (? & [= <-] & ?)].
  - split; [done | by intros (? & ? & ?)].
Qed.

(** C5.  On a level whose grid stores every in-bounds cell: the
    candidates of a guard are exactly the sources whose path
    distance from the guard is at most its hearing radius (a source at
    distance [hearingRadius + 1], or out of reach, is no candidate; one at
    exactly [hearingRadius] is).  [chooseGuardTarget] returns nothing exactly
    when there is no candidate; otherwise it returns a candidate that comes
    first in the order (loudness descending, path distance ascending,
    detonation before ticking, row-major position ascending), and a
    candidate that no other candidate matches or precedes is the one
    returned. *)
Theorem chooseGuardTarget_spec (l : Level) (guard : Guard)
    (tickingSources explodingSources : list Source) :
  grid_complete l = true ->
  let candidates :=
    List.filter (fun a => audible l guard (fst a))
                (allSources tickingSources explodingSources) in
  (forall s tag, (s, tag) ∈ allSources tickingSources explodingSources <->
                 (tag = false /\ s ∈ tickingSources) \/ (tag = true /\ s ∈ explodingSources))
  /\ (forall a, a ∈ candidates <->
                a ∈ allSources tickingSources explodingSources
                /\ exists d, Pathfinder.getPathDistance l (g_pos guard) (s_pos (fst a)) = Finite d
                             /\ d <= hearingRadius guard)
  /\ (chooseGuardTarget l guard tickingSources explodingSources = None <-> candidates = [])
  /\ (forall s, chooseGuardTarget l guard tickingSources explodingSources = Some s ->
                exists tag, (s, tag) ∈ candidates
                            /\ forall c, c ∈ candidates -> source_before l guard (s, tag) c)
  /\ (forall a, a ∈ candidates ->
                (forall c, c ∈ candidates -> c <> a -> ~ source_before l guard c a) ->
                chooseGuardTarget l guard tickingSources explodingSources = Some (fst a)).
Proof.
  intros _ candidates.
  assert (Hres : forall a, head (js_sort (source_compare l guard) candidates) = Some a ->
            a ∈ candidates /\ forall c, c ∈ candidates -> source_before l guard a c).
  { intros a Ha. destruct (js_sort _ candidates) as [|h t] eqn:E; [done|].
    injection Ha as ->.
    destruct (js_sort_first _ (source_compare_total l guard) (source_compare_trans l guard)
                _ _ _ E) as (Hin & _ & Hmin).
    split; [done|]. intros c Hc. by apply source_compare_le, Hmin. }
  assert (Hnone : head (js_sort (source_compare l guard) candidates) = None <-> candidates = []).
  { destruct (js_sort _ candidates) as [|h t] eqn:E.
    - apply js_sort_nil in E. by rewrite E.
    - split; [done|]. intros Hc. rewrite Hc in E. done. }
  split; [|split; [|split; [|split]]].
  - intros s tag. unfold allSources. rewrite elem_of_app, !list_elem_of_fmap. split.
    + intros [(x & [= -> ->] & ?) | (x & [= -> ->] & ?)]; auto.
    + intros [[-> ?] | [-> ?]]; [left | right]; by eexists.
  - intros a. unfold candidates. rewrite !list_elem_of_In, filter_In.
    unfold audible. rewrite Dist_leb_true. done.
  - unfold chooseGuardTarget. fold candidates. rewrite <- Hnone.
    destruct (head _); simpl; split; done.
  - intros s. unfold chooseGuardTarget. fold candidates.
    destruct (head _) as [[s' tag]|] eqn:E; simpl; [|done].
    intros [= <-]. exists tag. by apply Hres.
  - intros a Ha Hbest. unfold chooseGuardTarget. fold candidates.
    destruct (head _) as [b|] eqn:E; simpl.
    + destruct (Hres b eq_refl) as [Hb Hmin]. f_equal.
      destruct (decide (b = a)) as [-> | Hne]; [done|].
      exfalso. by apply (Hbest b Hb Hne), Hmin.
    + destruct Hnone as [Hnone _]. rewrite (Hnone eq_refl) in Ha. by apply elem_of_nil in Ha.
Qed.

(** C5, an instance: a guard in the corner of the room with hearing radius
    3 hears the ticking bomb two moves away and not the louder detonation
    four moves away, and makes for the bomb. *)
Lemma chooseGuardTarget_spec_witness :
  exists l,
    new_Level room_level = Some l
    /\ chooseGuardTarget l (new_Guard 0 (mkVec 0 0) 3)
         [mkSource (mkVec 1 1) 3] [mkSource (mkVec 2 2) 4]
       = Some (mkSource (mkVec 1 1) 3)
    /\ Pathfinder.getPathDistance l (mkVec 0 0) (mkVec 1 1) = Finite 2
    /\ Pathfinder.getPathDistance l (mkVec 0 0) (mkVec 2 2) = Finite 4.
Proof.
  assert (E : exists l, new_Level room_level = Some l) by (vm_compute; eauto).
  destruct E as [l E]. exists l. split; [exact E|].
  vm_compute in E. injection E as <-.
  split; [|split; vm_compute; reflexivity].
  match goal with
  | |- chooseGuardTarget ?l ?g ?t ?e = _ =>
      destruct (chooseGuardTarget_spec l g t e) as (_ & _ & _ & _ & Hbest);
        [vm_compute; reflexivity|];
      apply (Hbest (mkSource (mkVec 1 1) 3, false))
  end.
  - apply (bool_decide_unpack _). vm_compute. exact I.
  - intros c Hc Hne. exfalso. revert Hc Hne.
    match goal with
    | |- c ∈ ?cands -> _ =>
        assert (Hcands : cands = [(mkSource (mkVec 1 1) 3, false)]) by (vm_compute; reflexivity);
        rewrite Hcands
    end.
    intros ->%list_elem_of_singleton. done.
Defined.

(** ** Movement conflicts: what the arbitration does guarantee *)

Lemma group_by_destination_from (proposals : list (Z * Vec)) (m : gmap Vec (list Z)) (d : Vec) :
  foldl (fun (m : gmap Vec (list Z)) (p : Z * Vec) =>
           <[snd p := default [] (m !! snd p) ++ [fst p]]> m) m proposals !! d
  = match m !! d, claimants proposals d with
    | None, [] => None
    | o, c => Some (default [] o ++ c)
    end.
Proof.
  revert m. induction proposals as [|[id d'] ps IH]; intros m; simpl.
  - unfold claimants. simpl. destruct (m !! d); simpl; [by rewrite app_nil_r | done].
  - rewrite IH. unfold claimants. rewrite filter_cons. simpl.
    destruct (decide (d' = d)) as [-> | Hne].
    + rewrite lookup_insert_eq. simpl.
      destruct (m !! d) as [ids|]; simpl; by rewrite <- ?app_assoc.
    + rewrite lookup_insert_ne by done. done.
Qed.

Lemma group_by_destination_lookup (proposals : list (Z * Vec)) (d : Vec) :
  group_by_destination proposals !! d
  = match claimants proposals d with [] => None | c => Some c end.
Proof.
  unfold group_by_destination. rewrite group_by_destination_from, lookup_empty.
  by destruct (claimants proposals d).
Qed.

Lemma elem_of_claimants (proposals : list (Z * Vec)) (d : Vec) (id : Z) :
  id ∈ claimants proposals d <-> (id, d) ∈ proposals.
Proof.
  unfold claimants. rewrite list_elem_of_fmap. split.
  - intros ([id' d'] & -> & [Hd Hin]%list_elem_of_filter). simpl in *. by subst.
  - intros Hin. exists (id, d). split; [done|]. by apply list_elem_of_filter.
Qed.

Lemma map_get_elem_of {V : Type} (m : list (Z * V)) (k : Z) (v : V) :
  map_get m k = Some v -> (k, v) ∈ m.
Proof.
  induction m as [|[k' v'] m IH]; simpl; [done|].
  destruct (k' =? k) eqn:E.
  - apply Z.eqb_eq in E as ->. intros [= ->]. left.
  - intros H. right. auto.
Qed.

Lemma map_get_NoDup {V : Type} (m : list (Z * V)) (k : Z) (v : V) :
  NoDup (fst <$> m) -> (k, v) ∈ m -> map_get m k = Some v.
Proof.
  induction m as [|[k' v'] m IH]; simpl; [by intros _ ?%elem_of_nil|].
  intros [Hk Hnd]%NoDup_cons [[= -> ->] | Hin]%elem_of_cons.
  - by rewrite Z.eqb_refl.
  - destruct (k' =? k) eqn:E; [|auto].
    apply Z.eqb_eq in E as ->. exfalso. apply Hk.
    apply list_elem_of_fmap. by exists (k, v).
Qed.

Lemma find_guard_Some (gs : list Guard) (id : Z) (guard : Guard) :
  find_guard gs id = Some guard -> guard ∈ gs /\ g_id guard = id.
Proof.
  unfold find_guard. intros H. apply find_some in H as [Hin Hid].
  split; [by apply list_elem_of_In | by apply Z.eqb_eq].
Qed.

Lemma find_guard_NoDup (gs : list Guard) (guard : Guard) :
  NoDup (g_id <$> gs) -> guard ∈ gs -> find_guard gs (g_id guard) = Some guard.
Proof.
  unfold find_guard. induction gs as [|g gs IH]; simpl; [by intros _ ?%elem_of_nil|].
  intros [Hg Hnd]%NoDup_cons [-> | Hin]%elem_of_cons.
  - by rewrite Z.eqb_refl.
  - destruct (g_id g =? g_id guard) eqn:E; [|auto].
    apply Z.eqb_eq in E. exfalso. apply Hg. rewrite E.
    apply list_elem_of_fmap. by exists guard.
Qed.

Lemma find_guard_is_Some (gs : list Guard) (id : Z) :
  id ∈ g_id <$> gs -> is_Some (find_guard gs id).
Proof.
  unfold find_guard. intros (g & -> & Hin)%list_elem_of_fmap.
  induction gs as [|g' gs IH]; simpl; [by apply elem_of_nil in Hin|].
  destruct (g_id g' =? g_id g) eqn:E; [eauto|].
  apply elem_of_cons in Hin as [-> | Hin]; [by rewrite Z.eqb_refl in E | auto].
Qed.

Section Arbitration.
Variables (gs : list Guard) (proposals : list (Z * Vec)).
Hypothesis wf : proposals_for gs proposals.

Lemma resolve_one_ok (validMoves : gmap Z Vec) (p : Z * Vec) :
  p ∈ proposals ->
  moves_ok gs proposals validMoves ->
  exists vm, resolve_one gs proposals (group_by_destination proposals) validMoves p = Some vm
             /\ moves_ok gs proposals vm.
Proof.
  destruct wf as (Hids & Hkeys & Hsub).
  destruct p as [guardId destination]. intros Hp Hinv. unfold resolve_one.
  destruct (find_guard_is_Some gs guardId) as [guard Hguard].
  { apply Hsub, list_elem_of_fmap. by exists (guardId, destination). }
  rewrite Hguard. simpl.
  pose proof (proj2 (elem_of_claimants proposals destination guardId) Hp) as Hcl.
  rewrite !group_by_destination_lookup.
  destruct (claimants proposals destination) as [|c cs] eqn:Ecl; [by apply elem_of_nil in Hcl|].
  cbn [mbind option_bind].
  assert (Hstay : forall vm, moves_ok gs proposals vm ->
            moves_ok gs proposals (<[guardId := g_pos guard]> vm)).
  { intros vm Hvm id v. destruct (decide (guardId = id)) as [<- | Hne].
    - rewrite lookup_insert_eq. intros [= <-]. exists guard. auto.
    - rewrite lookup_insert_ne by done. apply Hvm. }
  destruct (1 <? Z.of_nat (length (c :: cs))) eqn:Hlen;
    [eexists; split; [done | by apply Hstay]|].
  apply Z.ltb_ge in Hlen.
  assert (Hsingle : claimants proposals destination = [guardId]).
  { rewrite Ecl in *. destruct cs; simpl in Hlen; [|lia].
    by apply list_elem_of_singleton in Hcl as ->. }
  assert (Hmove : moves_ok gs proposals (<[guardId := destination]> validMoves)).
  { intros id v. destruct (decide (guardId = id)) as [<- | Hne].
    - rewrite lookup_insert_eq. intros [= <-]. exists guard. split; [done|]. right.
      split; [by apply map_get_NoDup | done].
    - rewrite lookup_insert_ne by done. apply Hinv. }
  destruct (match claimants proposals (g_pos guard) with
            | [] => None | c0 => Some c0 end) as [ids|] eqn:Eids; [|eauto].
  destruct (List.find _ ids) as [oid|] eqn:Efind; [|eauto].
  destruct (oid =? 0); [eauto|].
  destruct (map_get proposals oid) as [od|] eqn:Eod; [|eauto].
  destruct (equals od (g_pos guard)); [|eauto].
  destruct (find_guard_is_Some gs oid) as [og Hog].
  { apply Hsub, list_elem_of_fmap. exists (oid, od). split; [done|].
    by apply map_get_elem_of. }
  rewrite Hog. simpl. eexists. split; [done|].
  intros id v. destruct (decide (oid = id)) as [<- | Hne].
  - rewrite lookup_insert_eq. intros [= <-]. exists og. auto.
  - rewrite lookup_insert_ne by done. by apply Hstay.
Qed.

Lemma resolve_all_ok (todo : list (Z * Vec)) :
  forall validMoves : gmap Z Vec,
    (forall p, p ∈ todo -> p ∈ proposals) ->
    moves_ok gs proposals validMoves ->
    exists vm, resolve_all gs proposals (group_by_destination proposals) validMoves todo
               = Some vm /\ moves_ok gs proposals vm.
Proof.
  induction todo as [|p todo IH]; intros validMoves Hsub Hinv; simpl; [eauto|].
  destruct (resolve_one_ok validMoves p) as (vm & -> & Hvm); [apply Hsub; left | done |].
  simpl. apply IH; [|done]. intros q Hq. apply Hsub. by right.
Qed.
End Arbitration.

Lemma moves_ok_empty (gs : list Guard) (proposals : list (Z * Vec)) :
  moves_ok gs proposals ∅.
Proof. intros id v. by rewrite lookup_empty. Qed.

(** The arbitration as a whole: it completes, keeps the guards in place in
    the array with their ids, radius and memory, and a guard ends on its own
    cell or on the cell it proposed, the latter only when it is the only one
    to propose that cell. *)
Lemma resolveMovementConflicts_frame (gs : list Guard) (proposals : list (Z * Vec)) :
  proposals_for gs proposals ->
  exists gs',
    resolveMovementConflicts gs proposals = Some gs'
    /\ length gs' = length gs
    /\ forall i guard, gs !! i = Some guard ->
         exists guard',
           gs' !! i = Some guard'
           /\ g_id guard' = g_id guard
           /\ hearingRadius guard' = hearingRadius guard
           /\ memory guard' = memory guard
           /\ targetPos guard' = targetPos guard
           /\ (g_pos guard' = g_pos guard
               \/ (map_get proposals (g_id guard) = Some (g_pos guard')
                   /\ claimants proposals (g_pos guard') = [g_id guard])).
Proof.
  intros Hwf. unfold resolveMovementConflicts.
  destruct (resolve_all_ok gs proposals Hwf proposals ∅) as (vm & -> & Hvm);
    [done | apply moves_ok_empty |].
  simpl. eexists. split; [done|]. unfold apply_moves.
  split; [by rewrite length_fmap|].
  intros i guard Hi. rewrite list_lookup_fmap, Hi. simpl. eexists. split; [done|].
  destruct (vm !! g_id guard) as [v|] eqn:Ev; simpl; [|by auto 10].
  repeat split; try done.
  destruct (Hvm _ _ Ev) as (guard0 & Hfind & Hv).
  destruct Hwf as (Hids & _ & _).
  rewrite (find_guard_NoDup gs guard Hids) in Hfind by (by eapply list_elem_of_lookup_2).
  injection Hfind as <-. done.
Qed.

(** X1.  Given one proposal per [Map] key and distinct guard ids,
    [resolveMovementConflicts] always completes; it keeps the number and the
    order of the guards, their ids, hearing radius and memory, and every
    guard ends either on the cell it stood on or on the cell proposed under
    its id. *)
Theorem resolveMovementConflicts_moves (gs : list Guard) (proposals : list (Z * Vec)) :
  proposals_for gs proposals ->
  exists gs',
    resolveMovementConflicts gs proposals = Some gs'
    /\ g_id <$> gs' = g_id <$> gs
    /\ hearingRadius <$> gs' = hearingRadius <$> gs
    /\ memory <$> gs' = memory <$> gs
    /\ forall i guard guard', gs !! i = Some guard -> gs' !! i = Some guard' ->
         g_pos guard' = g_pos guard
         \/ map_get proposals (g_id guard) = Some (g_pos guard').
Proof.
  intros Hwf. destruct (resolveMovementConflicts_frame gs proposals Hwf) as (gs' & Hr & Hlen & H).
  exists gs'. split; [done|].
  assert (Hmap : forall {A : Type} (fn : Guard -> A),
            (forall i guard guard', gs !! i = Some guard -> gs' !! i = Some guard' ->
                                    fn guard' = fn guard) ->
            fn <$> gs' = fn <$> gs).
  { intros A fn Hfn. apply list_eq. intros i. rewrite !list_lookup_fmap.
    destruct (gs !! i) as [guard|] eqn:Ei.
    - destruct (H i guard Ei) as (guard' & Eg & _). rewrite Eg. simpl. f_equal.
      by eapply Hfn.
    - apply lookup_ge_None in Ei. rewrite (proj2 (lookup_ge_None gs' i)); [done | lia]. }
  split; [|split; [|split]].
  - apply Hmap. intros i g g' Hg Hg'. destruct (H i g Hg) as (g0 & E & ? & _). congruence.
  - apply Hmap. intros i g g' Hg Hg'. destruct (H i g Hg) as (g0 & E & _ & ? & _). congruence.
  - apply Hmap. intros i g g' Hg Hg'.
    destruct (H i g Hg) as (g0 & E & _ & _ & ? & _). congruence.
  - intros i g g' Hg Hg'. destruct (H i g Hg) as (g0 & E & _ & _ & _ & _ & Hpos).
    assert (g0 = g') as -> by congruence. destruct Hpos as [? | [? _]]; auto.
Qed.

(** X1, an instance: the swap of the two guards is arbitrated, and the
    guard with id 1 ends on the cell it proposed. *)
Lemma resolveMovementConflicts_moves_witness :
  exists gs',
    resolveMovementConflicts swap_guards swap_proposals = Some gs'
    /\ g_id <$> gs' = [0; 1].
Proof.
  destruct (resolveMovementConflicts_moves swap_guards swap_proposals)
    as (gs' & Hr & Hid & _).
  - split; [|split].
    + apply (bool_decide_unpack _). vm_compute. exact I.
    + apply (bool_decide_unpack _). vm_compute. exact I.
    + intros id Hid. exact Hid.
  - exists gs'. split; [exact Hr | exact Hid].
Defined.

(** X2.  A cell proposed by two guards is entered by neither: both are
    left where they stood.  Hence two guards that both changed cell never
    end on the same cell. *)
Theorem contested_cell_is_not_entered (gs gs' : list Guard) (proposals : list (Z * Vec))
    (i j : nat) (a b a' b' : Guard) :
  proposals_for gs proposals ->
  resolveMovementConflicts gs proposals = Some gs' ->
  i <> j ->
  gs !! i = Some a -> gs !! j = Some b ->
  gs' !! i = Some a' -> gs' !! j = Some b' ->
  (forall d, map_get proposals (g_id a) = Some d -> map_get proposals (g_id b) = Some d ->
             g_pos a' = g_pos a /\ g_pos b' = g_pos b)
  /\ (g_pos a' <> g_pos a -> g_pos b' <> g_pos b -> g_pos a' <> g_pos b').
Proof.
  intros Hwf Hr Hij Ha Hb Ha' Hb'.
  destruct (resolveMovementConflicts_frame gs proposals Hwf) as (gs0 & Hr0 & _ & H).
  assert (gs0 = gs') as -> by congruence.
  destruct (H i a Ha) as (a0 & Ea & _ & _ & _ & _ & Hpa).
  destruct (H j b Hb) as (b0 & Eb & _ & _ & _ & _ & Hpb).
  assert (a0 = a') as -> by congruence. assert (b0 = b') as -> by congruence.
  destruct Hwf as (Hids & Hkeys & _).
  assert (Hne : g_id a <> g_id b).
  { intros E. apply Hij. eapply NoDup_lookup; [exact Hids|..];
      rewrite list_lookup_fmap; [by rewrite Ha | by rewrite Hb, E]. }
  split.
  - intros d Hda Hdb.
    assert (Hca : g_id a ∈ claimants proposals d)
      by (by apply elem_of_claimants, map_get_elem_of).
    assert (Hcb : g_id b ∈ claimants proposals d)
      by (by apply elem_of_claimants, map_get_elem_of).
    split.
    + destruct Hpa as [? | [Hm Hc]]; [done|].
      assert (Hd : g_pos a' = d) by congruence. rewrite Hd in Hc.
      rewrite Hc in Hcb. by apply list_elem_of_singleton in Hcb.
    + destruct Hpb as [? | [Hm Hc]]; [done|].
      assert (Hd : g_pos b' = d) by congruence. rewrite Hd in Hc.
      rewrite Hc in Hca. by apply list_elem_of_singleton in Hca.
  - intros Hma Hmb E.
    destruct Hpa as [? | [_ Hca]]; [done|]. destruct Hpb as [? | [_ Hcb]]; [done|].
    rewrite E in Hca. congruence.
Qed.

(** X2, an instance: two guards two cells apart both propose the cell
    between them, and both stay where they are. *)
Lemma contested_cell_is_not_entered_witness :
  resolveMovementConflicts contest_guards contest_proposals = Some contest_guards
  /\ g_pos (new_Guard 0 (mkVec 0 0) 8) = mkVec 0 0
  /\ g_pos (new_Guard 1 (mkVec 2 0) 8) = mkVec 2 0.
Proof.
  assert (Hr : resolveMovementConflicts contest_guards contest_proposals
               = Some contest_guards) by (vm_compute; reflexivity).
  split; [exact Hr|].
  destruct (contested_cell_is_not_entered contest_guards contest_guards contest_proposals
              0 1 (new_Guard 0 (mkVec 0 0) 8) (new_Guard 1 (mkVec 2 0) 8)
              (new_Guard 0 (mkVec 0 0) 8) (new_Guard 1 (mkVec 2 0) 8)) as [H _].
  - split; [|split].
    + apply (bool_decide_unpack _). vm_compute. exact I.
    + apply (bool_decide_unpack _). vm_compute. exact I.
    + intros id Hid. exact Hid.
  - exact Hr.
  - lia.
  - reflexivity.
  - reflexivity.
  - reflexivity.
  - reflexivity.
  - exact (H (mkVec 1 0) eq_refl eq_refl).
Defined.

(** X3.  A guard that proposes its own cell stays on it, and no guard
    from another cell ends on it. *)
Theorem held_cell_is_kept (gs gs' : list Guard) (proposals : list (Z * Vec))
    (i j : nat) (a b a' b' : Guard) :
  proposals_for gs proposals ->
  resolveMovementConflicts gs proposals = Some gs' ->
  i <> j ->
  gs !! i = Some a -> gs !! j = Some b ->
  gs' !! i = Some a' -> gs' !! j = Some b' ->
  map_get proposals (g_id a) = Some (g_pos a) ->
  g_pos a' = g_pos a /\ (g_pos b' = g_pos a -> g_pos b = g_pos a).
Proof.
  intros Hwf Hr Hij Ha Hb Ha' Hb' Hhold.
  destruct (resolveMovementConflicts_frame gs proposals Hwf) as (gs0 & Hr0 & _ & H).
  assert (gs0 = gs') as -> by congruence.
  destruct (H i a Ha) as (a0 & Ea & _ & _ & _ & _ & Hpa).
  destruct (H j b Hb) as (b0 & Eb & _ & _ & _ & _ & Hpb).
  assert (a0 = a') as -> by congruence. assert (b0 = b') as -> by congruence.
  destruct Hwf as (Hids & Hkeys & _).
  assert (Hne : g_id a <> g_id b).
  { intros E. apply Hij. eapply NoDup_lookup; [exact Hids|..];
      rewrite list_lookup_fmap; [by rewrite Ha | by rewrite Hb, E]. }
  split.
  - destruct Hpa as [? | [Hm _]]; congruence.
  - intros E. destruct Hpb as [? | [_ Hc]]; [congruence|].
    assert (Hca : g_id a ∈ claimants proposals (g_pos a))
      by (by apply elem_of_claimants, map_get_elem_of).
    rewrite <- E, Hc in Hca. by apply list_elem_of_singleton in Hca.
Qed.

(** X3, an instance: the guard at [(0,0)] proposes its own cell, its
    neighbour proposes that cell too, and the first guard stays on it. *)
Lemma held_cell_is_kept_witness :
  resolveMovementConflicts swap_guards hold_proposals = Some swap_guards
  /\ map_get hold_proposals 0 = Some (mkVec 0 0)
  /\ g_pos (new_Guard 0 (mkVec 0 0) 8) = mkVec 0 0.
Proof.
  assert (Hr : resolveMovementConflicts swap_guards hold_proposals = Some swap_guards)
    by (vm_compute; reflexivity).
  split; [exact Hr|]. split; [reflexivity|].
  destruct (held_cell_is_kept swap_guards swap_guards hold_proposals
              0 1 (new_Guard 0 (mkVec 0 0) 8) (new_Guard 1 (mkVec 1 0) 8)
              (new_Guard 0 (mkVec 0 0) 8) (new_Guard 1 (mkVec 1 0) 8)) as [H _].
  - split; [|split].
    + apply (bool_decide_unpack _). vm_compute. exact I.
    + apply (bool_decide_unpack _). vm_compute. exact I.
    + intros id Hid. exact Hid.
  - exact Hr.
  - lia.
  - reflexivity.
  - reflexivity.
  - reflexivity.
  - reflexivity.
  - reflexivity.
  - exact H.
Defined.

(** ** The next step: [getNextStep] follows [getPathDistance] *)

Lemma js_insert_fmap {A B : Type} (fn : A -> B) (cmpA : A -> A -> Z) (cmpB : B -> B -> Z)
    (x : A) (xs : list A) :
  (forall a b, cmpA a b = cmpB (fn a) (fn b)) ->
  fn <$> js_insert cmpA x xs = js_insert cmpB (fn x) (fn <$> xs).
Proof.
  intros Hcmp. induction xs as [|y xs IH]; csimpl; [done|].
  rewrite <- Hcmp. destruct (cmpA x y <=? 0); csimpl; [done|]. by f_equal.
Qed.

Lemma js_sort_fmap {A B : Type} (fn : A -> B) (cmpA : A -> A -> Z) (cmpB : B -> B -> Z)
    (xs : list A) :
  (forall a b, cmpA a b = cmpB (fn a) (fn b)) ->
  fn <$> js_sort cmpA xs = js_sort cmpB (fn <$> xs).
Proof.
  intros Hcmp. induction xs as [|x xs IH]; csimpl; [done|].
  by rewrite (js_insert_fmap fn cmpA cmpB), IH.
Qed.

Lemma remove_first_fmap {A B : Type} (fn : A -> B) (p : B -> bool) (xs : list A) :
  fn <$> remove_first (fun x => p (fn x)) xs = remove_first p (fn <$> xs).
Proof.
  induction xs as [|x xs IH]; csimpl; [done|].
  destruct (p (fn x)); csimpl; [done|]. by f_equal.
Qed.

Section NextStep.
Import Pathfinder.
Variables (l : Level) (start target : Vec).

Lemma prelax_erase (closedSet : gset Vec) (current : PNode) (openSet : list PNode)
    (gScore : gmap Vec Z) (dir : Vec) :
  relax l target closedSet (erase current) (erase <$> openSet, gScore) dir
  = (erase <$> fst (prelax l target closedSet current (openSet, gScore) dir),
     snd (prelax l target closedSet current (openSet, gScore) dir)).
Proof.
  unfold relax, prelax. simpl.
  destruct (negb _ || _); [done|].
  destruct (lt_Dist _ _); [|done]. simpl.
  rewrite fmap_app. f_equal. f_equal.
  symmetry. apply (remove_first_fmap erase (fun item => equals (pos item) _)).
Qed.

Lemma prelax_all_erase (closedSet : gset Vec) (current : PNode) (dirs : list Vec) :
  forall (openSet : list PNode) (gScore : gmap Vec Z),
    foldl (relax l target closedSet (erase current)) (erase <$> openSet, gScore) dirs
    = (erase <$> fst (foldl (prelax l target closedSet current) (openSet, gScore) dirs),
       snd (foldl (prelax l target closedSet current) (openSet, gScore) dirs)).
Proof.
  induction dirs as [|dir dirs IH]; intros openSet gScore; [done|].
  cbn [foldl]. rewrite prelax_erase.
  destruct (prelax l target closedSet current (openSet, gScore) dir) as [o s].
  apply IH.
Qed.

Lemma prelax_chain (closedSet : gset Vec) (current : PNode) (openSet : list PNode)
    (gScore : gmap Vec Z) (dir : Vec) :
  dir ∈ directions ->
  chain_ok l start current ->
  Forall (chain_ok l start) openSet ->
  Forall (chain_ok l start) (fst (prelax l target closedSet current (openSet, gScore) dir)).
Proof.
  intros Hdir Hcur Hopen. unfold prelax.
  destruct (isPassable l (vadd (ppos current) dir)) eqn:Hp; simpl; [|done].
  destruct (bool_decide _); simpl; [done|].
  destruct (lt_Dist _ _); simpl; [|done].
  apply Forall_app. split.
  - rewrite Forall_forall in Hopen |- *. intros x Hx%elem_of_remove_first. auto.
  - apply Forall_singleton. constructor; try done.
    apply adjacent_directions. by exists dir.
Qed.

Lemma prelax_all_chain (closedSet : gset Vec) (current : PNode) (dirs : list Vec) :
  forall (openSet : list PNode) (gScore : gmap Vec Z),
    (forall dir, dir ∈ dirs -> dir ∈ directions) ->
    chain_ok l start current ->
    Forall (chain_ok l start) openSet ->
    Forall (chain_ok l start)
           (fst (foldl (prelax l target closedSet current) (openSet, gScore) dirs)).
Proof.
  induction dirs as [|dir dirs IH]; intros openSet gScore Hdirs Hcur Hopen; [done|].
  cbn [foldl].
  pose proof (prelax_chain closedSet current openSet gScore dir
                (Hdirs dir (list_elem_of_here _ _)) Hcur Hopen) as Hstep.
  destruct (prelax l target closedSet current (openSet, gScore) dir) as [o s].
  apply IH; [|done|done]. intros d Hd. apply Hdirs. by right.
Qed.

(** The two loops run in step: [getNextStep] stops where
    [getPathDistance] stops, on an entry with the same cell and score. *)
Lemma step_loop_follows (fuel : nat) :
  forall (openSet : list PNode) (closedSet : gset Vec) (gScore : gmap Vec Z),
    Forall (chain_ok l start) openSet ->
    match distance_loop l target fuel (erase <$> openSet) closedSet gScore with
    | None => step_loop l start target fuel openSet closedSet gScore = None
    | Some Infinity => step_loop l start target fuel openSet closedSet gScore = Some start
    | Some (Finite d) =>
        exists n, step_loop l start target fuel openSet closedSet gScore
                  = Some (first_step start n)
                  /\ chain_ok l start n /\ ppos n = target /\ pg n = d
    end.
Proof.
  induction fuel as [|fuel IH]; intros openSet closedSet gScore Hchain; [done|].
  cbn [distance_loop step_loop].
  rewrite <- (js_sort_fmap erase (pcompare target) (compare target)) by done.
  pose proof (js_sort_perm (pcompare target) openSet) as Hperm.
  destruct (js_sort (pcompare target) openSet) as [|current rest]; [done|].
  rewrite <- Hperm in Hchain. apply Forall_cons in Hchain as [Hcur Hrest].
  cbn [fmap list_fmap]. change (pos (erase current)) with (ppos current).
  destruct (equals (ppos current) target) eqn:E.
  - apply equals_eq in E. exists current. done.
  - rewrite prelax_all_erase.
    pose proof (prelax_all_chain ({[ppos current]} ∪ closedSet) current directions rest gScore
                  (fun _ H => H) Hcur Hrest) as Hnext.
    destruct (foldl (prelax l target _ current) (rest, gScore) directions) as [o s].
    by apply IH.
Qed.

Lemma chain_path (n : PNode) :
  chain_ok l start n -> 0 <= pg n /\ path l start (ppos n) (Z.to_nat (pg n)).
Proof.
  induction 1 as [f|p g f par _ [IHg IHp] Hadj Hp ->]; simpl.
  - split; [done | constructor].
  - split; [lia|].
    replace (Z.to_nat (pg par + 1)) with (S (Z.to_nat (pg par))) by lia.
    by eapply path_step.
Qed.

(** Walking up the parents stops on a cell next to the start, and the rest
    of the chain is a path from that cell. *)
Lemma first_step_chain (n : PNode) :
  chain_ok l start n ->
  is_Some (parent n) ->
  exists k, 1 <= k <= pg n
            /\ adjacent start (first_step start n)
            /\ isPassable l (first_step start n) = true
            /\ path l (first_step start n) (ppos n) (Z.to_nat (pg n - k)).
Proof.
  induction 1 as [f|p g f par Hpar IH Hadj Hp ->]; simpl; [by intros [? ?]|].
  intros _. destruct (chain_path par Hpar) as [Hg _].
  destruct (equals (ppos par) start) eqn:E.
  - apply equals_eq in E. exists (pg par + 1). split; [lia|]. rewrite <- E.
    split; [done|]. split; [done|].
    replace (pg par + 1 - (pg par + 1)) with 0 by lia. constructor.
  - destruct Hpar as [f'|p' g' f' par' Hpar' Hadj' Hp' ->].
    { simpl in E. by rewrite equals_refl in E. }
    destruct IH as (k & Hk & Hs & Hps & Hpath); [by eexists|].
    exists k. simpl in *. split; [lia|]. split; [done|]. split; [done|].
    replace (Z.to_nat (pg par' + 1 + 1 - k)) with (S (Z.to_nat (pg par' + 1 - k))) by lia.
    by eapply path_step.
Qed.
End NextStep.

(** ** Path distance and next step *)

Lemma distance_search_exact (l : Level) (a b : Vec) :
  exists r,
    distance_loop_from l a b = Some r /\ exact l a b r.
Proof.
  unfold distance_loop_from.
  apply distance_loop_correct; [apply search_inv_init|].
  pose proof (size_universe l a). rewrite size_empty. lia.
Qed.

Lemma getPathDistance_is_exact (l : Level) (a b : Vec) :
  exact l a b (Pathfinder.getPathDistance l a b).
Proof.
  unfold Pathfinder.getPathDistance, Pathfinder.getPathDistance_fuel.
  destruct (equals a b) eqn:E.
  - apply equals_eq in E as ->. simpl. split; [done|]. split; [constructor | lia].
  - destruct (distance_search_exact l a b) as (r & Hr & Hexact).
    unfold distance_loop_from in Hr. rewrite Hr. done.
Qed.

Lemma adjacent_sym (a b : Vec) : adjacent a b -> adjacent b a.
Proof. unfold adjacent, manhattanDistance. lia. Qed.

Lemma path_first (l : Level) (a c b : Vec) (n : nat) :
  adjacent a c -> isPassable l c = true -> path l c b n -> path l a b (S n).
Proof.
  intros Hadj Hp Hpath.
  apply (path_app l a c b 1 n); [|done]. eapply path_step; [constructor | done | done].
Qed.

Lemma path_reverse (l : Level) (a b : Vec) (n : nat) :
  isPassable l a = true -> path l a b n -> path l b a n.
Proof.
  intros Ha. induction 1 as [|b c n Hpath IH Hadj Hp]; [constructor|].
  eapply path_first; [by apply adjacent_sym | | done].
  by destruct (path_cell _ _ _ _ Hpath) as [-> | ?].
Qed.

Lemma getNextStep_spec (l : Level) (a b : Vec) :
  exists v,
    Pathfinder.getNextStep l a b = Some v
    /\ (a = b -> v = a)
    /\ (Pathfinder.getPathDistance l a b = Infinity -> v = a)
    /\ (forall d, a <> b -> Pathfinder.getPathDistance l a b = Finite d ->
          adjacent a v /\ isPassable l v = true /\ 1 <= d
          /\ shortest l v b (Z.to_nat (d - 1))).
Proof.
  unfold Pathfinder.getNextStep, Pathfinder.getPathDistance,
    Pathfinder.getPathDistance_fuel.
  destruct (equals a b) eqn:E.
  { apply equals_eq in E as ->. exists b. split; [done|]. split; [done|].
    split; [done|]. intros d Hne. done. }
  assert (Hne : a <> b) by (intros ->; by rewrite equals_refl in E).
  destruct (distance_search_exact l a b) as (r & Hr & Hexact).
  unfold distance_loop_from in Hr.
  pose proof (step_loop_follows l a b (Pathfinder.budget l)
                [Pathfinder.mkPNode a 0 (manhattanDistance a b) None] ∅ {[a := 0]}) as Hsim.
  change (erase <$> [Pathfinder.mkPNode a 0 (manhattanDistance a b) None])
    with [Pathfinder.mkNode a 0 (manhattanDistance a b)] in Hsim.
  rewrite Hr in Hsim. rewrite Hr. cbv beta iota. cbn [default].
  specialize (Hsim ltac:(apply Forall_singleton; constructor)).
  destruct r as [d|].
  - destruct Hsim as (n & Hn & Hchain & Hpos & Hg).
    exists (Pathfinder.first_step a n). split; [exact Hn|]. split; [done|].
    split; [done|]. intros d' _ [= <-].
    destruct Hexact as [Hd [Hpath Hmin]].
    assert (Hpar : is_Some (Pathfinder.parent n)).
    { destruct Hchain; simpl in *; [congruence | by eexists]. }
    destruct (first_step_chain l a n Hchain Hpar) as (k & Hk & Hadj & Hp & Hrest).
    rewrite Hpos, Hg in *.
    assert (Hlow : forall m, path l (Pathfinder.first_step a n) b m -> (Z.to_nat d <= S m)%nat).
    { intros m Hm. apply Hmin. by eapply path_first. }
    pose proof (Hlow _ Hrest).
    assert (k = 1) as -> by lia.
    split; [done|]. split; [done|]. split; [lia|]. split; [done|].
    intros m Hm. apply Hlow in Hm. lia.
  - exists a. split; [exact Hsim|]. split; [done|]. split; [done|]. intros d _ [=].
Qed.

(** X4.  [getNextStep(a, b)] always completes within its budget.  It
    returns [a] itself when [b] is [a] or cannot be reached; otherwise it
    returns a Floor cell next to [a] from which [b] is exactly one move
    nearer, that is, the first cell of a shortest path. *)
Theorem getNextStep_first_move (l : Level) (a b : Vec) :
  grid_complete l = true ->
  exists v,
    Pathfinder.getNextStep l a b = Some v
    /\ (a = b -> v = a)
    /\ (Pathfinder.getPathDistance l a b = Infinity -> v = a)
    /\ (forall d, a <> b -> Pathfinder.getPathDistance l a b = Finite d ->
          adjacent a v /\ isPassable l v = true /\ 1 <= d
          /\ shortest l v b (Z.to_nat (d - 1))).
Proof. intros _. apply getNextStep_spec. Qed.

(** X4, an instance: in the room of Floor cells a guard in the corner
    that makes for the centre first steps to the cell on its right. *)
Lemma getNextStep_first_move_witness :
  exists l,
    new_Level room_level = Some l
    /\ Pathfinder.getNextStep l (mkVec 0 0) (mkVec 2 2) = Some (mkVec 1 0)
    /\ shortest l (mkVec 1 0) (mkVec 2 2) 3.
Proof.
  assert (E : exists l, new_Level room_level = Some l) by (vm_compute; eauto).
  destruct E as [l E]. exists l. split; [exact E|].
  vm_compute in E. injection E as <-.
  match goal with
  | |- Pathfinder.getNextStep ?l ?a ?b = _ /\ _ =>
      destruct (getNextStep_first_move l a b) as (v & Hv & _ & _ & Hd);
        [vm_compute; reflexivity|];
      assert (Hs : Pathfinder.getNextStep l a b = Some (mkVec 1 0))
        by (vm_compute; reflexivity);
      assert (Hdist : Pathfinder.getPathDistance l a b = Finite 4)
        by (vm_compute; reflexivity)
  end.
  split; [exact Hs|].
  rewrite Hs in Hv. injection Hv as <-.
  apply (Hd 4); [discriminate | exact Hdist].
Defined.

(** X5.  Between Floor cells the path distance is symmetric:
    [getPathDistance(a, b)] and [getPathDistance(b, a)] agree. *)
Theorem getPathDistance_symmetric (l : Level) (a b : Vec) :
  grid_complete l = true ->
  isPassable l a = true ->
  isPassable l b = true ->
  Pathfinder.getPathDistance l a b = Pathfinder.getPathDistance l b a.
Proof.
  intros _ Ha Hb.
  pose proof (getPathDistance_is_exact l a b) as Hab.
  pose proof (getPathDistance_is_exact l b a) as Hba.
  assert (Hrev : forall x y n, isPassable l x = true -> isPassable l y = true ->
                               shortest l x y n -> shortest l y x n).
  { intros x y n Hx Hy [Hp Hmin]. split; [by apply path_reverse|].
    intros m Hm. apply Hmin. by apply path_reverse. }
  destruct (Pathfinder.getPathDistance l a b) as [d|],
           (Pathfinder.getPathDistance l b a) as [d'|]; simpl in *.
  - destruct Hab as [? Hs], Hba as [? Hs'].
    apply (Hrev b a) in Hs'; [|done..].
    pose proof (shortest_unique _ _ _ _ _ Hs Hs'). f_equal. lia.
  - destruct Hab as [_ [Hp _]]. exfalso. eapply Hba. by apply path_reverse.
  - destruct Hba as [_ [Hp _]]. exfalso. eapply Hab. by apply path_reverse.
  - done.
Qed.

(** X5, an instance: corner to centre and back in the room of Floor
    cells. *)
Lemma getPathDistance_symmetric_witness :
  exists l,
    new_Level room_level = Some l
    /\ Pathfinder.getPathDistance l (mkVec 0 0) (mkVec 2 2)
       = Pathfinder.getPathDistance l (mkVec 2 2) (mkVec 0 0).
Proof.
  assert (E : exists l, new_Level room_level = Some l) by (vm_compute; eauto).
  destruct E as [l E]. exists l. split; [exact E|].
  vm_compute in E. injection E as <-.
  apply getPathDistance_symmetric; vm_compute; reflexivity.
Defined.

(** X6.  A path distance is never below the Manhattan distance (so the
    heuristic of the search never overestimates), and it is never negative. *)
Theorem getPathDistance_at_least_manhattan (l : Level) (a b : Vec) (d : Z) :
  grid_complete l = true ->
  Pathfinder.getPathDistance l a b = Finite d ->
  0 <= manhattanDistance a b <= d.
Proof.
  intros _ Hd. pose proof (getPathDistance_is_exact l a b) as Hex.
  rewrite Hd in Hex. destruct Hex as [Hd0 [Hp _]].
  pose proof (path_heuristic l b a b _ Hp).
  unfold manhattanDistance in *. lia.
Qed.

(** X6, an instance: the two ends of the open corridor are four moves
    apart, which is their Manhattan distance. *)
Lemma getPathDistance_at_least_manhattan_witness :
  exists l,
    new_Level corridor5 = Some l
    /\ Pathfinder.getPathDistance l (mkVec 0 0) (mkVec 4 0) = Finite 4
    /\ 0 <= manhattanDistance (mkVec 0 0) (mkVec 4 0) <= 4.
Proof.
  assert (E : exists l, new_Level corridor5 = Some l) by (vm_compute; eauto).
  destruct E as [l E]. exists l. split; [exact E|].
  vm_compute in E. injection E as <-.
  match goal with
  | |- Pathfinder.getPathDistance ?l ?a ?b = _ /\ _ =>
      assert (Hd : Pathfinder.getPathDistance l a b = Finite 4) by (vm_compute; reflexivity);
      split; [exact Hd|];
      apply (getPathDistance_at_least_manhattan l a b 4); [vm_compute; reflexivity | exact Hd]
  end.
Defined.

(** ** One turn *)

Lemma tick_bombs_from (timers : bool) (bs : list Bomb) :
  forall (ticked : list Bomb) (ticking exploding : list Source),
    foldl (fun acc bomb =>
             let '(ticked, ticking, exploding) := acc in
             let '(bomb', t, e) := tick_bomb timers bomb in
             (ticked ++ [bomb'], ticking ++ t, exploding ++ e))
          (ticked, ticking, exploding) bs
    = (ticked ++ ((fun b => fst (fst (tick_bomb timers b))) <$> bs),
       ticking ++ (bs ≫= fun b => snd (fst (tick_bomb timers b))),
       exploding ++ (bs ≫= fun b => snd (tick_bomb timers b))).
Proof.
  induction bs as [|b bs IH]; intros ticked ticking exploding; csimpl.
  - by rewrite !app_nil_r.
  - destruct (tick_bomb timers b) as [[b' t] e] eqn:E. rewrite IH. csimpl.
    by rewrite <- !app_assoc.
Qed.

Lemma tick_bombs_spec (timers : bool) (bs : list Bomb) :
  tick_bombs timers bs
  = ((fun b => fst (fst (tick_bomb timers b))) <$> bs,
     bs ≫= (fun b => snd (fst (tick_bomb timers b))),
     bs ≫= (fun b => snd (tick_bomb timers b))).
Proof. unfold tick_bombs. by rewrite tick_bombs_from. Qed.

Lemma tick_bomb_state (timers : bool) (b : Bomb) :
  b_state b = TICKING ->
  fst (fst (tick_bomb timers b))
  = if detonates timers b then set_state b EXPLODING else set_timer b (timer b - 1).
Proof.
  intros Hs. unfold tick_bomb, detonates.
  destruct (timers && hasTimer b); simpl; [|done]. by destruct (1 <? timer b).
Qed.

Lemma ticked_exploding (timers : bool) (bs : list Bomb) :
  Forall (fun b => b_state b = TICKING) bs ->
  List.filter (fun b => bool_decide (b_state b = EXPLODING))
              ((fun b => fst (fst (tick_bomb timers b))) <$> bs)
  = (fun b => set_state b EXPLODING) <$> List.filter (detonates timers) bs.
Proof.
  induction 1 as [|b bs Hb _ IH]; csimpl; [done|].
  rewrite (tick_bomb_state timers b Hb). destruct (detonates timers b); csimpl.
  - by rewrite IH.
  - rewrite Hb. simpl. done.
Qed.

Lemma ticked_surviving (timers : bool) (bs : list Bomb) :
  Forall (fun b => b_state b = TICKING) bs ->
  List.filter (fun b => negb (bool_decide (b_state b = EXPLODING)))
              ((fun b => fst (fst (tick_bomb timers b))) <$> bs)
  = (fun b => set_timer b (timer b - 1))
      <$> List.filter (fun b => negb (detonates timers b)) bs.
Proof.
  induction 1 as [|b bs Hb _ IH]; csimpl; [done|].
  rewrite (tick_bomb_state timers b Hb). destruct (detonates timers b); csimpl.
  - done.
  - rewrite Hb. simpl. by rewrite IH.
Qed.

Lemma forallb_pointwise {A : Type} (p q : A -> bool) (xs : list A) :
  (forall x, p x = q x) -> forallb p xs = forallb q xs.
Proof. intros H. induction xs as [|x xs IH]; simpl; [done|]. by rewrite H, IH. Qed.

Lemma hasLineOfSight_ext (l l' : Level) (p q : Vec) :
  config l' = config l -> grid l' = grid l ->
  hasLineOfSight l' p q = hasLineOfSight l p q.
Proof.
  intros Hc Hg. unfold hasLineOfSight.
  destruct ((vx q - vx p =? 0) && (vy q - vy p =? 0)); [done|].
  apply forallb_pointwise. intros i. unfold isWall, isValidPosition, tileAt. by rewrite Hc, Hg.
Qed.

Lemma calculateBlastTiles_ext (l l' : Level) (p : Vec) :
  config l' = config l -> grid l' = grid l ->
  calculateBlastTiles l' p = calculateBlastTiles l p.
Proof.
  intros Hc Hg. unfold calculateBlastTiles, calculateCircularBlast. rewrite Hc.
  apply list_bind_ext; [|reflexivity]. intros x. apply list_bind_ext; [|reflexivity].
  intros y. rewrite (hasLineOfSight_ext l l') by done.
  unfold isValidPosition. by rewrite Hc.
Qed.

Lemma destroy_targets_all (l : Level) (bs : list Bomb) :
  forall ts : list Target,
    foldl (fun ts bomb => destroy_targets (calculateBlastTiles l (b_pos bomb)) ts) ts bs
    = (fun t => set_destroyed t (destroyed t || hit l bs (t_pos t))) <$> ts.
Proof.
  induction bs as [|b bs IH]; intros ts; cbn [foldl].
  - unfold hit. simpl. rewrite <- (list_fmap_id ts) at 1. apply list_fmap_ext.
    intros _ [] _. unfold set_destroyed. simpl. by rewrite orb_false_r.
  - rewrite IH. unfold destroy_targets. rewrite <- list_fmap_compose.
    apply list_fmap_ext. intros _ t _. simpl. unfold hit. simpl.
    destruct (destroyed t) eqn:Hd; simpl; [by rewrite Hd|].
    destruct (existsb _ (calculateBlastTiles l (b_pos b))); simpl; [done|].
    by rewrite Hd.
Qed.

Lemma guard_in_blast_hit (l : Level) (bs : list Bomb) (gs : list Guard) :
  existsb (fun bomb => guard_in_blast (calculateBlastTiles l (b_pos bomb)) gs) bs
  = existsb (fun guard => hit l bs (g_pos guard)) gs.
Proof.
  unfold guard_in_blast, hit.
  induction bs as [|b bs IH]; simpl.
  - induction gs; simpl; auto.
  - rewrite IH. clear IH. induction gs as [|g gs IHg]; simpl; [done|].
    rewrite <- IHg.
    destruct (existsb _ (calculateBlastTiles l (b_pos b))),
             (existsb (fun guard => existsb _ (calculateBlastTiles l (b_pos b))) gs),
             (existsb (fun b0 => existsb _ (calculateBlastTiles l (b_pos b0))) bs),
             (existsb (fun guard => existsb _ bs) gs); done.
Qed.

Lemma hit_states (l : Level) (bs : list Bomb) (fn : Bomb -> Bomb) (p : Vec) :
  (forall b, b_pos (fn b) = b_pos b) -> hit l (fn <$> bs) p = hit l bs p.
Proof.
  intros Hfn. unfold hit. induction bs as [|b bs IH]; csimpl; [done|].
  by rewrite Hfn, IH.
Qed.

Lemma map_set_fresh {V : Type} (k : Z) (v : V) (m : list (Z * V)) :
  k ∉ fst <$> m -> map_set k v m = m ++ [(k, v)].
Proof.
  induction m as [|[k' v'] m IH]; csimpl; [done|].
  intros [Hk Hm]%not_elem_of_cons.
  destruct (k' =? k) eqn:E; [apply Z.eqb_eq in E; congruence|]. by rewrite IH.
Qed.

Lemma decide_guard_spec (l : Level) (turn : Z) (ts es : list Source) (guard : Guard) :
  exists guard' v,
    decide_guard l turn ts es guard = Some (guard', v)
    /\ same_guard guard guard'
    /\ step_from l (g_pos guard) v.
Proof.
  assert (Hstep : forall b, exists v, Pathfinder.getNextStep l (g_pos guard) b = Some v
                                      /\ step_from l (g_pos guard) v).
  { intros b. destruct (getNextStep_spec l (g_pos guard) b) as (v & Hv & Heq & Hinf & Hfin).
    exists v. split; [done|].
    destruct (decide (g_pos guard = b)) as [E | E]; [left; auto|].
    destruct (Pathfinder.getPathDistance l (g_pos guard) b) as [d|]; [|left; auto].
    right. destruct (Hfin d E eq_refl) as (? & ? & _). done. }
  unfold decide_guard.
  destruct (chooseGuardTarget l guard ts es) as [target|].
  - destruct (Hstep (s_pos target)) as (v & -> & Hv). simpl. eexists _, _.
    split; [done|]. split; [done | done].
  - destruct (memory guard) as [m|]; [|eexists _, _; split; [done|]; split; [done | by left]].
    destruct (_ <=? _); [|eexists _, _; split; [done|]; split; [done | by left]].
    destruct (Hstep (m_pos m)) as (v & -> & Hv). simpl. eexists _, _.
    split; [done|]. split; [done | done].
Qed.

Lemma decide_guards_spec (l : Level) (turn : Z) (ts es : list Source) (gs : list Guard) :
  forall proposals : list (Z * Vec),
    NoDup ((fst <$> proposals) ++ (g_id <$> gs)) ->
    exists gs2 vs,
      decide_guards l turn ts es gs proposals
        = Some (gs2, proposals ++ zip (g_id <$> gs) vs)
      /\ Forall2 same_guard gs gs2
      /\ Forall2 (fun guard v => step_from l (g_pos guard) v) gs vs.
Proof.
  induction gs as [|guard gs IH]; intros proposals Hnd; csimpl.
  - exists [], []. rewrite app_nil_r. split; [done|]. split; constructor.
  - destruct (decide_guard_spec l turn ts es guard) as (guard' & v & -> & Hsame & Hv).
    csimpl.
    apply NoDup_app in Hnd as (Hp & Hdisj & Hg). apply NoDup_cons in Hg as [Hg Hgs].
    assert (Hfresh : g_id guard ∉ fst <$> proposals).
    { intros Hin. apply (Hdisj _ Hin). left. }
    rewrite (map_set_fresh _ _ _ Hfresh).
    destruct (IH (proposals ++ [(g_id guard, v)])) as (gs2 & vs & -> & Hgs2 & Hvs).
    { rewrite fmap_app. csimpl. rewrite <- app_assoc. simpl.
      apply NoDup_app. split; [done|]. split; [|by apply NoDup_cons].
      intros x Hx. by apply Hdisj. }
    csimpl. exists (guard' :: gs2), (v :: vs). rewrite <- app_assoc. simpl.
    split; [done|]. split; by constructor.
Qed.

Lemma update_memory_same (l : Level) (turn : Z) (es : list Source) (guard : Guard) :
  same_guard guard (update_memory l turn es guard).
Proof.
  unfold update_memory. destruct (js_sort _ _); [|done].
  destruct (memory guard); [|done]. by destruct (_ <? _).
Qed.

Lemma zip_lookup_key (ids : list Z) (vs : list Vec) (i : nat) (id : Z) (v : Vec) :
  NoDup ids -> length ids = length vs -> ids !! i = Some id -> vs !! i = Some v ->
  map_get (zip ids vs) id = Some v.
Proof.
  intros Hnd Hlen Hid Hv. apply map_get_NoDup.
  - rewrite fst_zip; [done | lia].
  - apply (list_elem_of_lookup_2 _ i). rewrite lookup_zip_with, Hid. simpl. by rewrite Hv.
Qed.

Lemma hit_ext (l l' : Level) (bs : list Bomb) (p : Vec) :
  config l' = config l -> grid l' = grid l -> hit l' bs p = hit l bs p.
Proof.
  intros Hc Hg. unfold hit. induction bs as [|b bs IH]; simpl; [done|].
  by rewrite IH, (calculateBlastTiles_ext l l').
Qed.

Lemma playable_spec (gm : Game) :
  playable gm = true
  <-> grid_complete (level gm) = true
      /\ NoDup (g_id <$> guards (level gm))
      /\ Forall (fun b => b_state b = TICKING) (bombs gm).
Proof.
  unfold playable. rewrite !andb_true_iff, bool_decide_eq_true, forallb_forall, Forall_forall.
  split.
  - intros [[? ?] Hb]. repeat split; try done. intros b Hin.
    apply list_elem_of_In, Hb in Hin. by apply bool_decide_eq_true in Hin.
  - intros (? & ? & Hb). repeat split; try done. intros b Hin.
    apply bool_decide_eq_true, Hb. by apply list_elem_of_In.
Qed.

(** What a turn does to a playable game, phase by phase. *)
Lemma simulateTurn_spec (gm : Game) :
  playable gm = true ->
  let l := level gm in
  let boom := List.filter (detonates (timersAllowed (config l))) (bombs gm) in
  exists gm',
    simulateTurn gm = Some gm'
    /\ turnIndex gm' = turnIndex gm + 1
    /\ bombIdCounter gm' = bombIdCounter gm
    /\ config (level gm') = config l
    /\ grid (level gm') = grid l
    /\ bombs gm'
       = (fun b => set_timer b (timer b - 1))
           <$> List.filter (fun b => negb (detonates (timersAllowed (config l)) b)) (bombs gm)
    /\ targets (level gm')
       = (fun t => set_destroyed t (destroyed t || hit l boom (t_pos t))) <$> targets l
    /\ Forall2 (fun guard guard' =>
                  g_id guard' = g_id guard
                  /\ hearingRadius guard' = hearingRadius guard
                  /\ step_from l (g_pos guard) (g_pos guard'))
               (guards l) (guards (level gm'))
    /\ gameState gm'
       = if existsb (fun guard => hit l boom (g_pos guard)) (guards (level gm')) then LOST
         else if forallb destroyed (targets (level gm')) then WON
         else gameState gm.
Proof.
  intros (Hgrid & Hids & Hticking)%playable_spec l boom. unfold simulateTurn. fold l.
  rewrite tick_bombs_spec.
  destruct (decide_guards_spec l (turnIndex gm + 1)
              (bombs gm ≫= fun b => snd (fst (tick_bomb (timersAllowed (config l)) b)))
              (bombs gm ≫= fun b => snd (tick_bomb (timersAllowed (config l)) b))
              (guards l) []) as (gs2 & vs & -> & Hsame & Hvs); [done|].
  cbn [mbind option_bind app].
  set (proposals := zip (g_id <$> guards l) vs).
  assert (Hlen : length (g_id <$> guards l) = length vs).
  { rewrite length_fmap. by eapply Forall2_length. }
  assert (Hids2 : g_id <$> gs2 = g_id <$> guards l).
  { clear -Hsame. induction Hsame as [|g g' gs gs' (E & _) _ IH]; csimpl; [done|].
    by rewrite E, IH. }
  assert (Hwf : proposals_for gs2 proposals).
  { unfold proposals_for, proposals. rewrite Hids2, fst_zip by lia. done. }
  destruct (resolveMovementConflicts_frame gs2 proposals Hwf) as (gs3 & -> & Hlen3 & H3).
  cbn [mbind option_bind].
  rewrite (ticked_exploding _ _ Hticking), (ticked_surviving _ _ Hticking).
  fold boom. eexists. split; [reflexivity|]. cbn [turnIndex bombIdCounter level bombs gameState].
  set (l3 := with_guards l gs3).
  assert (Hhit : forall p, hit l3 ((fun b => set_state b EXPLODING) <$> boom) p = hit l boom p).
  { intros p. rewrite hit_states by done. by apply hit_ext. }
  assert (Htargets :
    foldl (fun ts bomb => destroy_targets (calculateBlastTiles l3 (b_pos bomb)) ts)
          (targets l) ((fun b => set_state b EXPLODING) <$> boom)
    = (fun t => set_destroyed t (destroyed t || hit l boom (t_pos t))) <$> targets l).
  { rewrite destroy_targets_all. apply list_fmap_ext. intros _ t _. by rewrite Hhit. }
  rewrite Htargets, guard_in_blast_hit.
  do 6 (split; [done|]). split.
  - cbn [guards with_targets with_guards].
    apply Forall2_same_length_lookup. split.
    { rewrite length_fmap, Hlen3. by eapply Forall2_length. }
    intros i guard guard' Hi Hi'. apply list_lookup_fmap_Some in Hi' as (g3 & -> & Hg3).
    destruct (Forall2_lookup_l _ _ _ _ _ Hsame Hi) as (g2 & Hg2 & Eid & Epos & Erad).
    destruct (H3 i g2 Hg2) as (g3' & Hg3' & Eid3 & Erad3 & _ & _ & Hpos).
    assert (g3' = g3) as -> by congruence.
    destruct (update_memory_same l3 (turnIndex gm + 1)
                (bombs gm ≫= fun b => snd (tick_bomb (timersAllowed (config l)) b)) g3)
      as (Eid5 & Epos5 & Erad5).
    split; [congruence|]. split; [congruence|]. rewrite Epos5.
    destruct Hpos as [-> | [Hget _]]; [rewrite Epos; by left|].
    destruct (Forall2_lookup_l _ _ _ _ _ Hvs Hi) as (v & Hv & Hstep).
    rewrite Eid in Hget. unfold proposals in Hget.
    rewrite (zip_lookup_key _ _ i _ v Hids Hlen) in Hget;
      [| apply list_lookup_fmap_Some; by exists guard | done].
    by injection Hget as <-.
  - cbn [guards targets with_targets with_guards].
    assert (Hex : forall gs : list Guard,
              existsb (fun guard => hit l3 ((fun b => set_state b EXPLODING) <$> boom)
                                        (g_pos guard)) gs
              = existsb (fun guard => hit l boom (g_pos guard))
                  (update_memory l3 (turnIndex gm + 1)
                     (bombs gm ≫= fun b => snd (tick_bomb (timersAllowed (config l)) b))
                   <$> gs)).
    { induction gs as [|g gs IH]; csimpl; [done|].
      destruct (update_memory_same l3 (turnIndex gm + 1)
                (bombs gm ≫= fun b => snd (tick_bomb (timersAllowed (config l)) b)) g)
        as (_ & -> & _).
      by rewrite Hhit, IH. }
    by rewrite Hex.
Qed.

Lemma grid_complete_ext (l l' : Level) :
  config l' = config l -> grid l' = grid l -> grid_complete l' = grid_complete l.
Proof.
  intros Hc Hg. unfold grid_complete, cells, tileAt. by rewrite Hc, Hg.
Qed.

Lemma existsb_equals (tiles : list Vec) (p : Vec) :
  existsb (fun tile => equals tile p) tiles = true <-> p ∈ tiles.
Proof.
  rewrite existsb_exists. split.
  - intros (tile & Hin%list_elem_of_In & ->%equals_eq). done.
  - intros Hin. exists p. split; [by apply list_elem_of_In | apply equals_refl].
Qed.

Lemma hit_spec (l : Level) (bs : list Bomb) (p : Vec) :
  hit l bs p = true <-> exists b, b ∈ bs /\ p ∈ calculateBlastTiles l (b_pos b).
Proof.
  unfold hit. rewrite existsb_exists. split.
  - intros (b & Hin%list_elem_of_In & Hb%existsb_equals). eauto.
  - intros (b & Hin & Hb). exists b. split; [by apply list_elem_of_In | by apply existsb_equals].
Qed.

Lemma hit_detonating (l : Level) (timers : bool) (bs : list Bomb) (p : Vec) :
  hit l (List.filter (detonates timers) bs) p = true
  <-> exists b, b ∈ bs /\ detonates timers b = true /\ p ∈ calculateBlastTiles l (b_pos b).
Proof.
  rewrite hit_spec. split.
  - intros (b & [Hin Hd]%list_elem_of_In%filter_In & Hp). exists b.
    split; [by apply list_elem_of_In | done].
  - intros (b & Hin & Hd & Hp). exists b. split; [|done].
    apply list_elem_of_In, filter_In. split; [by apply list_elem_of_In | done].
Qed.

Lemma simulateTurn_frame (gm : Game) :
  playable gm = true ->
  exists gm',
    simulateTurn gm = Some gm'
    /\ playable gm' = true
    /\ turnIndex gm' = turnIndex gm + 1
    /\ bombIdCounter gm' = bombIdCounter gm
    /\ config (level gm') = config (level gm)
    /\ grid (level gm') = grid (level gm)
    /\ g_id <$> guards (level gm') = g_id <$> guards (level gm)
    /\ hearingRadius <$> guards (level gm') = hearingRadius <$> guards (level gm)
    /\ t_id <$> targets (level gm') = t_id <$> targets (level gm)
    /\ t_pos <$> targets (level gm') = t_pos <$> targets (level gm).
Proof.
  intros Hp. destruct (simulateTurn_spec gm Hp)
    as (gm' & Hs & Hturn & Hctr & Hc & Hg & Hb & Ht & Hgs & _).
  apply playable_spec in Hp as (Hgrid & Hids & Hticking).
  assert (Hid' : g_id <$> guards (level gm') = g_id <$> guards (level gm)).
  { clear -Hgs. induction Hgs as [|g g' gs gs' (E & _) _ IH]; csimpl; [done|].
    by rewrite E, IH. }
  exists gm'. split; [done|]. split; [|repeat split; try done].
  - apply playable_spec. split; [|split].
    + by rewrite (grid_complete_ext (level gm) (level gm')).
    + by rewrite Hid'.
    + rewrite Hb. apply Forall_fmap, Forall_forall.
      intros b [Hin _]%list_elem_of_In%filter_In. simpl.
      rewrite Forall_forall in Hticking. by apply Hticking, list_elem_of_In.
  - clear -Hgs. induction Hgs as [|g g' gs gs' (_ & E & _) _ IH]; csimpl; [done|].
    by rewrite E, IH.
  - rewrite Ht, <- list_fmap_compose. by apply list_fmap_ext.
  - rewrite Ht, <- list_fmap_compose. by apply list_fmap_ext.
Qed.

(** X7.  A turn always completes on a playable game (a grid that stores
    every in-bounds cell, distinct guard ids, no bomb left in state
    [EXPLODING]): the pathfinder never exhausts its iteration limit and the
    arbitration never meets a missing guard.  The turn counter goes up by
    one; the configuration, the grid, the bomb id counter, the guards' ids
    and hearing radius and the targets' ids and cells are unchanged; and the
    game afterwards is playable again. *)
Theorem simulateTurn_completes (gm : Game) :
  playable gm = true ->
  exists gm',
    simulateTurn gm = Some gm'
    /\ playable gm' = true
    /\ turnIndex gm' = turnIndex gm + 1
    /\ bombIdCounter gm' = bombIdCounter gm
    /\ config (level gm') = config (level gm)
    /\ grid (level gm') = grid (level gm)
    /\ g_id <$> guards (level gm') = g_id <$> guards (level gm)
    /\ hearingRadius <$> guards (level gm') = hearingRadius <$> guards (level gm)
    /\ t_id <$> targets (level gm') = t_id <$> targets (level gm)
    /\ t_pos <$> targets (level gm') = t_pos <$> targets (level gm).
Proof. exact (simulateTurn_frame gm). Qed.

(** X7, an instance: the first turn of the two guards in file. *)
Lemma simulateTurn_completes_witness :
  exists gm gm',
    file_game = Some gm /\ playable gm = true
    /\ simulateTurn gm = Some gm' /\ playable gm' = true /\ turnIndex gm' = turnIndex gm + 1.
Proof.
  assert (E : exists gm, file_game = Some gm) by (vm_compute; eauto).
  destruct E as [gm E].
  assert (Hp : playable gm = true) by (concrete E; vm_compute; reflexivity).
  destruct (simulateTurn_completes gm Hp) as (gm' & Hs & Hp' & Ht & _).
  exists gm, gm'. repeat split; assumption.
Defined.

(** X8.  In one turn a guard stays on its cell or moves to one of the four
    neighbouring cells, and a cell it moves to is an in-bounds Floor cell:
    guards never jump, never move diagonally and never enter a Wall or Void
    cell. *)
Theorem guard_moves_one_step (gm gm' : Game) (i : nat) (guard guard' : Guard) :
  playable gm = true ->
  simulateTurn gm = Some gm' ->
  guards (level gm) !! i = Some guard ->
  guards (level gm') !! i = Some guard' ->
  g_pos guard' = g_pos guard
  \/ (adjacent (g_pos guard) (g_pos guard') /\ isPassable (level gm) (g_pos guard') = true).
Proof.
  intros Hp Hs Hi Hi'. destruct (simulateTurn_spec gm Hp)
    as (gm0 & Hs0 & _ & _ & _ & _ & _ & _ & Hgs & _).
  assert (gm0 = gm') as -> by congruence.
  destruct (Forall2_lookup_l _ _ _ _ _ Hgs Hi) as (g0 & Hg0 & _ & _ & Hstep).
  assert (g0 = guard') as -> by congruence.
  destruct Hstep as [-> | ?]; auto.
Qed.

(** X8, an instance: the guard in front, in the first turn of the two
    guards in file. *)
Lemma guard_moves_one_step_witness :
  exists gm gm' guard guard',
    file_game = Some gm /\ simulateTurn gm = Some gm'
    /\ guards (level gm) !! 0%nat = Some guard
    /\ guards (level gm') !! 0%nat = Some guard'
    /\ (g_pos guard' = g_pos guard
        \/ (adjacent (g_pos guard) (g_pos guard')
            /\ isPassable (level gm) (g_pos guard') = true)).
Proof.
  assert (E : exists gm, file_game = Some gm) by (vm_compute; eauto).
  destruct E as [gm E].
  assert (Hp : playable gm = true) by (concrete E; vm_compute; reflexivity).
  assert (E' : exists gm', simulateTurn gm = Some gm') by (concrete E; vm_compute; eauto).
  destruct E' as [gm' E'].
  assert (G : exists guard, guards (level gm) !! 0%nat = Some guard)
    by (concrete E; vm_compute; eauto).
  destruct G as [guard G].
  assert (G' : exists guard', guards (level gm') !! 0%nat = Some guard')
    by (concrete E; concrete E'; vm_compute; eauto).
  destruct G' as [guard' G'].
  exists gm, gm', guard, guard'. do 4 (split; [assumption|]).
  exact (guard_moves_one_step gm gm' 0 guard guard' Hp E' G G').
Defined.

(** X9.  A target is destroyed after the turn exactly when it was
    destroyed before or its cell is a blast tile of a bomb that detonates in
    this turn; a destroyed target never comes back, and targets keep their
    place in the array, their id and their cell. *)
Theorem target_destroyed_iff (gm gm' : Game) (i : nat) (t t' : Target) :
  playable gm = true ->
  simulateTurn gm = Some gm' ->
  targets (level gm) !! i = Some t ->
  targets (level gm') !! i = Some t' ->
  t_id t' = t_id t /\ t_pos t' = t_pos t
  /\ (destroyed t' = true
      <-> destroyed t = true
          \/ exists b, b ∈ bombs gm
                       /\ detonates (timersAllowed (config (level gm))) b = true
                       /\ t_pos t ∈ calculateBlastTiles (level gm) (b_pos b)).
Proof.
  intros Hp Hs Hi Hi'. destruct (simulateTurn_spec gm Hp)
    as (gm0 & Hs0 & _ & _ & _ & _ & _ & Ht & _).
  assert (gm0 = gm') as -> by congruence.
  rewrite Ht, list_lookup_fmap, Hi in Hi'. injection Hi' as <-. simpl.
  split; [done|]. split; [done|].
  by rewrite orb_true_iff, hit_detonating.
Qed.

(** X9, an instance: the target of the corridor, in the first turn of the
    two guards in file. *)
Lemma target_destroyed_iff_witness :
  exists gm gm' t t',
    file_game = Some gm /\ simulateTurn gm = Some gm'
    /\ targets (level gm) !! 0%nat = Some t
    /\ targets (level gm') !! 0%nat = Some t'
    /\ t_id t' = t_id t /\ t_pos t' = t_pos t.
Proof.
  assert (E : exists gm, file_game = Some gm) by (vm_compute; eauto).
  destruct E as [gm E].
  assert (Hp : playable gm = true) by (concrete E; vm_compute; reflexivity).
  assert (E' : exists gm', simulateTurn gm = Some gm') by (concrete E; vm_compute; eauto).
  destruct E' as [gm' E'].
  assert (G : exists t, targets (level gm) !! 0%nat = Some t)
    by (concrete E; vm_compute; eauto).
  destruct G as [t G].
  assert (G' : exists t', targets (level gm') !! 0%nat = Some t')
    by (concrete E; concrete E'; vm_compute; eauto).
  destruct G' as [t' G'].
  exists gm, gm', t, t'. do 4 (split; [assumption|]).
  destruct (target_destroyed_iff gm gm' 0 t t' Hp E' G G') as (Hid & Hpos & _).
  split; assumption.
Defined.

(** X10.  The bombs left after a turn are, in order, the bombs that did
    not detonate, each with its timer one lower; a bomb detonates unless the
    level allows timers, the bomb has one and it shows more than 1.  In a
    level without timers no bomb survives a turn. *)
Theorem bombs_after_turn (gm gm' : Game) :
  playable gm = true ->
  simulateTurn gm = Some gm' ->
  bombs gm'
  = (fun b => set_timer b (timer b - 1))
      <$> List.filter (fun b => timersAllowed (config (level gm)) && hasTimer b
                                && (1 <? timer b)) (bombs gm)
  /\ (timersAllowed (config (level gm)) = false -> bombs gm' = []).
Proof.
  intros Hp Hs. destruct (simulateTurn_spec gm Hp)
    as (gm0 & Hs0 & _ & _ & _ & _ & Hb & _).
  assert (gm0 = gm') as -> by congruence.
  assert (E : bombs gm'
              = (fun b => set_timer b (timer b - 1))
                  <$> List.filter (fun b => timersAllowed (config (level gm)) && hasTimer b
                                            && (1 <? timer b)) (bombs gm)).
  { rewrite Hb. f_equal. apply filter_ext. intros b. unfold detonates.
    by rewrite negb_involutive. }
  split; [done|]. intros Hno. rewrite E, Hno.
  assert (Hnone : forall bs : list Bomb,
            List.filter (fun b => false && hasTimer b && (1 <? timer b)) bs = []).
  { induction bs as [|b bs IH]; [done | exact IH]. }
  by rewrite Hnone.
Qed.

(** X10, an instance: the level of the two guards in file has no timers,
    and the bomb is gone after the first turn. *)
Lemma bombs_after_turn_witness :
  exists gm gm',
    file_game = Some gm /\ simulateTurn gm = Some gm' /\ bombs gm' = [].
Proof.
  assert (E : exists gm, file_game = Some gm) by (vm_compute; eauto).
  destruct E as [gm E].
  assert (Hp : playable gm = true) by (concrete E; vm_compute; reflexivity).
  assert (E' : exists gm', simulateTurn gm = Some gm') by (concrete E; vm_compute; eauto).
  destruct E' as [gm' E'].
  assert (Hno : timersAllowed (config (level gm)) = false)
    by (concrete E; vm_compute; reflexivity).
  exists gm, gm'. do 2 (split; [assumption|]).
  destruct (bombs_after_turn gm gm' Hp E') as [_ H]. exact (H Hno).
Defined.

(** X11.  The outcome of a turn.  If, after the guards have moved, a
    guard stands on a blast tile of a bomb that detonates in this turn, the
    game is LOST, whatever the targets; otherwise, if every target is
    destroyed (also when the level has no target at all) the game is WON;
    otherwise the state is the one before the turn. *)
Theorem turn_outcome (gm gm' : Game) :
  playable gm = true ->
  simulateTurn gm = Some gm' ->
  let caught :=
    exists guard b,
      guard ∈ guards (level gm') /\ b ∈ bombs gm
      /\ detonates (timersAllowed (config (level gm))) b = true
      /\ g_pos guard ∈ calculateBlastTiles (level gm) (b_pos b) in
  let cleared := Forall (fun t => destroyed t = true) (targets (level gm')) in
  (caught -> gameState gm' = LOST)
  /\ (~ caught -> cleared -> gameState gm' = WON)
  /\ (~ caught -> ~ cleared -> gameState gm' = gameState gm).
Proof.
  intros Hp Hs caught cleared. destruct (simulateTurn_spec gm Hp)
    as (gm0 & Hs0 & _ & _ & _ & _ & _ & _ & _ & Hstate).
  assert (gm0 = gm') as -> by congruence.
  assert (Hcaught :
    existsb (fun guard =>
               hit (level gm)
                   (List.filter (detonates (timersAllowed (config (level gm)))) (bombs gm))
                   (g_pos guard)) (guards (level gm')) = true <-> caught).
  { rewrite existsb_exists. unfold caught. split.
    - intros (guard & Hin%list_elem_of_In & (b & ? & ? & ?)%hit_detonating). eauto 10.
    - intros (guard & b & Hin & ? & ? & ?). exists guard.
      split; [by apply list_elem_of_In|]. apply hit_detonating. eauto. }
  assert (Hcleared : forallb destroyed (targets (level gm')) = true <-> cleared).
  { unfold cleared. rewrite forallb_forall, Forall_forall. split.
    - intros H t Hin. by apply H, list_elem_of_In.
    - intros H t Hin%list_elem_of_In. by apply H. }
  rewrite Hstate. repeat split.
  - intros Hc%Hcaught. by rewrite Hc.
  - intros Hn Hc%Hcleared. destruct (existsb _ (guards _)); [by destruct Hn; apply Hcaught|].
    by rewrite Hc.
  - intros Hn Hc. destruct (existsb _ (guards _)); [by destruct Hn; apply Hcaught|].
    destruct (forallb _ _); [by destruct Hc; apply Hcleared | done].
Qed.

(** X11, an instance: with the bomb at [(3,0)] both guards of the file
    end the first turn inside the blast, and the game is LOST. *)
Lemma turn_outcome_witness :
  exists gm gm',
    ambush_game = Some gm /\ simulateTurn gm = Some gm' /\ gameState gm' = LOST.
Proof.
  assert (E : exists gm, ambush_game = Some gm) by (vm_compute; eauto).
  destruct E as [gm E].
  assert (Hp : playable gm = true) by (concrete E; vm_compute; reflexivity).
  assert (E' : exists gm', simulateTurn gm = Some gm') by (concrete E; vm_compute; eauto).
  destruct E' as [gm' E'].
  exists gm, gm'. do 2 (split; [assumption|]).
  assert (Hno : timersAllowed (config (level gm)) = false)
    by (concrete E; vm_compute; reflexivity).
  assert (G : exists guard, guards (level gm') !! 0%nat = Some guard
                            /\ g_pos guard = mkVec 1 0)
    by (concrete E; concrete E'; vm_compute; eauto).
  destruct G as (guard & G & Hpos).
  assert (B : exists b, bombs gm !! 0%nat = Some b /\ b_pos b = mkVec 3 0)
    by (concrete E; vm_compute; eauto).
  destruct B as (b & B & Hb).
  destruct (turn_outcome gm gm' Hp E') as [H _]. apply H.
  exists guard, b. split; [|split; [|split]].
  - exact (list_elem_of_lookup_2 _ _ _ G).
  - exact (list_elem_of_lookup_2 _ _ _ B).
  - rewrite Hno. reflexivity.
  - rewrite Hpos, Hb. concrete E. apply (bool_decide_unpack _). vm_compute. exact I.
Defined.

(** ** Play: what every reachable game satisfies *)

Lemma add_guards_ids (c : Config) (gs : list GuardData) :
  g_id <$> add_guards c gs = Z.of_nat <$> seq 0 (length gs).
Proof.
  unfold add_guards. apply list_eq. intros j.
  rewrite !list_lookup_fmap, list_lookup_imap.
  destruct (gs !! j) as [gd|] eqn:E; simpl.
  - rewrite lookup_seq_lt by (by eapply lookup_lt_Some). done.
  - rewrite lookup_seq_ge by (by apply lookup_ge_None). done.
Qed.

Lemma add_guards_NoDup (c : Config) (gs : list GuardData) :
  NoDup (g_id <$> add_guards c gs).
Proof.
  rewrite add_guards_ids. apply NoDup_fmap; [apply _ | apply NoDup_seq].
Qed.

Lemma bombsThisTurn_app (gm : Game) (bs : list Bomb) (b : Bomb) :
  bombs gm = bs ->
  forall gm', bombs gm' = bs ++ [b] -> turnIndex gm' = turnIndex gm ->
              turnPlaced b = turnIndex gm ->
              bombsThisTurn gm' = bombsThisTurn gm + 1.
Proof.
  intros Hb gm' Hb' Ht Hp. unfold bombsThisTurn. rewrite Hb, Hb', Ht, filter_app, length_app.
  rewrite filter_cons_True by done. simpl. lia.
Qed.

Lemma level_kept_refl (l : Level) : level_kept l l.
Proof. by repeat split. Qed.

Lemma loadLevel_bombs_ok (gm : Game) :
  bombs gm = [] -> bombs_ok gm.
Proof.
  intros Hb. split; unfold bombsThisTurn; rewrite ?Hb; try (by constructor).
  all: simpl; try lia.
Qed.

Lemma loadLevel_with_history_ok (ld : LevelData) (s : Session) :
  loadLevel_with_history ld = Some s ->
  gridSize (config (level (game s))) <= MAX_GRID_SIZE ->
  session_ok (level (game s)) s.
Proof.
  unfold loadLevel_with_history, loadLevel.
  destruct (new_Level ld) as [l|] eqn:El; [|done]. simpl. intros [= <-]. simpl.
  intros Hsize. split; [|split; [|split]].
  - apply playable_spec. simpl. split; [by eapply new_Level_grid_complete|]. split; [|done].
    apply new_Level_Some in El as (g & ts & gs & _ & _ & _ & ->).
    simpl. apply add_guards_NoDup.
  - by apply loadLevel_bombs_ok.
  - apply level_kept_refl.
  - done.
Qed.

Lemma find_none_positions (pos : Vec) (bs : list Bomb) :
  List.find (fun bomb => equals (b_pos bomb) pos) bs = None -> pos ∉ b_pos <$> bs.
Proof.
  intros Hf (b & -> & Hin)%list_elem_of_fmap.
  apply list_elem_of_In in Hin. eapply find_none in Hf; [|exact Hin].
  simpl in Hf. by rewrite equals_refl in Hf.
Qed.

Lemma placeBomb_ok (gm : Game) (pos : Vec) :
  bombs_ok gm ->
  (timersAllowed (config (level gm)) = true -> pos ∉ b_pos <$> bombs gm) ->
  bombs_ok (snd (placeBomb gm pos))
  /\ level (snd (placeBomb gm pos)) = level gm
  /\ turnIndex (snd (placeBomb gm pos)) = turnIndex gm
  /\ gameState (snd (placeBomb gm pos)) = gameState gm.
Proof.
  intros Hok Hfree. unfold placeBomb.
  destruct (negb (canPlaceBomb (level gm) pos)); [done|].
  destruct (ge_limit _ _) eqn:Ecap; [done|].
  destruct (_ <=? bombsThisTurn gm) eqn:Eturn; [done|]. apply Z.leb_gt in Eturn.
  simpl. split; [|done]. destruct Hok as [Hids Hfresh Hstate Htimer Hturn Hcap Hturncap Hcells].
  set (b := new_Bomb (bombIdCounter gm) pos (timersAllowed (config (level gm))) (turnIndex gm)).
  split; simpl.
  - rewrite fmap_app. apply NoDup_app. split; [done|]. split; [|apply NoDup_singleton].
    intros id (b' & -> & Hin)%list_elem_of_fmap Hs%list_elem_of_singleton.
    rewrite Forall_forall in Hfresh. specialize (Hfresh b' Hin). simpl in *. lia.
  - apply Forall_app. split.
    + eapply Forall_impl; [exact Hfresh|]. simpl. intros. lia.
    + apply Forall_singleton. simpl. lia.
  - apply Forall_app. split; [done|]. by apply Forall_singleton.
  - apply Forall_app. split; [done|]. apply Forall_singleton. simpl.
    split; [done|]. destruct (timersAllowed _); lia.
  - apply Forall_app. split; [done|]. apply Forall_singleton. simpl. lia.
  - intros m Hm. rewrite length_app. simpl.
    rewrite Hm in Ecap. simpl in Ecap. apply Z.leb_gt in Ecap. lia.
  - erewrite (bombsThisTurn_app gm (bombs gm) b eq_refl); [| done | done | done]. lia.
  - intros Ht. rewrite fmap_app. apply NoDup_app. split; [auto|].
    split; [|apply NoDup_singleton].
    intros p Hin Hs%list_elem_of_singleton. simpl in Hs. subst p. by apply (Hfree Ht).
Qed.

Lemma cycle_first_fmap {A : Type} (fn : Bomb -> A) (pos : Vec) (bs : list Bomb) :
  (forall b, fn (cycleTimer b) = fn b) -> fn <$> cycle_first pos bs = fn <$> bs.
Proof.
  intros Hfn. induction bs as [|b bs IH]; csimpl; [done|].
  destruct (equals (b_pos b) pos); csimpl; by rewrite ?Hfn, ?IH.
Qed.

Lemma cycle_first_Forall (P : Bomb -> Prop) (pos : Vec) (bs : list Bomb) :
  (forall b, P b -> P (cycleTimer b)) -> Forall P bs -> Forall P (cycle_first pos bs).
Proof.
  intros HP. induction 1 as [|b bs Hb Hbs IH]; simpl; [done|].
  destruct (equals (b_pos b) pos); constructor; auto.
Qed.

Lemma cycle_first_length (pos : Vec) (bs : list Bomb) :
  length (cycle_first pos bs) = length bs.
Proof.
  induction bs as [|b bs IH]; simpl; [done|].
  destruct (equals (b_pos b) pos); simpl; by rewrite ?IH.
Qed.

Lemma cycleTimer_fields (b : Bomb) :
  b_id (cycleTimer b) = b_id b /\ b_pos (cycleTimer b) = b_pos b
  /\ hasTimer (cycleTimer b) = hasTimer b /\ b_state (cycleTimer b) = b_state b
  /\ turnPlaced (cycleTimer b) = turnPlaced b.
Proof. unfold cycleTimer. by destruct (hasTimer b) eqn:E. Qed.

Lemma cycleTimer_range (b : Bomb) :
  (if hasTimer b then 1 <= timer b <= 3 else timer b = 1) ->
  if hasTimer (cycleTimer b) then 1 <= timer (cycleTimer b) <= 3
  else timer (cycleTimer b) = 1.
Proof.
  unfold cycleTimer. destruct (hasTimer b) eqn:E; simpl; rewrite ?E; [|done].
  destruct (timer b =? 3) eqn:E3; [lia|]. apply Z.eqb_neq in E3. lia.
Qed.

Lemma cycle_first_thisTurn (turn : Z) (pos : Vec) (bs : list Bomb) :
  length (filter (fun b => turnPlaced b = turn) (cycle_first pos bs))
  = length (filter (fun b => turnPlaced b = turn) bs).
Proof.
  induction bs as [|b bs IH]; simpl; [done|].
  destruct (cycleTimer_fields b) as (_ & _ & _ & _ & Ht).
  destruct (equals (b_pos b) pos).
  - destruct (decide (turnPlaced b = turn)) as [E | E].
    + rewrite !filter_cons_True by congruence. done.
    + rewrite !filter_cons_False by congruence. done.
  - destruct (decide (turnPlaced b = turn)) as [E | E].
    + rewrite !filter_cons_True by congruence. simpl. by rewrite IH.
    + rewrite !filter_cons_False by congruence. done.
Qed.

Lemma cycle_first_ok (gm : Game) (pos : Vec) :
  bombs_ok gm -> bombs_ok (with_bombs gm (cycle_first pos (bombs gm))).
Proof.
  intros [Hids Hfresh Hstate Htimer Hturn Hcap Hturncap Hcells]. split; simpl.
  - rewrite cycle_first_fmap; [done|]. intros b. apply cycleTimer_fields.
  - apply cycle_first_Forall; [|done]. intros b.
    destruct (cycleTimer_fields b) as (-> & _). done.
  - apply cycle_first_Forall; [|done]. intros b.
    destruct (cycleTimer_fields b) as (_ & _ & _ & -> & _). done.
  - apply cycle_first_Forall; [|done]. intros b [Hh Hr]. split.
    + destruct (cycleTimer_fields b) as (_ & _ & -> & _). done.
    + by apply cycleTimer_range.
  - apply cycle_first_Forall; [|done]. intros b.
    destruct (cycleTimer_fields b) as (_ & _ & _ & _ & ->). done.
  - intros m Hm. rewrite cycle_first_length. auto.
  - unfold bombsThisTurn in *. simpl. by rewrite cycle_first_thisTurn.
  - intros Ht. rewrite cycle_first_fmap; [auto|]. intros b. apply cycleTimer_fields.
Qed.

Lemma handleCanvasClick_ok (gm : Game) (clickPos : Vec) :
  bombs_ok gm ->
  bombs_ok (handleCanvasClick gm clickPos)
  /\ level (handleCanvasClick gm clickPos) = level gm
  /\ turnIndex (handleCanvasClick gm clickPos) = turnIndex gm
  /\ gameState (handleCanvasClick gm clickPos) = gameState gm.
Proof.
  intros Hok. unfold handleCanvasClick.
  destruct (negb (bool_decide (gameState gm = PLAYING))); [done|].
  destruct (timersAllowed (config (level gm))) eqn:Ht.
  - destruct (List.find _ (bombs gm)) as [existingBomb|] eqn:Ef.
    + apply find_some in Ef as [Hin _].
      pose proof (bo_timer gm Hok) as Htimer. rewrite Forall_forall in Htimer.
      destruct (Htimer existingBomb (proj2 (list_elem_of_In _ _) Hin)) as [-> _].
      rewrite Ht. split; [by apply cycle_first_ok | done].
    + apply placeBomb_ok; [done|]. intros _. by apply find_none_positions.
  - apply placeBomb_ok; [done|]. by rewrite Ht.
Qed.

Lemma filter_fmap_NoDup {A : Type} (fn : Bomb -> A) (keep : Bomb -> bool) (bs : list Bomb) :
  NoDup (fn <$> bs) -> NoDup (fn <$> List.filter keep bs).
Proof.
  induction bs as [|b bs IH]; csimpl; [done|].
  intros [Hb Hbs]%NoDup_cons. destruct (keep b); csimpl; [|auto].
  apply NoDup_cons. split; [|auto].
  intros (b' & E & [Hin _]%list_elem_of_In%filter_In)%list_elem_of_fmap.
  apply Hb, list_elem_of_fmap. exists b'. split; [done | by apply list_elem_of_In].
Qed.

Lemma filter_Forall (P : Bomb -> Prop) (keep : Bomb -> bool) (bs : list Bomb) :
  Forall P bs -> Forall (fun b => P b /\ keep b = true) (List.filter keep bs).
Proof.
  induction 1 as [|b bs Hb Hbs IH]; simpl; [done|].
  destruct (keep b) eqn:E; [by constructor | done].
Qed.

Lemma simulateTurn_bombs_ok (gm gm' : Game) :
  playable gm = true -> bombs_ok gm -> simulateTurn gm = Some gm' -> bombs_ok gm'.
Proof.
  intros Hp [Hids Hfresh Hstate Htimer Hturn Hcap Hturncap Hcells] Hs.
  destruct (simulateTurn_spec gm Hp)
    as (gm0 & Hs0 & Hturn' & Hctr & Hc & _ & Hb & _).
  assert (gm0 = gm') as -> by congruence.
  set (keep := fun b => negb (detonates (timersAllowed (config (level gm))) b)) in Hb.
  assert (Hall : forall P : Bomb -> Prop,
            Forall P (bombs gm) ->
            (forall b, P b -> keep b = true -> P (set_timer b (timer b - 1))) ->
            Forall P (bombs gm')).
  { intros P HP Hset. rewrite Hb. apply Forall_fmap.
    eapply Forall_impl; [by apply filter_Forall|]. simpl. intros b [? ?]. auto. }
  split; rewrite ?Hc, ?Hctr, ?Hturn'.
  - rewrite Hb, <- list_fmap_compose. by apply (filter_fmap_NoDup (b_id ∘ _)).
  - by apply Hall.
  - by apply Hall.
  - apply Hall; [done|]. intros b [Hh Hr] Hk. simpl. split; [done|].
    unfold keep, detonates in Hk. rewrite negb_involutive in Hk.
    apply andb_true_iff in Hk as [[_ Hh']%andb_true_iff Hgt%Z.ltb_lt].
    rewrite Hh' in *. lia.
  - apply Hall.
    + eapply Forall_impl; [exact Hturn|]. simpl. intros. lia.
    + done.
  - intros m Hm. specialize (Hcap m Hm). rewrite Hb, length_fmap.
    pose proof (filter_length_le keep (bombs gm)). unfold keep in *. lia.
  - unfold bombsThisTurn. rewrite Hturn'.
    assert (Hnone : Forall (fun b => turnPlaced b <> turnIndex gm + 1) (bombs gm')).
    { apply Hall; [|done]. eapply Forall_impl; [exact Hturn|]. simpl. intros. lia. }
    assert (E : filter (fun b => turnPlaced b = turnIndex gm + 1) (bombs gm') = []).
    { clear -Hnone. induction Hnone as [|b bs Hb _ IH]; [done|].
      by rewrite filter_cons_False. }
    rewrite E. simpl. lia.
  - intros Ht. rewrite Hb, <- list_fmap_compose. apply (filter_fmap_NoDup (b_pos ∘ _)). auto.
Qed.

Lemma level_kept_trans (l0 l l' : Level) :
  level_kept l0 l -> level_kept l l' -> level_kept l0 l'.
Proof.
  intros (? & ? & ? & ? & ? & ?) (? & ? & ? & ? & ? & ?). repeat split; congruence.
Qed.

Lemma handle_ok (l0 : Level) (s : Session) (i : Input) :
  session_ok l0 s -> exists s', handle s i = Some s' /\ session_ok l0 s'.
Proof.
  intros (Hp & Hok & Hkept & Hlen). destruct i as [clickPos | |]; simpl.
  - eexists. split; [done|].
    destruct (handleCanvasClick_ok (game s) clickPos Hok) as (Hok' & Hl & _ & _).
    split; [|split; [|split]]; simpl; [| done | by rewrite Hl | done].
    apply playable_spec in Hp as (? & ? & _). apply playable_spec. rewrite Hl.
    split; [done|]. split; [done|]. apply Hok'.
  - unfold endTurn. destruct (negb (bool_decide (gameState (game s) = PLAYING))); simpl.
    + eexists. split; [done|]. exact (conj Hp (conj Hok (conj Hkept Hlen))).
    + destruct (simulateTurn_frame (game s) Hp)
        as (gm' & Hs & Hp' & _ & _ & Hc & Hg & Hids & Hrad & Htid & Htpos).
      rewrite Hs. simpl. eexists. split; [done|].
      split; [|split; [|split]]; simpl; [done | | | done].
      * exact (simulateTurn_bombs_ok (game s) gm' Hp Hok Hs).
      * eapply level_kept_trans; [exact Hkept|]. by repeat split.
  - unfold undo. rewrite Hlen. simpl. eexists. split; [done|].
    exact (conj Hp (conj Hok (conj Hkept Hlen))).
Qed.

Lemma run_ok (l0 : Level) (inputs : list Input) :
  forall s, session_ok l0 s -> exists s', run s inputs = Some s' /\ session_ok l0 s'.
Proof.
  induction inputs as [|i inputs IH]; intros s Hs; simpl; [eauto|].
  destruct (handle_ok l0 s i Hs) as (s1 & -> & Hs1). simpl. auto.
Qed.

Lemma play_ok (ld : LevelData) (s0 s : Session) (inputs : list Input) :
  loadLevel_with_history ld = Some s0 ->
  gridSize (config (level (game s0))) <= MAX_GRID_SIZE ->
  run s0 inputs = Some s ->
  session_ok (level (game s0)) s.
Proof.
  intros Hl Hsize Hr.
  destruct (run_ok (level (game s0)) inputs s0) as (s' & Hr' & Hs').
  - by eapply loadLevel_with_history_ok.
  - congruence.
Qed.

(** X12.  Play never throws.  From a level loaded with a grid size of at
    most 64, every sequence of clicks, ends of turn and undos runs to its
    end, and throughout it the configuration, the grid, the guards' ids and
    hearing radius and the targets' ids and cells are those of the level as
    loaded. *)
Theorem play_never_throws (ld : LevelData) (s0 : Session) (inputs : list Input) :
  loadLevel_with_history ld = Some s0 ->
  gridSize (config (level (game s0))) <= MAX_GRID_SIZE ->
  exists s,
    run s0 inputs = Some s
    /\ playable (game s) = true
    /\ level_kept (level (game s0)) (level (game s)).
Proof.
  intros Hl Hsize.
  destruct (run_ok (level (game s0)) inputs s0) as (s & Hr & Hp & _ & Hk & _).
  - by eapply loadLevel_with_history_ok.
  - eauto.
Qed.

(** X12, an instance: the level with timers, a bomb placed and cycled,
    the end of the turn and an undo. *)
Lemma play_never_throws_witness :
  exists s0 s,
    loadLevel_with_history timer_level = Some s0
    /\ run s0 timer_inputs = Some s /\ playable (game s) = true.
Proof.
  assert (E : exists s0, loadLevel_with_history timer_level = Some s0)
    by (vm_compute; eauto).
  destruct E as [s0 E].
  assert (Hsize : gridSize (config (level (game s0))) <= MAX_GRID_SIZE)
    by (concrete E; vm_compute; discriminate).
  destruct (play_never_throws timer_level s0 timer_inputs E Hsize) as (s & Hr & Hp & _).
  exists s0, s. split; [exact E|]. split; [exact Hr | exact Hp].
Defined.

(** X13.  Between the player's actions the bombs are well formed: their
    ids are distinct and below [bombIdCounter], every bomb is TICKING, a
    bomb has a timer exactly when the level allows timers, and then the
    timer shows 1, 2 or 3 (without timers it is 1). *)
Theorem bombs_stay_well_formed (ld : LevelData) (s0 s : Session) (inputs : list Input) :
  loadLevel_with_history ld = Some s0 ->
  gridSize (config (level (game s0))) <= MAX_GRID_SIZE ->
  run s0 inputs = Some s ->
  NoDup (b_id <$> bombs (game s))
  /\ Forall (fun b => b_id b < bombIdCounter (game s)
                      /\ b_state b = TICKING
                      /\ hasTimer b = timersAllowed (config (level (game s)))
                      /\ if hasTimer b then 1 <= timer b <= 3 else timer b = 1)
            (bombs (game s)).
Proof.
  intros Hl Hsize Hr. destruct (play_ok ld s0 s inputs Hl Hsize Hr) as (_ & Hok & _).
  destruct Hok as [Hids Hfresh Hstate Htimer _ _ _ _]. split; [done|].
  rewrite Forall_forall in *. intros b Hb.
  destruct (Htimer b Hb). repeat split; auto.
Qed.

(** X13, an instance: the same play. *)
Lemma bombs_stay_well_formed_witness :
  exists s0 s,
    loadLevel_with_history timer_level = Some s0
    /\ run s0 timer_inputs = Some s /\ NoDup (b_id <$> bombs (game s)).
Proof.
  assert (E : exists s0, loadLevel_with_history timer_level = Some s0)
    by (vm_compute; eauto).
  destruct E as [s0 E].
  assert (Hsize : gridSize (config (level (game s0))) <= MAX_GRID_SIZE)
    by (concrete E; vm_compute; discriminate).
  assert (R : exists s, run s0 timer_inputs = Some s)
    by (concrete E; vm_compute; eauto).
  destruct R as [s R].
  exists s0, s. split; [exact E|]. split; [exact R|].
  exact (proj1 (bombs_stay_well_formed timer_level s0 s timer_inputs E Hsize R)).
Defined.

(** X14.  The bomb limits hold throughout play: when the level sets
    [maxActiveBombs], the number of bombs on the map never exceeds it, and
    the number of bombs placed in the current turn never exceeds
    [maxBombsPerTurn] (a limit below 0 counting as 0). *)
Theorem bomb_limits_hold (ld : LevelData) (s0 s : Session) (inputs : list Input) :
  loadLevel_with_history ld = Some s0 ->
  gridSize (config (level (game s0))) <= MAX_GRID_SIZE ->
  run s0 inputs = Some s ->
  (forall m, maxActiveBombs (config (level (game s))) = Some m ->
             Z.of_nat (length (bombs (game s))) <= Z.max 0 m)
  /\ bombsThisTurn (game s) <= Z.max 0 (maxBombsPerTurn (config (level (game s)))).
Proof.
  intros Hl Hsize Hr. destruct (play_ok ld s0 s inputs Hl Hsize Hr) as (_ & Hok & _).
  split; apply Hok.
Qed.

(** X14, an instance: the same play. *)
Lemma bomb_limits_hold_witness :
  exists s0 s,
    loadLevel_with_history timer_level = Some s0
    /\ run s0 timer_inputs = Some s
    /\ bombsThisTurn (game s) <= Z.max 0 (maxBombsPerTurn (config (level (game s)))).
Proof.
  assert (E : exists s0, loadLevel_with_history timer_level = Some s0)
    by (vm_compute; eauto).
  destruct E as [s0 E].
  assert (Hsize : gridSize (config (level (game s0))) <= MAX_GRID_SIZE)
    by (concrete E; vm_compute; discriminate).
  assert (R : exists s, run s0 timer_inputs = Some s)
    by (concrete E; vm_compute; eauto).
  destruct R as [s R].
  exists s0, s. split; [exact E|]. split; [exact R|].
  exact (proj2 (bomb_limits_hold timer_level s0 s timer_inputs E Hsize R)).
Defined.

(** X15.  In a level with timers no two bombs ever lie on the same cell:
    a click on a cell that holds a bomb cycles that bomb's timer instead of
    placing a second bomb. *)
Theorem timer_levels_never_stack (ld : LevelData) (s0 s : Session) (inputs : list Input) :
  loadLevel_with_history ld = Some s0 ->
  gridSize (config (level (game s0))) <= MAX_GRID_SIZE ->
  run s0 inputs = Some s ->
  timersAllowed (config (level (game s))) = true ->
  NoDup (b_pos <$> bombs (game s)).
Proof.
  intros Hl Hsize Hr. destruct (play_ok ld s0 s inputs Hl Hsize Hr) as (_ & Hok & _).
  apply Hok.
Qed.

(** X15, an instance: two clicks on the same cell of the level with
    timers leave one bomb there. *)
Lemma timer_levels_never_stack_witness :
  exists s0 s,
    loadLevel_with_history timer_level = Some s0
    /\ run s0 [Click (mkVec 2 0); Click (mkVec 2 0)] = Some s
    /\ NoDup (b_pos <$> bombs (game s)).
Proof.
  assert (E : exists s0, loadLevel_with_history timer_level = Some s0)
    by (vm_compute; eauto).
  destruct E as [s0 E].
  assert (Hsize : gridSize (config (level (game s0))) <= MAX_GRID_SIZE)
    by (concrete E; vm_compute; discriminate).
  assert (R : exists s, run s0 [Click (mkVec 2 0); Click (mkVec 2 0)] = Some s)
    by (concrete E; vm_compute; eauto).
  destruct R as [s R].
  assert (Ht : timersAllowed (config (level (game s))) = true)
    by (concrete E; concrete R; vm_compute; reflexivity).
  exists s0, s. split; [exact E|]. split; [exact R|].
  exact (timer_levels_never_stack timer_level s0 s _ E Hsize R Ht).
Defined.

(** X16.  Undo never changes anything.  [saveGameState] is only called
    when a level is loaded, so the history holds exactly one entry
    throughout play and [undo] returns at its first test. *)
Theorem undo_does_nothing (ld : LevelData) (s0 s : Session) (inputs : list Input) :
  loadLevel_with_history ld = Some s0 ->
  gridSize (config (level (game s0))) <= MAX_GRID_SIZE ->
  run s0 inputs = Some s ->
  length (gameHistory s) = 1%nat /\ undo s = Some s.
Proof.
  intros Hl Hsize Hr. destruct (play_ok ld s0 s inputs Hl Hsize Hr) as (_ & _ & _ & Hlen).
  split; [done|]. unfold undo. by rewrite Hlen.
Qed.

(** X16, an instance: after a bomb was placed and a turn has passed. *)
Lemma undo_does_nothing_witness :
  exists s0 s,
    loadLevel_with_history timer_level = Some s0
    /\ run s0 [Click (mkVec 2 0); EndTurn] = Some s
    /\ undo s = Some s.
Proof.
  assert (E : exists s0, loadLevel_with_history timer_level = Some s0)
    by (vm_compute; eauto).
  destruct E as [s0 E].
  assert (Hsize : gridSize (config (level (game s0))) <= MAX_GRID_SIZE)
    by (concrete E; vm_compute; discriminate).
  assert (R : exists s, run s0 [Click (mkVec 2 0); EndTurn] = Some s)
    by (concrete E; vm_compute; eauto).
  destruct R as [s R].
  exists s0, s. split; [exact E|]. split; [exact R|].
  exact (proj2 (undo_does_nothing timer_level s0 s _ E Hsize R)).
Defined.

(** X17.  The noise a turn of play emits: every ticking source collected
    in the first phase of a turn has level 2 or 3, never 1 (the timer is
    lowered before the noise is read, so a bomb showing 3 is first heard at
    level 2), and every detonation has level 4. *)
Theorem ticking_noise_is_2_or_3 (ld : LevelData) (s0 s : Session) (inputs : list Input) :
  loadLevel_with_history ld = Some s0 ->
  gridSize (config (level (game s0))) <= MAX_GRID_SIZE ->
  run s0 inputs = Some s ->
  let collected := tick_bombs (timersAllowed (config (level (game s)))) (bombs (game s)) in
  Forall (fun source => s_level source = 2 \/ s_level source = 3) (snd (fst collected))
  /\ Forall (fun source => s_level source = 4) (snd collected).
Proof.
  intros Hl Hsize Hr. destruct (play_ok ld s0 s inputs Hl Hsize Hr) as (_ & Hok & _).
  destruct Hok as [_ _ Hstate Htimer _ _ _ _]. simpl. rewrite tick_bombs_spec. simpl.
  rewrite Forall_forall in Hstate, Htimer.
  split; apply Forall_forall; intros source (b & Hsrc & Hb)%list_elem_of_bind;
    specialize (Hstate b Hb); destruct (Htimer b Hb) as [Hh Hrange];
    unfold tick_bomb, getNoiseLevel in Hsrc; simpl in Hsrc; rewrite Hstate in Hsrc;
    destruct (timersAllowed _ && hasTimer b) eqn:E; simpl in Hsrc.
  - apply andb_true_iff in E as [_ E]. rewrite E in *.
    destruct (1 <? timer b) eqn:Et; simpl in Hsrc;
      apply list_elem_of_singleton in Hsrc as ->; simpl.
    + apply Z.ltb_lt in Et. lia.
    + apply Z.ltb_ge in Et. lia.
  - by apply elem_of_nil in Hsrc.
  - destruct (1 <? timer b); simpl in Hsrc; [by apply elem_of_nil in Hsrc|].
    by apply list_elem_of_singleton in Hsrc as ->.
  - by apply list_elem_of_singleton in Hsrc as ->.
Qed.

(** X17, an instance: a bomb placed in the level with timers. *)
Lemma ticking_noise_is_2_or_3_witness :
  exists s0 s,
    loadLevel_with_history timer_level = Some s0
    /\ run s0 [Click (mkVec 2 0)] = Some s
    /\ Forall (fun source => s_level source = 2 \/ s_level source = 3)
              (snd (fst (tick_bombs (timersAllowed (config (level (game s))))
                                    (bombs (game s))))).
Proof.
  assert (E : exists s0, loadLevel_with_history timer_level = Some s0)
    by (vm_compute; eauto).
  destruct E as [s0 E].
  assert (Hsize : gridSize (config (level (game s0))) <= MAX_GRID_SIZE)
    by (concrete E; vm_compute; discriminate).
  assert (R : exists s, run s0 [Click (mkVec 2 0)] = Some s)
    by (concrete E; vm_compute; eauto).
  destruct R as [s R].
  exists s0, s. split; [exact E|]. split; [exact R|].
  exact (proj1 (ticking_noise_is_2_or_3 timer_level s0 s _ E Hsize R)).
Defined.

Lemma handle_game_over (s : Session) (i : Input) :
  gameState (game s) <> PLAYING -> length (gameHistory s) = 1%nat -> handle s i = Some s.
Proof.
  intros Hover Hlen. destruct s as [gm history]. simpl in *.
  destruct i as [clickPos | |]; simpl.
  - unfold handleCanvasClick. by rewrite bool_decide_eq_false_2.
  - unfold endTurn. by rewrite bool_decide_eq_false_2.
  - unfold undo. simpl. by rewrite Hlen.
Qed.

(** X18.  A game that is WON or LOST stays as it is: clicks, ends of turn
    and undos change nothing any more (only loading a level does). *)
Theorem game_over_is_final (ld : LevelData) (s0 s : Session) (inputs more : list Input) :
  loadLevel_with_history ld = Some s0 ->
  gridSize (config (level (game s0))) <= MAX_GRID_SIZE ->
  run s0 inputs = Some s ->
  gameState (game s) <> PLAYING ->
  run s more = Some s.
Proof.
  intros Hl Hsize Hr Hover.
  destruct (play_ok ld s0 s inputs Hl Hsize Hr) as (_ & _ & _ & Hlen).
  induction more as [|i more IH]; simpl; [done|].
  by rewrite handle_game_over.
Qed.

(** X18, an instance: the play on the level with timers ends LOST, and
    further input changes nothing. *)
Lemma game_over_is_final_witness :
  exists s0 s,
    loadLevel_with_history timer_level = Some s0
    /\ run s0 timer_inputs = Some s
    /\ gameState (game s) = LOST
    /\ run s [Click (mkVec 1 0); EndTurn; Undo] = Some s.
Proof.
  assert (E : exists s0, loadLevel_with_history timer_level = Some s0)
    by (vm_compute; eauto).
  destruct E as [s0 E].
  assert (Hsize : gridSize (config (level (game s0))) <= MAX_GRID_SIZE)
    by (concrete E; vm_compute; discriminate).
  assert (R : exists s, run s0 timer_inputs = Some s)
    by (concrete E; vm_compute; eauto).
  destruct R as [s R].
  assert (Hlost : gameState (game s) = LOST)
    by (concrete E; concrete R; vm_compute; reflexivity).
  exists s0, s. split; [exact E|]. split; [exact R|]. split; [exact Hlost|].
  apply (game_over_is_final timer_level s0 s timer_inputs _ E Hsize R).
  rewrite Hlost. discriminate.
Defined.

(** ** Movement conflicts: moves that are made *)

Lemma find_all_fail {A : Type} (p : A -> bool) (xs : list A) :
  (forall x, x ∈ xs -> p x = false) -> List.find p xs = None.
Proof.
  induction xs as [|x xs IH]; simpl; [done|]. intros H.
  rewrite (H x) by left. apply IH. intros y Hy. apply H. by right.
Qed.

Section FreeMove.
Variables (gs : list Guard) (proposals : list (Z * Vec)) (a : Guard) (d : Vec).
Hypothesis wf : proposals_for gs proposals.
Hypothesis a_in : a ∈ gs.
Hypothesis a_proposes : map_get proposals (g_id a) = Some d.
Hypothesis sole : claimants proposals d = [g_id a].
Hypothesis own : forall id, id ∈ claimants proposals (g_pos a) -> id = g_id a.
Hypothesis vacant : forall b, b ∈ gs -> g_pos b = d -> g_id b = g_id a.

Lemma resolve_one_free (validMoves vm : gmap Z Vec) (p : Z * Vec) :
  p ∈ proposals ->
  resolve_one gs proposals (group_by_destination proposals) validMoves p = Some vm ->
  (fst p = g_id a -> vm !! g_id a = Some d)
  /\ (fst p <> g_id a -> vm !! g_id a = validMoves !! g_id a).
Proof.
  destruct wf as (Hids & Hkeys & Hsub).
  destruct p as [guardId destination]. intros Hp. unfold resolve_one.
  destruct (find_guard gs guardId) as [guard|] eqn:Hguard; [|done].
  apply find_guard_Some in Hguard as Hg. destruct Hg as [Hgin Hgid].
  cbn [mbind option_bind fst]. rewrite !group_by_destination_lookup.
  pose proof (map_get_NoDup proposals guardId destination Hkeys Hp) as Hget.
  destruct (decide (guardId = g_id a)) as [-> | Hne].
  - assert (destination = d) as -> by congruence.
    assert (guard = a) as ->.
    { rewrite (find_guard_NoDup gs a Hids a_in) in Hguard. congruence. }
    rewrite sole. cbn [mbind option_bind length]. simpl (1 <? _).
    assert (Hnone : match match claimants proposals (g_pos a) with
                          | [] => None | c => Some c end with
                    | Some ids => List.find (fun id => negb (id =? g_id a)) ids
                    | None => None
                    end = None).
    { destruct (claimants proposals (g_pos a)) as [|c cs] eqn:Ec; [done|].
      apply find_all_fail. intros id Hid. rewrite (own id) by done.
      by rewrite Z.eqb_refl. }
    rewrite Hnone. intros [= <-]. split; [intros _; apply lookup_insert_eq | done].
  - intros Hvm. split; [done|]. intros _.
    destruct (match claimants proposals destination with [] => None | c => Some c end)
      as [cl|]; [|done].
    cbn [mbind option_bind] in Hvm.
    destruct (1 <? Z.of_nat (length cl)).
    { injection Hvm as <-. by rewrite lookup_insert_ne. }
    destruct (match match claimants proposals (g_pos guard) with
                    | [] => None | c => Some c end with
              | Some ids => List.find (fun id => negb (id =? guardId)) ids
              | None => None
              end) as [oid|] eqn:Eoid;
      [|injection Hvm as <-; by rewrite lookup_insert_ne].
    destruct (oid =? 0); [injection Hvm as <-; by rewrite lookup_insert_ne|].
    destruct (map_get proposals oid) as [od|] eqn:Eod;
      [|injection Hvm as <-; by rewrite lookup_insert_ne].
    destruct (equals od (g_pos guard)) eqn:Eeq;
      [|injection Hvm as <-; by rewrite lookup_insert_ne].
    apply equals_eq in Eeq.
    destruct (find_guard gs oid) as [og|]; [|done]. injection Hvm as <-.
    assert (oid <> g_id a).
    { intros ->. apply Hne. rewrite <- Hgid. apply vacant; [done | congruence]. }
    by rewrite !lookup_insert_ne.
Qed.

Lemma resolve_all_free (todo : list (Z * Vec)) :
  forall validMoves vm : gmap Z Vec,
    (forall p, p ∈ todo -> p ∈ proposals) ->
    resolve_all gs proposals (group_by_destination proposals) validMoves todo = Some vm ->
    (g_id a, d) ∈ todo \/ validMoves !! g_id a = Some d ->
    vm !! g_id a = Some d.
Proof.
  induction todo as [|p todo IH]; intros validMoves vm Hsub; simpl.
  - intros [= <-] [?%elem_of_nil | ?]; done.
  - destruct (resolve_one _ _ _ validMoves p) as [vm1|] eqn:E1; [|done]. simpl.
    intros Hall Hcase.
    destruct (resolve_one_free validMoves vm1 p) as [Hself Hother];
      [apply Hsub; left | done |].
    apply (IH vm1 vm); [intros q Hq; apply Hsub; by right | done |].
    destruct (decide (fst p = g_id a)) as [E | E]; [right; auto|].
    rewrite Hother by done.
    destruct Hcase as [[<- | ?]%elem_of_cons | ?]; [by destruct E | by left | by right].
Qed.

Lemma free_move (gs' : list Guard) (i : nat) (a' : Guard) :
  resolveMovementConflicts gs proposals = Some gs' ->
  gs !! i = Some a -> gs' !! i = Some a' ->
  g_pos a' = d.
Proof.
  unfold resolveMovementConflicts.
  destruct (resolve_all _ _ _ ∅ proposals) as [vm|] eqn:E; [|done]. simpl.
  intros [= <-] Hi. unfold apply_moves. rewrite list_lookup_fmap, Hi. simpl.
  rewrite (resolve_all_free proposals ∅ vm); [by intros [= <-] | done | done |].
  left. by apply map_get_elem_of.
Qed.
End FreeMove.

Lemma free_move_at (gs gs' : list Guard) (proposals : list (Z * Vec))
    (i : nat) (a a' : Guard) (d : Vec) :
  proposals_for gs proposals ->
  resolveMovementConflicts gs proposals = Some gs' ->
  gs !! i = Some a -> gs' !! i = Some a' ->
  map_get proposals (g_id a) = Some d ->
  claimants proposals d = [g_id a] ->
  (forall id, id ∈ claimants proposals (g_pos a) -> id = g_id a) ->
  (forall b, b ∈ gs -> g_pos b = d -> g_id b = g_id a) ->
  g_pos a' = d.
Proof.
  intros Hwf Hr Hi Hi' Hd Hsole Hown Hvacant.
  eapply (free_move gs proposals a d); try done.
  by eapply list_elem_of_lookup_2.
Qed.

(** X19.  A guard makes the move it proposed whenever no other guard
    proposes the same cell, no other guard proposes the cell the guard is
    leaving, and no other guard stands on the proposed cell. *)
Theorem free_move_is_made (gs gs' : list Guard) (proposals : list (Z * Vec))
    (i : nat) (a a' : Guard) (d : Vec) :
  proposals_for gs proposals ->
  resolveMovementConflicts gs proposals = Some gs' ->
  gs !! i = Some a -> gs' !! i = Some a' ->
  map_get proposals (g_id a) = Some d ->
  claimants proposals d = [g_id a] ->
  (forall id, id ∈ claimants proposals (g_pos a) -> id = g_id a) ->
  (forall b, b ∈ gs -> g_pos b = d -> g_id b = g_id a) ->
  g_pos a' = d.
Proof.
  exact (free_move_at gs gs' proposals i a a' d).
Qed.

(** X19, an instance: the guard at [(1,0)] proposes the free cell
    [(2,0)] while its neighbour stays put, and it ends there. *)
Lemma free_move_is_made_witness :
  exists gs',
    resolveMovementConflicts swap_guards advance_proposals = Some gs'
    /\ g_pos <$> gs' !! 1%nat = Some (mkVec 2 0).
Proof.
  assert (E : exists gs', resolveMovementConflicts swap_guards advance_proposals = Some gs')
    by (vm_compute; eauto).
  destruct E as [gs' E].
  assert (G : exists a', gs' !! 1%nat = Some a') by (concrete E; vm_compute; eauto).
  destruct G as [a' G].
  exists gs'. split; [exact E|]. rewrite G. simpl. f_equal.
  apply (free_move_is_made swap_guards gs' advance_proposals 1
           (new_Guard 1 (mkVec 1 0) 8) a' (mkVec 2 0)).
  - split; [|split].
    + apply (bool_decide_unpack _). vm_compute. exact I.
    + apply (bool_decide_unpack _). vm_compute. exact I.
    + intros id Hid. exact Hid.
  - exact E.
  - reflexivity.
  - exact G.
  - reflexivity.
  - vm_compute. reflexivity.
  - intros id Hid.
    assert (Hc : claimants advance_proposals (g_pos (new_Guard 1 (mkVec 1 0) 8)) = [])
      by (vm_compute; reflexivity).
    rewrite Hc in Hid. by apply elem_of_nil in Hid.
  - intros b Hb. unfold swap_guards in Hb.
    apply elem_of_cons in Hb as [-> | Hb]; [intros [=]|].
    apply list_elem_of_singleton in Hb as ->. intros [=].
Defined.

(** ** A guard on its own *)

Lemma simulateTurn_guards (gm gm' : Game) :
  simulateTurn gm = Some gm' ->
  let l := level gm in
  let collected := tick_bombs (timersAllowed (config l)) (bombs gm) in
  exists gs2 proposals gs3,
    decide_guards l (turnIndex gm + 1) (snd (fst collected)) (snd collected) (guards l) []
      = Some (gs2, proposals)
    /\ resolveMovementConflicts gs2 proposals = Some gs3
    /\ guards (level gm')
       = update_memory (with_guards l gs3) (turnIndex gm + 1) (snd collected) <$> gs3.
Proof.
  intros Hs l collected. subst l collected. unfold simulateTurn in Hs.
  destruct (tick_bombs _ (bombs gm)) as [[bombs1 ticking] exploding]. simpl.
  destruct (decide_guards _ _ _ _ _ _) as [[gs2 proposals]|] eqn:Hd; [|done].
  cbn [mbind option_bind] in Hs.
  destruct (resolveMovementConflicts gs2 proposals) as [gs3|] eqn:Hr; [|done].
  cbn [mbind option_bind] in Hs. injection Hs as <-.
  exists gs2, proposals, gs3. done.
Qed.

Lemma update_memory_targetPos (l : Level) (turn : Z) (es : list Source) (guard : Guard) :
  targetPos (update_memory l turn es guard) = targetPos guard.
Proof.
  unfold update_memory. destruct (js_sort _ _); [|done].
  destruct (memory guard); [|done]. by destruct (_ <? _).
Qed.

(** X20.  Pursuit.  A guard that is alone in its level and hears a noise
    makes for it along a shortest path: if the source it selects lies [d]
    moves away from it ([d >= 1]), then after the turn the guard is exactly
    [d - 1] moves away from that source, and the source's cell is its
    [targetPos]. *)
Theorem lone_guard_closes_in (gm gm' : Game) (guard : Guard) (target : Source) (d : Z) :
  grid_complete (level gm) = true ->
  guards (level gm) = [guard] ->
  simulateTurn gm = Some gm' ->
  let collected := tick_bombs (timersAllowed (config (level gm))) (bombs gm) in
  chooseGuardTarget (level gm) guard (snd (fst collected)) (snd collected) = Some target ->
  Pathfinder.getPathDistance (level gm) (g_pos guard) (s_pos target) = Finite d ->
  g_pos guard <> s_pos target ->
  exists guard',
    guards (level gm') = [guard']
    /\ g_id guard' = g_id guard
    /\ Pathfinder.getPathDistance (level gm) (g_pos guard') (s_pos target) = Finite (d - 1)
    /\ targetPos guard' = Some (s_pos target).
Proof.
  intros Hp Hlone Hs collected Hchoose Hdist Hne.
  destruct (simulateTurn_guards gm gm' Hs) as (gs2 & proposals & gs3 & Hdecide & Hres & Hgs).
  fold collected in Hdecide, Hgs. rewrite Hlone in Hdecide. simpl in Hdecide.
  unfold decide_guard in Hdecide. rewrite Hchoose in Hdecide.
  destruct (getNextStep_spec (level gm) (g_pos guard) (s_pos target))
    as (v & Hv & _ & _ & Hfin).
  rewrite Hv in Hdecide. simpl in Hdecide. injection Hdecide as <- <-.
  destruct (Hfin d Hne Hdist) as (_ & _ & Hd & Hshort).
  set (g2 := set_targetPos (set_memory guard None) (Some (s_pos target))) in *.
  assert (Hwf : proposals_for [g2] [(g_id guard, v)]).
  { split; [|split]; simpl; [apply NoDup_singleton | apply NoDup_singleton | done]. }
  destruct (resolveMovementConflicts_frame [g2] [(g_id guard, v)] Hwf)
    as (gs3' & Hres' & Hlen & Hframe).
  assert (gs3' = gs3) as -> by congruence.
  destruct (Hframe 0%nat g2 eq_refl) as (g3 & Hg3 & Hid3 & _ & _ & Htp3 & _).
  assert (gs3 = [g3]) as ->.
  { destruct gs3 as [|x [|y ys]]; simpl in Hlen; try lia. simpl in Hg3. congruence. }
  assert (Hpos : g_pos g3 = v).
  { apply (free_move_at [g2] [g3] [(g_id guard, v)] 0 g2 g3 v);
      [done | congruence | done | done | | | |].
    - simpl. by rewrite Z.eqb_refl.
    - unfold claimants. by rewrite filter_cons_True.
    - intros id [= -> _]%elem_of_claimants%list_elem_of_singleton. done.
    - by intros b ->%list_elem_of_singleton. }
  simpl in Hgs. eexists. split; [exact Hgs|].
  destruct (update_memory_same (with_guards (level gm) [g3]) (turnIndex gm + 1)
              (snd collected) g3) as (-> & -> & _).
  rewrite update_memory_targetPos, Hpos, Htp3. split; [done|]. split; [|done].
  pose proof (getPathDistance_is_exact (level gm) v (s_pos target)) as Hex.
  destruct (Pathfinder.getPathDistance (level gm) v (s_pos target)) as [d'|]; simpl in Hex.
  - destruct Hex as [Hd' Hshort']. pose proof (shortest_unique _ _ _ _ _ Hshort Hshort').
    f_equal. lia.
  - destruct Hshort as [Hpath _]. by apply Hex in Hpath.
Qed.

(** X20, an instance: a guard at the west end of a corridor hears the
    detonation six cells away and ends the turn five cells away from it. *)
Lemma lone_guard_closes_in_witness :
  exists gm gm' guard',
    lone_game = Some gm /\ simulateTurn gm = Some gm'
    /\ guards (level gm') = [guard']
    /\ Pathfinder.getPathDistance (level gm) (g_pos guard') (mkVec 6 0) = Finite 5.
Proof.
  assert (E : exists gm, lone_game = Some gm) by (vm_compute; eauto).
  destruct E as [gm E].
  assert (Hgrid : grid_complete (level gm) = true) by (concrete E; vm_compute; reflexivity).
  assert (Hlone : guards (level gm) = [new_Guard 0 (mkVec 0 0) 8])
    by (concrete E; vm_compute; reflexivity).
  assert (E' : exists gm', simulateTurn gm = Some gm') by (concrete E; vm_compute; eauto).
  destruct E' as [gm' E'].
  assert (Hchoose :
    chooseGuardTarget (level gm) (new_Guard 0 (mkVec 0 0) 8)
      (snd (fst (tick_bombs (timersAllowed (config (level gm))) (bombs gm))))
      (snd (tick_bombs (timersAllowed (config (level gm))) (bombs gm)))
    = Some (mkSource (mkVec 6 0) 4)) by (concrete E; vm_compute; reflexivity).
  assert (Hdist :
    Pathfinder.getPathDistance (level gm) (g_pos (new_Guard 0 (mkVec 0 0) 8))
      (s_pos (mkSource (mkVec 6 0) 4)) = Finite 6) by (concrete E; vm_compute; reflexivity).
  destruct (lone_guard_closes_in gm gm' (new_Guard 0 (mkVec 0 0) 8)
              (mkSource (mkVec 6 0) 4) 6 Hgrid Hlone E' Hchoose Hdist)
    as (guard' & Hgs & _ & Hd & _).
  - discriminate.
  - exists gm, gm', guard'. split; [exact E|]. split; [exact E'|]. split; [exact Hgs|].
    exact Hd.
Defined.

(** ** Loading a level: the grid *)

Lemma load_row_skip (size : Z) (drow row : list Z) :
  (0 <? Z.min (Z.of_nat (length drow)) size) = false -> load_row size drow row = row.
Proof.
  intros H%Z.ltb_ge. unfold load_row.
  replace (Z.to_nat (Z.min (Z.of_nat (length drow)) size)) with 0%nat by lia. done.
Qed.

(** Row [y] of the grid after the loop over the descriptor's rows that
    starts at row [y0]. *)
Lemma load_grid_lookup (size : Z) (data : list (MaybeArray Z)) :
  forall (y0 : nat) (g g' : list (list Z)),
    load_grid size y0 data g = Some g' ->
    forall (y : nat) (row : list Z),
      g !! y = Some row ->
      g' !! y = Some (match (if decide (y0 <= y)%nat then data !! (y - y0)%nat else None) with
                      | Some (Arr cells) =>
                          if Z.of_nat y <? size then load_row size cells row else row
                      | _ => row
                      end).
Proof.
  induction data as [|drow data IH]; intros y0 g g'; simpl.
  - intros [= <-] y row Hrow. by destruct (decide _).
  - assert (Hlater : forall y : nat, y <> y0 ->
              (if decide (y0 <= y)%nat then (drow :: data) !! (y - y0)%nat else None)
              = (if decide (S y0 <= y)%nat then data !! (y - S y0)%nat else None)).
    { intros y Hne.
      destruct (decide (S y0 <= y)%nat), (decide (y0 <= y)%nat); try lia; [|done].
      replace (y - y0)%nat with (S (y - S y0)) by lia. done. }
    assert (Hhere : (if decide (y0 <= y0)%nat then (drow :: data) !! (y0 - y0)%nat else None)
                    = Some drow).
    { destruct (decide (y0 <= y0)%nat); [|lia].
      replace (y0 - y0)%nat with 0%nat by lia. done. }
    assert (Hnone : (if decide (S y0 <= y0)%nat then data !! (y0 - S y0)%nat else None)
                    = None).
    { destruct (decide (S y0 <= y0)%nat); [lia | done]. }
    destruct (Z.of_nat y0 <? size) eqn:Hy0.
    + assert (Hskip : load_grid size (S y0) data g = Some g' ->
                forall (y : nat) (row : list Z), g !! y = Some row ->
                (y = y0 -> match drow with
                           | Arr cells => load_row size cells row = row
                           | _ => True
                           end) ->
                g' !! y
                = Some (match (if decide (y0 <= y)%nat
                               then (drow :: data) !! (y - y0)%nat else None) with
                        | Some (Arr cells) =>
                            if Z.of_nat y <? size then load_row size cells row else row
                        | _ => row
                        end)).
      { intros Hload y row Hrow Hsame. rewrite (IH _ _ _ Hload y row Hrow).
        destruct (decide (y = y0)) as [-> | Hne].
        - rewrite Hhere, Hnone. destruct drow as [|truthy|cells]; [done | done |].
          rewrite Hy0. by rewrite Hsame.
        - by rewrite Hlater. }
      destruct drow as [|truthy|cells]; [done | |].
      * intros Hload y row Hrow. by apply Hskip.
      * destruct (0 <? Z.min (Z.of_nat (length cells)) size) eqn:Hn.
        -- destruct (g !! y0) as [row0|] eqn:Hrow0; [|done].
           intros Hload y row Hrow.
           destruct (decide (y = y0)) as [-> | Hne].
           ++ rewrite (IH _ _ _ Hload y0 (load_row size cells row0))
                by (apply list_lookup_insert_eq; by eapply lookup_lt_Some).
              rewrite Hhere, Hnone, Hy0. congruence.
           ++ rewrite (IH _ _ _ Hload y row) by (by rewrite list_lookup_insert_ne).
              by rewrite Hlater.
        -- intros Hload y row Hrow. apply Hskip; [done | done |].
           intros _. by apply load_row_skip.
    + intros [= <-] y row Hrow. apply Z.ltb_ge in Hy0.
      destruct (decide (y0 <= y)%nat); [|done].
      destruct ((drow :: data) !! (y - y0)%nat) as [[|truthy|cells]|]; try done.
      destruct (Z.of_nat y <? size) eqn:Hy; [apply Z.ltb_lt in Hy; lia | done].
Qed.

Lemma load_row_lookup (size : Z) (side : nat) (drow : list Z) (x : nat) :
  Z.of_nat x < size -> size <= Z.of_nat side ->
  load_row size drow (replicate side Tile.VOID) !! x = Some (default Tile.VOID (drow !! x)).
Proof.
  intros Hx Hside. unfold load_row.
  set (n := Z.to_nat (Z.min (Z.of_nat (length drow)) size)).
  destruct (drow !! x) as [t|] eqn:Ex; simpl.
  - assert (x < length drow)%nat by (by eapply lookup_lt_Some).
    rewrite lookup_app_l by (rewrite length_take; lia).
    rewrite lookup_take_lt by lia. done.
  - apply lookup_ge_None in Ex.
    assert (n = length drow) by lia.
    rewrite lookup_app_r by (rewrite length_take; lia).
    rewrite length_take, lookup_drop, lookup_replicate_2; [done | lia].
Qed.

(** *** The layout *)

Lemma set_cell_lookup (row : list Z) (x tile : Z) (j : nat) :
  x < Z.of_nat (length row) ->
  set_cell row x tile !! j
  = if decide (Z.of_nat j = x) then (if decide (j < length row)%nat then Some tile else None)
    else row !! j.
Proof.
  intros Hx. unfold set_cell. destruct (x <? 0) eqn:Hneg.
  - apply Z.ltb_lt in Hneg. destruct (decide (Z.of_nat j = x)); [lia | done].
  - apply Z.ltb_ge in Hneg.
    replace (x <? Z.of_nat (length row)) with true by (symmetry; apply Z.ltb_lt; lia).
    destruct (decide (Z.of_nat j = x)) as [<- | Hne].
    + rewrite Nat2Z.id. destruct (decide (j < length row)%nat); [|lia].
      by apply list_lookup_insert_eq.
    + apply list_lookup_insert_ne. lia.
Qed.

Lemma js_index_cons {A : Type} (x : A) (xs : list A) (i : Z) :
  js_index (x :: xs) i = if decide (i = 0) then Some x else js_index xs (i - 1).
Proof.
  unfold js_index. destruct (decide (i = 0)) as [-> | Hne]; [done|].
  destruct (i <? 0) eqn:Hi.
  - apply Z.ltb_lt in Hi. by replace (i - 1 <? 0) with true by (symmetry; apply Z.ltb_lt; lia).
  - apply Z.ltb_ge in Hi. replace (i - 1 <? 0) with false by (symmetry; apply Z.ltb_ge; lia).
    replace (Z.to_nat i) with (S (Z.to_nat (i - 1))) by lia. done.
Qed.

Lemma js_index_before {A : Type} (xs : list A) (i : Z) : i < 0 -> js_index xs i = None.
Proof. intros Hi. unfold js_index. by replace (i <? 0) with true by (symmetry; apply Z.ltb_lt; lia). Qed.

(** The cells of the grid after one line of the layout was written to
    row [y] from column [x] on. *)
Lemma layout_line_lookup (size : Z) (side : nat) (y : Z) (line : list Z) :
  size <= Z.of_nat side ->
  forall (x : Z) (g g' : list (list Z)),
    square side g ->
    layout_line size x y line g = Some g' ->
    forall xq yq : nat,
      Z.of_nat xq < size -> Z.of_nat yq < size ->
      cell_of g' xq yq
      = match (if decide (Z.of_nat yq = y) then js_index line (Z.of_nat xq - x) else None) with
        | Some char => Some (tile_of_char char)
        | None => cell_of g xq yq
        end.
Proof.
  intros Hsize. induction line as [|char line IH]; intros x g g' Hsq; simpl.
  { intros [= <-] xq yq _ _. destruct (decide _); [|done].
    unfold js_index. by destruct (_ <? 0). }
  destruct ((size <=? x) || (size <=? y)) eqn:Hskip.
  - intros Hload xq yq Hxq Hyq. rewrite (IH _ _ _ Hsq Hload xq yq Hxq Hyq).
    destruct (decide (Z.of_nat yq = y)) as [Hy | Hy]; [|done].
    rewrite js_index_cons.
    apply orb_true_iff in Hskip as [Hx%Z.leb_le | Hy'%Z.leb_le]; [|lia].
    destruct (decide (Z.of_nat xq - x = 0)); [lia|].
    by replace (Z.of_nat xq - (x + 1)) with (Z.of_nat xq - x - 1) by lia.
  - apply orb_false_iff in Hskip as [Hx%Z.leb_gt Hy%Z.leb_gt].
    destruct (y <? 0) eqn:Hneg; [done|]. apply Z.ltb_ge in Hneg.
    destruct (g !! Z.to_nat y) as [row|] eqn:Hrow; [|done].
    intros Hload xq yq Hxq Hyq.
    destruct Hsq as [Hlen Hrows].
    assert (Hrowlen : length row = side).
    { rewrite Forall_forall in Hrows. apply Hrows. by eapply list_elem_of_lookup_2. }
    assert (Hsq1 : square side (<[Z.to_nat y:=set_cell row x (tile_of_char char)]> g)).
    { split; [by rewrite length_insert|]. apply Forall_insert; [done|].
      rewrite set_cell_length; lia. }
    rewrite (IH _ _ _ Hsq1 Hload xq yq Hxq Hyq).
    destruct (decide (Z.of_nat yq = y)) as [Hy' | Hy'].
    + rewrite js_index_cons.
      replace (Z.of_nat xq - (x + 1)) with (Z.of_nat xq - x - 1) by lia.
      destruct (decide (Z.of_nat xq - x = 0)) as [H0 | H0].
      * rewrite js_index_before by lia. unfold cell_of.
        replace yq with (Z.to_nat y) by lia.
        rewrite list_lookup_insert_eq by (by eapply lookup_lt_Some). simpl.
        rewrite set_cell_lookup by lia.
        destruct (decide (Z.of_nat xq = x)); [|lia].
        destruct (decide (xq < length row)%nat); [done | lia].
      * destruct (js_index line (Z.of_nat xq - x - 1)); [done|]. unfold cell_of.
        replace yq with (Z.to_nat y) by lia.
        rewrite list_lookup_insert_eq by (by eapply lookup_lt_Some). rewrite Hrow. simpl.
        rewrite set_cell_lookup by lia.
        destruct (decide (Z.of_nat xq = x)); [lia | done].
    + unfold cell_of. rewrite list_lookup_insert_ne by lia. done.
Qed.

Lemma layout_lines_lookup (size : Z) (side : nat) (startX : Z) (lines : list (list Z)) :
  size <= Z.of_nat side ->
  forall (y : Z) (g g' : list (list Z)),
    square side g ->
    layout_lines size startX y lines g = Some g' ->
    forall xq yq : nat,
      Z.of_nat xq < size -> Z.of_nat yq < size ->
      cell_of g' xq yq
      = match (line ← js_index lines (Z.of_nat yq - y);
               js_index line (Z.of_nat xq - startX)) with
        | Some char => Some (tile_of_char char)
        | None => cell_of g xq yq
        end.
Proof.
  intros Hsize. induction lines as [|line lines IH]; intros y g g' Hsq; simpl.
  { intros [= <-] xq yq _ _. unfold js_index. by destruct (Z.of_nat yq - y <? 0). }
  destruct (layout_line size startX y line g) as [g1|] eqn:H1; [|done]. simpl.
  intros Hload xq yq Hxq Hyq.
  rewrite (IH _ _ _ (layout_line_square _ _ _ _ Hsize _ _ _ Hsq H1) Hload xq yq Hxq Hyq).
  rewrite (layout_line_lookup _ _ _ _ Hsize _ _ _ Hsq H1 xq yq Hxq Hyq).
  rewrite js_index_cons.
  replace (Z.of_nat yq - (y + 1)) with (Z.of_nat yq - y - 1) by lia.
  destruct (decide (Z.of_nat yq - y = 0)) as [H0 | H0].
  - rewrite js_index_before by lia. simpl.
    destruct (decide (Z.of_nat yq = y)); [done | lia].
  - destruct (decide (Z.of_nat yq = y)); [lia|].
    by destruct (js_index lines (Z.of_nat yq - y - 1) ≫= _).
Qed.

Lemma tile_of_loaded_level (ld : LevelData) (l : Level) (pos : Vec) :
  new_Level ld = Some l ->
  gridSize (config l) <= MAX_GRID_SIZE ->
  isValidPosition l pos = true ->
  tileAt l pos = Some (descriptor_tile ld pos).
Proof.
  intros (g & ts & gs & Hg & _ & _ & ->)%new_Level_Some. cbn [config].
  set (c := merge_config DEFAULT_CONFIG (ld_config ld)) in *.
  intros Hsize Hv.
  unfold isValidPosition in Hv. cbn [config] in Hv.
  rewrite !andb_true_iff, !Z.leb_le, !Z.ltb_lt in Hv. destruct pos as [x y].
  cbn [vx vy] in *.
  set (side := Z.to_nat (Z.min (js_or (Some (gridSize c)) (gridSize DEFAULT_CONFIG))
                               MAX_GRID_SIZE)).
  assert (Hside : gridSize c <= Z.of_nat side).
  { pose proof (createEmptyGrid_length c Hsize) as Hlen.
    unfold createEmptyGrid in Hlen. by rewrite length_replicate in Hlen. }
  assert (Hempty : createEmptyGrid c !! Z.to_nat y = Some (replicate side Tile.VOID)).
  { unfold createEmptyGrid. fold side. apply lookup_replicate_2. lia. }
  assert (Hvoid : cell_of (createEmptyGrid c) (Z.to_nat x) (Z.to_nat y) = Some Tile.VOID).
  { unfold cell_of. rewrite Hempty. simpl. apply lookup_replicate_2. lia. }
  unfold tileAt, descriptor_tile. cbn [grid vx vy].
  change (g !! Z.to_nat y ≫= (fun row => row !! Z.to_nat x))
    with (cell_of g (Z.to_nat x) (Z.to_nat y)).
  unfold initialize_grid in Hg.
  assert (Hlayout :
    match ld_layout ld with
    | Str (char :: s) => parseASCIILayout c (ld_bounds ld) (char :: s) (createEmptyGrid c)
    | Str [] | NoString => Some (createEmptyGrid c)
    | NotString => None
    end = Some g ->
    cell_of g (Z.to_nat x) (Z.to_nat y)
    = Some match ld_layout ld with
           | Str layout =>
               default Tile.VOID
                 (line ← js_index (split LINE_FEED (trim layout))
                                  (y - match ld_bounds ld with Some b => vy b | None => 0 end);
                  char ← js_index line
                                  (x - match ld_bounds ld with Some b => vx b | None => 0 end);
                  Some (tile_of_char char))
           | _ => Tile.VOID
           end).
  { destruct (ld_layout ld) as [| |[|char s]]; [by intros [= <-] | done | |].
    - intros [= <-]. rewrite Hvoid. f_equal.
      change (split LINE_FEED (trim [])) with [[] : list Z].
      rewrite js_index_cons. destruct (decide _); simpl.
      + unfold js_index. by destruct (_ <? 0).
      + unfold js_index. by destruct (_ - 1 <? 0).
    - unfold parseASCIILayout. intros Hload.
      rewrite (layout_lines_lookup _ side _ _ Hside _ _ _ (createEmptyGrid_square c) Hload)
        by lia.
      rewrite !Z2Nat.id by lia. rewrite Hvoid.
      destruct (js_index (split LINE_FEED (trim (char :: s))) _) as [line|]; simpl; [|done].
      by destruct (js_index line _). }
  destruct (ld_grid ld) as [|truthy|data]; [by apply Hlayout | by apply Hlayout |].
  unfold cell_of.
  rewrite (load_grid_lookup _ _ _ _ _ Hg _ _ Hempty). cbn [mbind option_bind].
  destruct (decide (0 <= Z.to_nat y)%nat); [|lia].
  replace (Z.to_nat y - 0)%nat with (Z.to_nat y) by lia.
  destruct (data !! Z.to_nat y) as [[|truthy|cells]|].
  - apply lookup_replicate_2. lia.
  - apply lookup_replicate_2. lia.
  - assert (Hy : (Z.of_nat (Z.to_nat y) <? gridSize c) = true) by (apply Z.ltb_lt; lia).
    rewrite Hy. apply load_row_lookup; lia.
  - apply lookup_replicate_2. lia.
Qed.

(** X21.  The grid of a loaded level.  For a grid size of at most 64 the
    tile of every in-bounds cell [(x, y)] is the tile that the descriptor
    gives to it.  When [grid] is an array, that is the entry [grid[y][x]]
    where the descriptor has one, and VOID otherwise: rows and cells that
    the descriptor leaves out, and rows that are no arrays, are VOID.  When
    [grid] is no array and [layout] is a string, it is the tile of the
    character at line [y - bounds.y] and column [x - bounds.x] of the
    trimmed layout (Wall for [#], Floor for [.], [G], [T] and [S], Void for
    any other), and VOID where there is no such character.  With neither it
    is VOID.  No entity changes a tile. *)
Theorem loaded_tile (ld : LevelData) (l : Level) (pos : Vec) :
  new_Level ld = Some l ->
  gridSize (config l) <= MAX_GRID_SIZE ->
  isValidPosition l pos = true ->
  tileAt l pos = Some (descriptor_tile ld pos).
Proof. exact (tile_of_loaded_level ld l pos). Qed.

(** X21, instances: the ragged descriptor, whose second row has three
    cells for a grid of side 2 and whose first row has one; and the layout
    of two lines placed at [(1,1)]. *)
Lemma loaded_tile_witness :
  (exists l,
     new_Level ragged_level = Some l
     /\ tileAt l (mkVec 1 0) = Some Tile.VOID
     /\ tileAt l (mkVec 1 1) = Some Tile.FLOOR)
  /\ (exists l,
        new_Level layout_level = Some l
        /\ tileAt l (mkVec 1 1) = Some Tile.WALL
        /\ tileAt l (mkVec 1 2) = Some Tile.FLOOR
        /\ tileAt l (mkVec 0 0) = Some Tile.VOID).
Proof.
  split.
  - assert (E : exists l, new_Level ragged_level = Some l) by (vm_compute; eauto).
    destruct E as [l E].
    assert (Hsize : gridSize (config l) <= MAX_GRID_SIZE)
      by (concrete E; vm_compute; discriminate).
    exists l. split; [exact E|]. split.
    + rewrite (loaded_tile ragged_level l (mkVec 1 0) E Hsize); [reflexivity|].
      concrete E. vm_compute. reflexivity.
    + rewrite (loaded_tile ragged_level l (mkVec 1 1) E Hsize); [reflexivity|].
      concrete E. vm_compute. reflexivity.
  - assert (E : exists l, new_Level layout_level = Some l) by (vm_compute; eauto).
    destruct E as [l E].
    assert (Hsize : gridSize (config l) <= MAX_GRID_SIZE)
      by (concrete E; vm_compute; discriminate).
    exists l. split; [exact E|]. split; [|split].
    + rewrite (loaded_tile layout_level l (mkVec 1 1) E Hsize); [reflexivity|].
      concrete E. vm_compute. reflexivity.
    + rewrite (loaded_tile layout_level l (mkVec 1 2) E Hsize); [reflexivity|].
      concrete E. vm_compute. reflexivity.
    + rewrite (loaded_tile layout_level l (mkVec 0 0) E Hsize); [reflexivity|].
      concrete E. vm_compute. reflexivity.
Defined.

(** ** The level editor: what drawing keeps *)

Lemma remove_first_NoDup {A K : Type} (key : A -> K) (p : A -> bool) (xs : list A) :
  NoDup (key <$> xs) -> NoDup (key <$> remove_first p xs).
Proof.
  intros H. eapply sublist_NoDup; [exact H|]. apply fmap_sublist, remove_first_sublist.
Qed.

Lemma remove_first_Forall {A : Type} (P : A -> Prop) (p : A -> bool) (xs : list A) :
  Forall P xs -> Forall P (remove_first p xs).
Proof. rewrite !Forall_forall. intros H x Hx%elem_of_remove_first. auto. Qed.

Lemma remove_first_gone {A K : Type} (key : A -> K) (p : A -> bool) (k : K) (xs : list A) :
  (forall x, p x = true <-> key x = k) ->
  NoDup (key <$> xs) -> k ∉ key <$> remove_first p xs.
Proof.
  intros Hp. induction xs as [|x xs IH]; csimpl; [intros _; apply not_elem_of_nil|].
  intros [Hx Hxs]%NoDup_cons. destruct (p x) eqn:E.
  - apply Hp in E. by rewrite <- E.
  - csimpl. apply not_elem_of_cons. split; [|auto].
    intros Hk. symmetry in Hk. apply Hp in Hk. congruence.
Qed.

Lemma js_index_Some {A : Type} (xs : list A) (i : Z) (x : A) :
  js_index xs i = Some x <-> 0 <= i /\ xs !! Z.to_nat i = Some x.
Proof.
  unfold js_index. destruct (i <? 0) eqn:E.
  - apply Z.ltb_lt in E. split; [done | lia].
  - apply Z.ltb_ge in E. tauto.
Qed.

Lemma on_floor_true (g : list (list Z)) (x y : Z) :
  on_floor g x y = Some true
  <-> exists row, 0 <= y /\ g !! Z.to_nat y = Some row
                  /\ 0 <= x /\ row !! Z.to_nat x = Some Tile.FLOOR.
Proof.
  unfold on_floor. split.
  - destruct (js_index g y) as [row|] eqn:Ey; [|done]. simpl.
    intros [= H%bool_decide_eq_true]. apply js_index_Some in Ey as [? ?].
    apply js_index_Some in H as [? ?]. eauto 10.
  - intros (row & ? & Hrow & ? & Hx).
    rewrite (proj2 (js_index_Some g y row)) by done. simpl. f_equal.
    apply bool_decide_eq_true. by apply js_index_Some.
Qed.

Lemma set_tile_in_range (g : list (list Z)) (pos : Vec) (tile : Z) (row : list Z) :
  0 <= vy pos -> g !! Z.to_nat (vy pos) = Some row ->
  0 <= vx pos < Z.of_nat (length row) ->
  set_tile g pos tile
  = Some (<[Z.to_nat (vy pos) := <[Z.to_nat (vx pos) := tile]> row]> g).
Proof.
  intros Hy Hrow Hx. unfold set_tile.
  rewrite (proj2 (js_index_Some g (vy pos) row)) by done. simpl.
  replace (vx pos <? 0) with false by (symmetry; apply Z.ltb_ge; lia).
  replace (Z.of_nat (length row) <? vx pos) with false by (symmetry; apply Z.ltb_ge; lia).
  simpl. rewrite (insert_take_drop row) by lia. done.
Qed.

Lemma on_floor_insert_other (g : list (list Z)) (pos : Vec) (tile : Z) (row : list Z)
    (x y : Z) :
  0 <= vy pos -> 0 <= vx pos -> g !! Z.to_nat (vy pos) = Some row ->
  mkVec x y <> pos ->
  on_floor g x y = Some true ->
  on_floor (<[Z.to_nat (vy pos) := <[Z.to_nat (vx pos) := tile]> row]> g) x y = Some true.
Proof.
  intros Hy Hx Hrow Hne (rowy & Hy0 & Hrowy & Hx0 & Hcell)%on_floor_true.
  apply on_floor_true.
  destruct (decide (y = vy pos)) as [-> | Hney].
  - exists (<[Z.to_nat (vx pos) := tile]> row). split; [done|]. split.
    + apply list_lookup_insert_eq. by eapply lookup_lt_Some.
    + split; [done|]. assert (rowy = row) as -> by congruence.
      rewrite list_lookup_insert_ne; [done|].
      intros E. apply Hne. destruct pos as [px py]. simpl in *. f_equal. lia.
  - exists rowy. split; [done|]. split; [|done].
    rewrite list_lookup_insert_ne; [done | lia].
Qed.

Lemma on_floor_insert_same (g : list (list Z)) (pos : Vec) (row : list Z) :
  0 <= vy pos -> g !! Z.to_nat (vy pos) = Some row ->
  0 <= vx pos < Z.of_nat (length row) ->
  on_floor (<[Z.to_nat (vy pos) := <[Z.to_nat (vx pos) := Tile.FLOOR]> row]> g)
           (vx pos) (vy pos) = Some true.
Proof.
  intros Hy Hrow Hx. apply on_floor_true.
  exists (<[Z.to_nat (vx pos) := Tile.FLOOR]> row). split; [done|]. split.
  - apply list_lookup_insert_eq. by eapply lookup_lt_Some.
  - split; [lia|]. apply list_lookup_insert_eq. lia.
Qed.

Lemma square_insert (side : nat) (g : list (list Z)) (y x : nat) (tile : Z) (row : list Z) :
  square side g -> g !! y = Some row ->
  square side (<[y := <[x := tile]> row]> g).
Proof.
  intros [Hlen Hrows] Hrow. split; [by rewrite length_insert|].
  apply Forall_insert; [done|]. rewrite length_insert.
  rewrite Forall_forall in Hrows. apply Hrows. by eapply list_elem_of_lookup_2.
Qed.

Lemma valid_row (ed : LevelEditor) (pos : Vec) :
  ed_square ed -> isValidGridPos ed pos = true ->
  exists row, ed_grid ed !! Z.to_nat (vy pos) = Some row
              /\ 0 <= vy pos /\ 0 <= vx pos < Z.of_nat (length row).
Proof.
  intros [Hlen Hrows] Hv. unfold isValidGridPos in Hv.
  rewrite !andb_true_iff, !Z.leb_le, !Z.ltb_lt in Hv.
  destruct (lookup_lt_is_Some_2 (ed_grid ed) (Z.to_nat (vy pos))) as [row Hrow]; [lia|].
  exists row. split; [done|]. rewrite Forall_forall in Hrows.
  rewrite (Hrows row) by (by eapply list_elem_of_lookup_2). lia.
Qed.

Lemma guard_at_spec (pos : Vec) (guard : Editor.EGuard) :
  (Editor.e_x guard =? vx pos) && (Editor.e_y guard =? vy pos) = true
  <-> mkVec (Editor.e_x guard) (Editor.e_y guard) = pos.
Proof.
  rewrite andb_true_iff, !Z.eqb_eq. destruct pos as [px py]. simpl.
  split; [by intros [-> ->] | by intros [= -> ->]].
Qed.

Lemma target_at_spec (pos : Vec) (target : ETarget) :
  (et_x target =? vx pos) && (et_y target =? vy pos) = true
  <-> mkVec (et_x target) (et_y target) = pos.
Proof.
  rewrite andb_true_iff, !Z.eqb_eq. destruct pos as [px py]. simpl.
  split; [by intros [-> ->] | by intros [= -> ->]].
Qed.

Lemma initializeGrid_ok (ed : LevelEditor) :
  ed_square (initializeGrid ed) /\ entities_ok (initializeGrid ed).
Proof.
  split.
  - split; simpl; [apply length_replicate | apply Forall_replicate, length_replicate].
  - split; simpl; try constructor; constructor.
Qed.

Lemma removeEntitiesAt_ok (pos : Vec) (ed : LevelEditor) :
  entities_ok ed -> entities_ok (removeEntitiesAt pos ed).
Proof.
  intros [Hg Ht Hgc Htc [Hgi Hgf] [Hti Htf]]. split; simpl.
  - by apply remove_first_Forall.
  - by apply remove_first_Forall.
  - by apply remove_first_NoDup.
  - by apply remove_first_NoDup.
  - split; [by apply remove_first_NoDup | by apply remove_first_Forall].
  - split; [by apply remove_first_NoDup | by apply remove_first_Forall].
Qed.

Lemma paint_tile_ok (ed : LevelEditor) (pos : Vec) (tile : Z) :
  ed_square ed -> entities_ok ed -> isValidGridPos ed pos = true ->
  exists ed', paint_tile ed pos tile = Some ed' /\ ed_square ed' /\ entities_ok ed'
              /\ ed_gridSize ed' = ed_gridSize ed.
Proof.
  intros Hsq Hok Hv. destruct (valid_row ed pos Hsq Hv) as (row & Hrow & Hy & Hx).
  unfold paint_tile. rewrite (set_tile_in_range _ _ _ row) by done. simpl.
  eexists. split; [done|]. split; [|split; [|done]].
  - unfold ed_square. simpl. by apply square_insert.
  - destruct Hok as [Hg Ht Hgc Htc [Hgi Hgf] [Hti Htf]]. split; simpl.
    + unfold removeGuardAt.
      pose proof (remove_first_gone
                    (fun guard => mkVec (Editor.e_x guard) (Editor.e_y guard))
                    _ pos (ed_guards ed) (guard_at_spec pos) Hgc) as Hgone.
      apply Forall_forall. intros guard Hin. apply on_floor_insert_other; try done; try lia.
      * intros E. apply Hgone, list_elem_of_fmap. eauto.
      * rewrite Forall_forall in Hg. apply Hg. by apply elem_of_remove_first in Hin.
    + unfold removeTargetAt.
      pose proof (remove_first_gone
                    (fun target => mkVec (et_x target) (et_y target))
                    _ pos (ed_targets ed) (target_at_spec pos) Htc) as Hgone.
      apply Forall_forall. intros target Hin. apply on_floor_insert_other; try done; try lia.
      * intros E. apply Hgone, list_elem_of_fmap. eauto.
      * rewrite Forall_forall in Ht. apply Ht. by apply elem_of_remove_first in Hin.
    + by apply remove_first_NoDup.
    + by apply remove_first_NoDup.
    + split; [by apply remove_first_NoDup | by apply remove_first_Forall].
    + split; [by apply remove_first_NoDup | by apply remove_first_Forall].
Qed.

Lemma paint_ok (tool : EditorTool) (radius : Z) (pos : Vec) (ed : LevelEditor) :
  ed_square ed -> entities_ok ed ->
  exists ed', paint tool radius pos ed = Some ed' /\ ed_square ed' /\ entities_ok ed'
              /\ ed_gridSize ed' = ed_gridSize ed.
Proof.
  intros Hsq Hok. unfold paint.
  destruct (isValidGridPos ed pos) eqn:Hv; simpl; [|eauto].
  destruct (valid_row ed pos Hsq Hv) as (row & Hrow & Hy & Hx).
  assert (Hfloor : exists floor, on_floor (ed_grid ed) (vx pos) (vy pos) = Some floor).
  { unfold on_floor. rewrite (proj2 (js_index_Some _ _ row)) by done. simpl. eauto. }
  destruct Hfloor as [floor Hfloor].
  destruct tool; try (by apply paint_tile_ok).
  - rewrite Hfloor. simpl. destruct floor; [|eauto]. eexists. split; [done|].
    split; [done|]. split; [|done].
    destruct Hok as [Hg Ht Hgc Htc [Hgi Hgf] [Hti Htf]]. split; simpl; try done.
    + apply Forall_app. split; [by apply remove_first_Forall|]. by apply Forall_singleton.
    + rewrite fmap_app. apply NoDup_app. split; [by apply remove_first_NoDup|].
      split; [|apply NoDup_singleton].
      intros cell Hin ->%list_elem_of_singleton. simpl in Hin. destruct pos as [px py].
      revert Hin. by apply (remove_first_gone _ _ (mkVec px py) _ (guard_at_spec _)).
    + split.
      * rewrite fmap_app. apply NoDup_app. split; [by apply remove_first_NoDup|].
        split; [|apply NoDup_singleton].
        intros id (guard & -> & Hin%elem_of_remove_first)%list_elem_of_fmap
                  Hid%list_elem_of_singleton.
        rewrite Forall_forall in Hgf. specialize (Hgf guard Hin). simpl in Hid. lia.
      * apply Forall_app. split; [|apply Forall_singleton; simpl; lia].
        apply remove_first_Forall. eapply Forall_impl; [exact Hgf|]. simpl. intros. lia.
  - rewrite Hfloor. simpl. destruct floor; [|eauto]. eexists. split; [done|].
    split; [done|]. split; [|done].
    destruct Hok as [Hg Ht Hgc Htc [Hgi Hgf] [Hti Htf]]. split; simpl; try done.
    + apply Forall_app. split; [by apply remove_first_Forall|]. by apply Forall_singleton.
    + rewrite fmap_app. apply NoDup_app. split; [by apply remove_first_NoDup|].
      split; [|apply NoDup_singleton].
      intros cell Hin ->%list_elem_of_singleton. simpl in Hin. destruct pos as [px py].
      revert Hin. by apply (remove_first_gone _ _ (mkVec px py) _ (target_at_spec _)).
    + split.
      * rewrite fmap_app. apply NoDup_app. split; [by apply remove_first_NoDup|].
        split; [|apply NoDup_singleton].
        intros id (target & -> & Hin%elem_of_remove_first)%list_elem_of_fmap
                  Hid%list_elem_of_singleton.
        rewrite Forall_forall in Htf. specialize (Htf target Hin). simpl in Hid. lia.
      * apply Forall_app. split; [|apply Forall_singleton; simpl; lia].
        apply remove_first_Forall. eapply Forall_impl; [exact Htf|]. simpl. intros. lia.
  - eexists. split; [done|]. split; [done|]. split; [|done]. by apply removeEntitiesAt_ok.
Qed.

Lemma edit_ok (ed : LevelEditor) (e : Edit) :
  ed_square ed -> entities_ok ed ->
  exists ed', edit ed e = Some ed' /\ ed_square ed' /\ entities_ok ed'.
Proof.
  intros Hsq Hok. destruct e as [tool radius pos | id | id | size |]; simpl.
  - destruct (paint_ok tool radius pos ed Hsq Hok) as (ed' & ? & ? & ? & _). eauto.
  - eexists. split; [done|]. split; [done|].
    destruct Hok as [Hg Ht Hgc Htc [Hgi Hgf] [Hti Htf]]. split; simpl; try done.
    + by apply remove_first_Forall.
    + by apply remove_first_NoDup.
    + split; [by apply remove_first_NoDup | by apply remove_first_Forall].
  - eexists. split; [done|]. split; [done|].
    destruct Hok as [Hg Ht Hgc Htc [Hgi Hgf] [Hti Htf]]. split; simpl; try done.
    + by apply remove_first_Forall.
    + by apply remove_first_NoDup.
    + split; [by apply remove_first_NoDup | by apply remove_first_Forall].
  - eexists. split; [done|]. apply initializeGrid_ok.
  - eexists. split; [done|]. apply initializeGrid_ok.
Qed.

Lemma edits_ok (es : list Edit) :
  forall ed, ed_square ed -> entities_ok ed ->
             exists ed', edits ed es = Some ed' /\ ed_square ed' /\ entities_ok ed'.
Proof.
  induction es as [|e es IH]; intros ed Hsq Hok; simpl; [eauto|].
  destruct (edit_ok ed e Hsq Hok) as (ed1 & -> & Hsq1 & Hok1). simpl. auto.
Qed.

Lemma validate_guards_nil (g : list (list Z)) (gs : list Editor.EGuard) :
  validate_guards g gs = Some []
  <-> Forall (fun guard => on_floor g (Editor.e_x guard) (Editor.e_y guard) = Some true) gs.
Proof.
  induction gs as [|guard gs IH]; simpl; [by split|].
  rewrite Forall_cons, <- IH.
  destruct (on_floor g (Editor.e_x guard) (Editor.e_y guard)) as [[]|]; simpl.
  - destruct (validate_guards g gs) as [errors|]; simpl; [|by split; [|intros [_ ?]]].
    split; [by intros [= ->] | by intros [_ [= ->]]].
  - destruct (validate_guards g gs) as [errors|]; simpl; by split; [|intros [? _]].
  - by split; [|intros [? _]].
Qed.

Lemma validate_targets_nil (g : list (list Z)) (ts : list ETarget) :
  validate_targets g ts = Some []
  <-> Forall (fun target => on_floor g (et_x target) (et_y target) = Some true) ts.
Proof.
  induction ts as [|target ts IH]; simpl; [by split|].
  rewrite Forall_cons, <- IH.
  destruct (on_floor g (et_x target) (et_y target)) as [[]|]; simpl.
  - destruct (validate_targets g ts) as [errors|]; simpl; [|by split; [|intros [_ ?]]].
    split; [by intros [= ->] | by intros [_ [= ->]]].
  - destruct (validate_targets g ts) as [errors|]; simpl; by split; [|intros [? _]].
  - by split; [|intros [? _]].
Qed.

(** X22.  Whatever is drawn, starting from a cleared grid, with the
    tools, the remove buttons, grid resizes and clears, no edit throws and
    [validateLevel] can find one error only: the missing target.  Its
    checks that guards and targets stand on Floor never fire on a drawn
    level. *)
Theorem drawn_level_only_lacks_targets (ed0 : LevelEditor) (es : list Edit) :
  exists ed,
    edits (initializeGrid ed0) es = Some ed
    /\ validateLevel ed = Some (if bool_decide (ed_targets ed = []) then [NoTarget] else []).
Proof.
  destruct (initializeGrid_ok ed0) as [Hsq0 Hok0].
  destruct (edits_ok es _ Hsq0 Hok0) as (ed & Hed & Hsq & Hok).
  exists ed. split; [done|]. unfold validateLevel.
  rewrite (proj2 (validate_guards_nil _ _) (eo_guards ed Hok)).
  rewrite (proj2 (validate_targets_nil _ _) (eo_targets ed Hok)). simpl.
  by rewrite app_nil_r.
Qed.

(** X23.  In a drawn level no two guards stand on the same cell and no
    two targets do, the ids of the guards are distinct and so are those of
    the targets, and the grid is a square of side [gridSize]. *)
Theorem drawn_entities_apart (ed0 : LevelEditor) (es : list Edit) :
  exists ed,
    edits (initializeGrid ed0) es = Some ed
    /\ NoDup ((fun guard => mkVec (Editor.e_x guard) (Editor.e_y guard)) <$> ed_guards ed)
    /\ NoDup ((fun target => mkVec (et_x target) (et_y target)) <$> ed_targets ed)
    /\ NoDup (Editor.e_id <$> ed_guards ed)
    /\ NoDup (et_id <$> ed_targets ed)
    /\ ed_square ed.
Proof.
  destruct (initializeGrid_ok ed0) as [Hsq0 Hok0].
  destruct (edits_ok es _ Hsq0 Hok0) as (ed & Hed & Hsq & Hok).
  exists ed. destruct Hok as [_ _ ? ? [? _] [? _]]. done.
Qed.

(** ** From the editor to the game *)

Lemma exported_level_loads (form : Form) (ed : LevelEditor) :
  ed_gridSize ed <= MAX_GRID_SIZE ->
  exists l,
    new_Level (lf_data (exportLevel form ed)) = Some l
    /\ gridSize (config l) = ed_gridSize ed
    /\ positions (guards l)
       = (fun guard => mkVec (Editor.e_x guard) (Editor.e_y guard)) <$> ed_guards ed
    /\ t_pos <$> targets l
       = (fun target => mkVec (et_x target) (et_y target)) <$> ed_targets ed.
Proof.
  intros Hsize. unfold new_Level, initialize_grid, exportLevel.
  cbn [lf_data ld_config ld_grid ld_targets ld_guards].
  set (c := merge_config DEFAULT_CONFIG _).
  assert (Hc : gridSize c = ed_gridSize ed) by done.
  destruct (load_grid_Some (gridSize c) (ed_grid ed) 0 (createEmptyGrid c))
    as (g & Hg & _).
  { apply createEmptyGrid_length. by rewrite Hc. }
  rewrite Hg. cbn [mbind option_bind].
  rewrite (proj2 (entries_Some _ (exportTargets (ed_targets ed))) eq_refl).
  rewrite (proj2 (entries_Some _ (Editor.exportGuards (ed_guards ed))) eq_refl).
  cbn [mbind option_bind].
  eexists. split; [done|]. cbn [config guards targets]. split; [done|]. split.
  - rewrite add_guards_positions. unfold Editor.exportGuards.
    rewrite <- list_fmap_compose. done.
  - rewrite add_targets_positions. unfold exportTargets.
    rewrite <- list_fmap_compose. done.
Qed.

Lemma on_floor_passable (form : Form) (ed : LevelEditor) (l : Level) (x y : Z) :
  ed_square ed -> ed_gridSize ed <= MAX_GRID_SIZE ->
  new_Level (lf_data (exportLevel form ed)) = Some l ->
  gridSize (config l) = ed_gridSize ed ->
  on_floor (ed_grid ed) x y = Some true ->
  isPassable l (mkVec x y) = true.
Proof.
  intros [Hlen Hrows] Hsize Hl Hc (row & Hy & Hrow & Hx & Hcell)%on_floor_true.
  assert (Hv : isValidPosition l (mkVec x y) = true).
  { unfold isValidPosition. simpl. rewrite Hc.
    apply lookup_lt_Some in Hrow as Hylt. apply lookup_lt_Some in Hcell as Hxlt.
    rewrite Forall_forall in Hrows.
    rewrite (Hrows row) in Hxlt by (by eapply list_elem_of_lookup_2).
    rewrite !andb_true_iff, !Z.leb_le, !Z.ltb_lt. lia. }
  unfold isPassable. rewrite Hv. simpl. apply bool_decide_eq_true.
  rewrite (tile_of_loaded_level _ l (mkVec x y) Hl) by (done || by rewrite Hc).
  unfold descriptor_tile. cbn [exportLevel lf_data ld_grid vx vy].
  rewrite list_lookup_fmap, Hrow. simpl. by rewrite Hcell.
Qed.

(** X24.  A level that passes [testLevel] plays as drawn.  If the grid
    of the editor is a square of side [gridSize <= 64] and [validateLevel]
    finds no error, the game loads the exported descriptor, the level has at
    least one target, its guards and targets stand where the editor shows
    them, and every one of them stands on a passable cell. *)
Theorem tested_level_is_playable (form : Form) (ed : LevelEditor) (file : LevelFile) :
  ed_square ed ->
  ed_gridSize ed <= MAX_GRID_SIZE ->
  testLevel form ed = Some (inr file) ->
  exists l,
    new_Level (lf_data file) = Some l
    /\ targets l <> []
    /\ positions (guards l)
       = (fun guard => mkVec (Editor.e_x guard) (Editor.e_y guard)) <$> ed_guards ed
    /\ t_pos <$> targets l
       = (fun target => mkVec (et_x target) (et_y target)) <$> ed_targets ed
    /\ Forall (fun pos => isPassable l pos = true) (positions (guards l))
    /\ Forall (fun pos => isPassable l pos = true) (t_pos <$> targets l).
Proof.
  intros Hsq Hsize. unfold testLevel.
  destruct (validateLevel ed) as [[|e errors]|] eqn:Hval; simpl; [|done..].
  intros [= <-]. unfold validateLevel in Hval.
  destruct (validate_guards _ _) as [ge|] eqn:Hge; [|done].
  destruct (validate_targets _ _) as [te|] eqn:Hte; [|done]. simpl in Hval.
  injection Hval as Hval.
  destruct (bool_decide (ed_targets ed = [])) eqn:Hnone; [done|]. simpl in Hval.
  apply app_eq_nil in Hval as [-> ->].
  apply validate_guards_nil in Hge. apply validate_targets_nil in Hte.
  destruct (exported_level_loads form ed Hsize) as (l & Hl & Hc & Hgs & Hts).
  exists l. split; [done|]. split; [|split; [done|split; [done|split]]].
  - intros E. rewrite E in Hts. simpl in Hts. symmetry in Hts.
    apply fmap_nil_inv in Hts. by rewrite Hts, bool_decide_eq_true_2 in Hnone.
  - rewrite Hgs. apply Forall_fmap. eapply Forall_impl; [exact Hge|]. simpl.
    intros guard. by apply (on_floor_passable form ed).
  - rewrite Hts. apply Forall_fmap. eapply Forall_impl; [exact Hte|]. simpl.
    intros target. by apply (on_floor_passable form ed).
Qed.

(** X24, an instance: three Floor cells, a guard and a target, drawn on
    the grid of 24 by 24 that the editor starts with. *)
Lemma tested_level_is_playable_witness :
  exists ed file l,
    edits new_LevelEditor drawn_edits = Some ed
    /\ testLevel plain_form ed = Some (inr file)
    /\ new_Level (lf_data file) = Some l
    /\ Forall (fun pos => isPassable l pos = true) (positions (guards l)).
Proof.
  assert (E : exists ed, edits new_LevelEditor drawn_edits = Some ed) by (vm_compute; eauto).
  destruct E as [ed E].
  assert (T : exists file, testLevel plain_form ed = Some (inr file))
    by (concrete E; vm_compute; eauto).
  destruct T as [file T].
  assert (Hsq : ed_square ed).
  { concrete E. split; [reflexivity|]. apply (bool_decide_unpack _). vm_compute. exact I. }
  assert (Hsize : ed_gridSize ed <= MAX_GRID_SIZE) by (concrete E; vm_compute; discriminate).
  destruct (tested_level_is_playable plain_form ed file Hsq Hsize T)
    as (l & Hl & _ & _ & _ & Hg & _).
  exists ed, file, l. split; [exact E|]. split; [exact T|]. split; [exact Hl | exact Hg].
Defined.

(** ** Grids of more than 64 rows *)

Lemma load_grid_overflow (size : Z) (row : list Z) (data : list (MaybeArray Z)) :
  MAX_GRID_SIZE < size -> row <> [] ->
  forall g : list (list Z),
    length g = 64%nat ->
    data !! 64%nat = Some (Arr row) ->
    load_grid size 0 data g = None.
Proof.
  unfold MAX_GRID_SIZE. intros Hsize Hrow g Hlen Hdata.
  apply load_grid_None. exists 64%nat. split; [lia|]. right.
  exists row. split; [done|]. split; [done | lia].
Qed.

Lemma createEmptyGrid_max (c : Config) :
  MAX_GRID_SIZE < gridSize c -> length (createEmptyGrid c) = 64%nat.
Proof.
  unfold createEmptyGrid, MAX_GRID_SIZE. rewrite length_replicate. intros H.
  destruct (gridSize c) as [|p|p] eqn:E; simpl; lia.
Qed.

Lemma grid_overflow (ld : LevelData) (data : list (MaybeArray Z)) (row : list Z) :
  ld_grid ld = Arr data ->
  MAX_GRID_SIZE < gridSize (merge_config DEFAULT_CONFIG (ld_config ld)) ->
  data !! 64%nat = Some (Arr row) -> row <> [] ->
  new_Level ld = None.
Proof.
  intros Hdata Hsize Hrow Hne. unfold new_Level, initialize_grid. rewrite Hdata.
  rewrite (load_grid_overflow _ row data Hsize Hne _); [done | | done].
  by apply createEmptyGrid_max.
Qed.

(** X25.  A level whose grid size exceeds 64 and whose descriptor has a
    non-empty row of index 64 cannot be loaded: the [Level] constructor
    creates 64 rows only but copies rows up to [gridSize], and throws at
    row 64. *)
Theorem oversized_grid_throws (ld : LevelData) (data : list (MaybeArray Z))
    (row : list Z) :
  ld_grid ld = Arr data ->
  MAX_GRID_SIZE < gridSize (merge_config DEFAULT_CONFIG (ld_config ld)) ->
  data !! 64%nat = Some (Arr row) -> row <> [] ->
  new_Level ld = None /\ loadLevel ld = None.
Proof.
  intros Hdata Hsize Hrow Hne. unfold loadLevel.
  by rewrite (grid_overflow ld data row).
Qed.

(** X25, an instance: a descriptor of grid size 65 with 65 rows. *)
Lemma oversized_grid_throws_witness :
  new_Level oversized_level = None /\ loadLevel oversized_level = None.
Proof.
  apply (oversized_grid_throws oversized_level (replicate 65 (Arr [Tile.FLOOR]))
                               [Tile.FLOOR]).
  - reflexivity.
  - vm_compute. reflexivity.
  - reflexivity.
  - discriminate.
Defined.

(** X26.  The editor does not limit its grid size, but a level drawn on
    a grid of more than 64 cells a side is one that the game cannot load:
    the descriptor that [exportLevel] produces makes the [Level] constructor
    throw. *)
Theorem oversized_editor_level_fails (form : Form) (ed : LevelEditor) :
  ed_square ed ->
  MAX_GRID_SIZE < ed_gridSize ed ->
  loadLevel (lf_data (exportLevel form ed)) = None.
Proof.
  intros [Hlen Hrows] Hsize. unfold loadLevel. unfold MAX_GRID_SIZE in *.
  destruct (lookup_lt_is_Some_2 (ed_grid ed) 64) as [row Hrow]; [lia|].
  rewrite (grid_overflow _ (Arr <$> ed_grid ed) row);
    [done | done | done | by rewrite list_lookup_fmap, Hrow |].
  rewrite Forall_forall in Hrows. intros ->.
  specialize (Hrows [] (list_elem_of_lookup_2 _ _ _ Hrow)). simpl in Hrows. lia.
Qed.

(** X26, an instance: the editor with its grid resized to 65. *)
Lemma oversized_editor_level_fails_witness :
  loadLevel (lf_data (exportLevel plain_form (updateGridSize 65 new_LevelEditor))) = None.
Proof.
  apply oversized_editor_level_fails.
  - apply initializeGrid_ok.
  - vm_compute. reflexivity.
Defined.

(** ** Import *)

(** The loops of the editor over the rows are those of the game. *)
Lemma import_grid_load_grid (size : Z) (data : list (MaybeArray Z)) :
  forall (y : nat) (g : list (list Z)),
    load_grid size y data g
    = if snd (import_grid size y data g) then Some (fst (import_grid size y data g))
      else None.
Proof.
  induction data as [|drow data IH]; intros y g; simpl; [done|].
  destruct (Z.of_nat y <? size); [|done].
  destruct drow as [|truthy|cells]; [done | apply IH |].
  destruct (0 <? Z.min _ size); [|apply IH].
  destruct (g !! y); [apply IH | done].
Qed.

Lemma import_grid_square (size : Z) (side : nat) (data : list (MaybeArray Z)) :
  size <= Z.of_nat side ->
  forall (y : nat) (g : list (list Z)),
    square side g -> square side (fst (import_grid size y data g)).
Proof.
  intros Hsize. induction data as [|drow data IH]; intros y g Hsq; simpl; [done|].
  destruct (Z.of_nat y <? size) eqn:Hy; [|done].
  apply Z.ltb_lt in Hy.
  destruct drow as [|truthy|cells]; [done | by apply IH |].
  destruct (0 <? Z.min _ size); [|by apply IH].
  destruct (g !! y) as [row|] eqn:Hrow; [|done].
  apply IH. destruct Hsq as [Hlen Hrows]. split; [by rewrite length_insert|].
  apply Forall_insert; [done|].
  rewrite Forall_forall in Hrows.
  rewrite load_row_length; rewrite (Hrows row) by (by eapply list_elem_of_lookup_2); lia.
Qed.

Lemma import_entries_None {A : Type} (v : MaybeArray (option A)) :
  import_entries v = None <-> import_entries_throw v.
Proof.
  destruct v as [|[|]|items]; simpl; [by split | by split | by split |].
  apply (entries_None (Arr items)).
Qed.

Lemma updateGridSize_square (size : Z) (ed : LevelEditor) :
  square (Z.to_nat size) (ed_grid (updateGridSize size ed)).
Proof. exact (proj1 (initializeGrid_ok _)). Qed.

(** The rows of the file that the import reads, when the grid of the file
    is taken at all. *)
Lemma import_rows_failed (file : LevelFile) (ed : LevelEditor) :
  snd match ld_grid (lf_data file) with
      | Arr (row :: rows) =>
          import_grid (js_or (cd_gridSize (ld_config (lf_data file))) 24) 0 (row :: rows)
            (ed_grid (updateGridSize (js_or (cd_gridSize (ld_config (lf_data file))) 24) ed))
      | _ => (ed_grid (updateGridSize (js_or (cd_gridSize (ld_config (lf_data file))) 24) ed),
              true)
      end = false
  <-> null_row file.
Proof.
  unfold null_row. set (size := js_or _ 24).
  destruct (ld_grid (lf_data file)) as [|truthy|[|row rows]] eqn:Hgrid.
  - split; [done | by intros (? & ? & ? & _)].
  - split; [done | by intros (? & ? & ? & _)].
  - split; [done | intros (? & y & [= <-] & _ & ?); by destruct y].
  - pose proof (import_grid_load_grid size (row :: rows) 0
                  (ed_grid (updateGridSize size ed))) as Hload.
    pose proof (load_grid_None size (row :: rows) 0 (ed_grid (updateGridSize size ed)))
      as Hnone.
    destruct (updateGridSize_square size ed) as [Hlen _].
    split.
    + intros Hf. rewrite Hf in Hload. apply Hnone in Hload as (k & Hk & H).
      exists (row :: rows), k. split; [done|]. split; [lia|].
      destruct H as [H | (cells & _ & _ & ?)]; [done | lia].
    + intros (rows' & y & [= <-] & Hy & Hrow).
      destruct (snd (import_grid size 0 (row :: rows) _)); [|done].
      assert (load_grid size 0 (row :: rows) (ed_grid (updateGridSize size ed)) = None)
        as Hn by (apply Hnone; exists y; split; [lia | by left]).
      congruence.
Qed.

Lemma refused_spec (file : LevelFile) :
  bool_decide (lf_id file = []) || bool_decide (lf_name file = [])
  || negb (lf_config file) || negb (truthy (ld_grid (lf_data file))) = true
  <-> refused file.
Proof.
  unfold refused.
  rewrite !orb_true_iff, !bool_decide_eq_true, !negb_true_iff.
  destruct (ld_grid (lf_data file)) as [|[|]|items]; simpl; intuition congruence.
Qed.



Lemma load_grid_same (size : Z) (g : list (list Z)) :
  square (Z.to_nat size) g ->
  load_grid size 0 (Arr <$> g)
            (replicate (Z.to_nat size) (replicate (Z.to_nat size) Tile.VOID))
  = Some g.
Proof.
  intros [Hlen Hrows].
  set (fresh := replicate (Z.to_nat size) (replicate (Z.to_nat size) Tile.VOID)).
  destruct (load_grid_Some size g 0 fresh) as (g' & Hg' & Hlen').
  { unfold fresh. rewrite length_replicate. lia. }
  rewrite Hg'. f_equal. apply list_eq. intros y.
  destruct (decide (y < Z.to_nat size)%nat) as [Hy | Hy].
  - rewrite (load_grid_lookup _ _ _ _ _ Hg' y (replicate (Z.to_nat size) Tile.VOID))
      by (by apply lookup_replicate_2).
    destruct (decide (0 <= y)%nat); [|lia]. replace (y - 0)%nat with y by lia.
    destruct (lookup_lt_is_Some_2 g y) as [row Hrow]; [lia|].
    rewrite list_lookup_fmap, Hrow. simpl.
    replace (Z.of_nat y <? size) with true by (symmetry; apply Z.ltb_lt; lia).
    f_equal. unfold load_row. rewrite Forall_forall in Hrows.
    specialize (Hrows row (list_elem_of_lookup_2 _ _ _ Hrow)).
    replace (Z.to_nat (Z.min (Z.of_nat (length row)) size)) with (length row) by lia.
    rewrite firstn_all, drop_ge by (rewrite length_replicate; lia).
    by rewrite app_nil_r.
  - rewrite !(proj2 (lookup_ge_None _ _)); [done | lia |].
    rewrite Hlen'. unfold fresh. rewrite length_replicate. lia.
Qed.

(** X28.  Export, then import.  A level exported with a non-empty id
    and name and a grid size other than 0 comes back as it was: the same
    grid size and grid, the guards and the targets on the same cells and in
    the same order.  Ids are renumbered from 0, and a hearing radius of 0
    comes back as 8. *)
Theorem import_export_round_trip (form : Form) (ed ed0 : LevelEditor) :
  ed_square ed ->
  ed_gridSize ed <> 0 ->
  levelId form <> [] -> levelName form <> [] ->
  exists ed',
    importLevel (exportLevel form ed) ed0 = (Imported, ed')
    /\ ed_gridSize ed' = ed_gridSize ed
    /\ ed_grid ed' = ed_grid ed
    /\ ed_guards ed'
       = imap (fun index guard =>
                 Editor.mkEGuard (Z.of_nat index) (Editor.e_x guard) (Editor.e_y guard)
                                 (js_or (Some (Editor.e_hearingRadius guard)) 8))
              (ed_guards ed)
    /\ ed_targets ed'
       = imap (fun index target => mkETarget (Z.of_nat index) (et_x target) (et_y target))
              (ed_targets ed).
Proof.
  intros Hsq Hsize Hid Hname. unfold importLevel, exportLevel.
  cbn [lf_id lf_name lf_config lf_data ld_grid ld_config cd_gridSize ld_guards ld_targets].
  rewrite !bool_decide_eq_false_2 by done. cbn [orb negb truthy].
  assert (Hor : js_or (Some (ed_gridSize ed)) 24 = ed_gridSize ed).
  { unfold js_or. by destruct (ed_gridSize ed). }
  rewrite Hor.
  assert (Hg : match Arr <$> ed_grid ed with
               | row :: rows =>
                   import_grid (ed_gridSize ed) 0 (row :: rows)
                               (ed_grid (updateGridSize (ed_gridSize ed) ed0))
               | [] => (ed_grid (updateGridSize (ed_gridSize ed) ed0), true)
               end = (ed_grid ed, true)).
  { pose proof (load_grid_same _ _ Hsq) as Hsame.
    rewrite import_grid_load_grid in Hsame.
    change (replicate _ _) with (ed_grid (updateGridSize (ed_gridSize ed) ed0)) in Hsame.
    destruct Hsq as [Hlen _].
    destruct (ed_grid ed) as [|row rows] eqn:Egrid.
    - simpl in *. f_equal. destruct (Z.to_nat (ed_gridSize ed)); [done | done].
    - rewrite fmap_cons in *.
      destruct (import_grid _ _ _ _) as [g [|]]; simpl in Hsame; [|done].
      by injection Hsame as ->. }
  rewrite Hg. cbn [fst snd negb import_entries].
  rewrite (proj2 (entries_Some (Arr (Some <$> Editor.exportGuards (ed_guards ed))) _) eq_refl
           : mapM id (Some <$> Editor.exportGuards (ed_guards ed)) = Some _).
  rewrite (proj2 (entries_Some (Arr (Some <$> exportTargets (ed_targets ed))) _) eq_refl
           : mapM id (Some <$> exportTargets (ed_targets ed)) = Some _).
  eexists. split; [done|]. cbn [ed_gridSize ed_grid ed_guards ed_targets].
  split; [done|]. split; [done|]. split.
  - unfold Editor.importGuards, Editor.exportGuards.
    apply list_eq. intros j. rewrite !list_lookup_imap, list_lookup_fmap.
    by destruct (ed_guards ed !! j).
  - unfold importTargets, exportTargets.
    apply list_eq. intros j. rewrite !list_lookup_imap, list_lookup_fmap.
    by destruct (ed_targets ed !! j).
Qed.

(** X28, an instance: the small drawn level. *)
Lemma import_export_round_trip_witness :
  exists ed ed',
    edits new_LevelEditor drawn_edits = Some ed
    /\ importLevel (exportLevel plain_form ed) new_LevelEditor = (Imported, ed')
    /\ ed_grid ed' = ed_grid ed.
Proof.
  assert (E : exists ed, edits new_LevelEditor drawn_edits = Some ed) by (vm_compute; eauto).
  destruct E as [ed E].
  assert (Hsq : ed_square ed).
  { concrete E. split; [reflexivity|]. apply (bool_decide_unpack _). vm_compute. exact I. }
  assert (Hsize : ed_gridSize ed <> 0) by (concrete E; vm_compute; discriminate).
  destruct (import_export_round_trip plain_form ed new_LevelEditor Hsq Hsize)
    as (ed' & Hi & _ & Hg & _).
  - discriminate.
  - discriminate.
  - exists ed, ed'. split; [exact E|]. split; [exact Hi | exact Hg].
Defined.

(** ** A turn without bombs: what guards remember *)

Lemma decide_guards_at (l : Level) (turn : Z) (ts es : list Source) (gs : list Guard) :
  forall (proposals : list (Z * Vec)) (gs2 : list Guard) (proposals' : list (Z * Vec)),
    NoDup ((fst <$> proposals) ++ (g_id <$> gs)) ->
    decide_guards l turn ts es gs proposals = Some (gs2, proposals') ->
    exists vs,
      proposals' = proposals ++ zip (g_id <$> gs) vs
      /\ length vs = length gs
      /\ length gs2 = length gs
      /\ forall i guard, gs !! i = Some guard ->
           exists g2 v, gs2 !! i = Some g2 /\ vs !! i = Some v
                        /\ decide_guard l turn ts es guard = Some (g2, v).
Proof.
  induction gs as [|guard gs IH]; intros proposals gs2 proposals' Hnd; csimpl.
  - intros [= <- <-]. exists []. rewrite app_nil_r. done.
  - destruct (decide_guard l turn ts es guard) as [[g2 v]|] eqn:Hd; [|done]. csimpl.
    apply NoDup_app in Hnd as (Hp & Hdisj & Hg). apply NoDup_cons in Hg as [Hg Hgs].
    assert (Hfresh : g_id guard ∉ fst <$> proposals).
    { intros Hin. apply (Hdisj _ Hin). left. }
    rewrite (map_set_fresh _ _ _ Hfresh).
    destruct (decide_guards l turn ts es gs _) as [[rest props]|] eqn:Hrest; [|done].
    csimpl. intros [= <- <-].
    assert (Hnd' : NoDup ((fst <$> proposals ++ [(g_id guard, v)]) ++ (g_id <$> gs))).
    { rewrite fmap_app. csimpl. rewrite <- app_assoc. simpl.
      apply NoDup_app. split; [done|]. split; [|by apply NoDup_cons].
      intros x Hx. by apply Hdisj. }
    destruct (IH _ _ _ Hnd' Hrest) as (vs & -> & Hlen & Hlen2 & Hat).
    exists (v :: vs). rewrite <- app_assoc. simpl. split; [done|]. split; [lia|].
    split; [lia|].
    intros [|i] guard' Hi; simpl in *.
    + injection Hi as <-. eauto.
    + auto.
Qed.

Lemma chooseGuardTarget_quiet (l : Level) (guard : Guard) :
  chooseGuardTarget l guard [] [] = None.
Proof. reflexivity. Qed.

Lemma update_memory_quiet (l : Level) (turn : Z) (guard : Guard) :
  update_memory l turn [] guard
  = match memory guard with
    | Some m => if memoryTTL (config l) <? turn - m_turnIndex m
                then set_memory guard None else guard
    | None => guard
    end.
Proof. reflexivity. Qed.

(** X29.  A turn without bombs.  A guard that remembers nothing, or
    whose memory is older than [memoryTTL] turns, stays on its cell and ends
    the turn without memory and without [targetPos].  A guard whose memory
    is still fresh keeps it and makes for the remembered cell, which is its
    [targetPos] after the turn. *)
Theorem quiet_turn_memory (gm gm' : Game) (i : nat) (guard guard' : Guard) :
  playable gm = true ->
  bombs gm = [] ->
  simulateTurn gm = Some gm' ->
  guards (level gm) !! i = Some guard ->
  guards (level gm') !! i = Some guard' ->
  match memory guard with
  | Some m =>
      if turnIndex gm + 1 - m_turnIndex m <=? memoryTTL (config (level gm))
      then memory guard' = Some m /\ targetPos guard' = Some (m_pos m)
      else g_pos guard' = g_pos guard /\ memory guard' = None /\ targetPos guard' = None
  | None => g_pos guard' = g_pos guard /\ memory guard' = None /\ targetPos guard' = None
  end.
Proof.
  intros Hp Hquiet Hs Hi Hi'.
  apply playable_spec in Hp as (_ & Hids & _).
  destruct (simulateTurn_guards gm gm' Hs) as (gs2 & proposals & gs3 & Hdecide & Hres & Hgs).
  rewrite Hquiet in Hdecide, Hgs. simpl in Hdecide, Hgs.
  set (l := level gm) in *. set (turn := turnIndex gm + 1) in *.
  destruct (decide_guards_at l turn [] [] (guards l) [] gs2 proposals Hids Hdecide)
    as (vs & Hprops & Hlen & Hl2 & Hat).
  simpl in Hprops.
  destruct (Hat i guard Hi) as (g2 & v & Hg2 & Hv & Hd).
  destruct (decide_guard_spec l turn [] [] guard) as (g2' & v' & Hd' & (Hid2 & _) & _).
  assert (g2' = g2) as -> by congruence.
  assert (Hids2 : g_id <$> gs2 = g_id <$> guards l).
  { apply list_eq. intros j. rewrite !list_lookup_fmap.
    destruct (guards l !! j) as [gj|] eqn:Ej; simpl.
    - destruct (Hat j gj Ej) as (gj2 & vj & -> & _ & Hdj). simpl. f_equal.
      destruct (decide_guard_spec l turn [] [] gj) as (? & ? & Hdj' & (? & _) & _).
      congruence.
    - destruct (gs2 !! j) as [gj2|] eqn:Ej2; [|done]. exfalso.
      apply lookup_lt_Some in Ej2. apply lookup_ge_None in Ej. lia. }
  assert (Hwf : proposals_for gs2 proposals).
  { unfold proposals_for. rewrite Hprops, Hids2, fst_zip by (rewrite length_fmap; lia).
    done. }
  destruct (resolveMovementConflicts_frame gs2 proposals Hwf) as (gs3' & Hres' & _ & Hframe).
  assert (gs3' = gs3) as -> by congruence.
  destruct (Hframe i g2 Hg2) as (g3 & Hg3 & _ & _ & Hmem3 & Htp3 & Hpos3).
  rewrite Hgs, list_lookup_fmap, Hg3 in Hi'. simpl in Hi'. injection Hi' as <-.
  assert (Hget : map_get proposals (g_id g2) = Some v).
  { rewrite Hprops, Hid2. apply (zip_lookup_key _ _ i); try done.
    - rewrite length_fmap. lia.
    - by rewrite list_lookup_fmap, Hi. }
  assert (Hstay : v = g_pos guard -> g_pos g2 = g_pos guard -> g_pos g3 = g_pos guard).
  { intros Ev E2. destruct Hpos3 as [-> | [Hget' _]]; [done|]. congruence. }
  rewrite update_memory_quiet.
  unfold decide_guard in Hd. rewrite chooseGuardTarget_quiet in Hd.
  cbn [config with_guards].
  destruct (memory guard) as [m|] eqn:Hm.
  - destruct (turn - m_turnIndex m <=? memoryTTL (config l)) eqn:Hlive.
    + destruct (Pathfinder.getNextStep l (g_pos guard) (m_pos m)) as [w|]; [|done].
      simpl in Hd. injection Hd as <- <-. simpl in Hmem3, Htp3.
      rewrite Hmem3, Hm. apply Z.leb_le in Hlive.
      replace (memoryTTL (config l) <? turn - m_turnIndex m) with false
        by (symmetry; apply Z.ltb_ge; lia).
      by rewrite Hmem3, Hm, Htp3.
    + injection Hd as <- <-. simpl in Hmem3, Htp3. rewrite Hmem3, Hm.
      apply Z.leb_gt in Hlive.
      replace (memoryTTL (config l) <? turn - m_turnIndex m) with true
        by (symmetry; apply Z.ltb_lt; lia).
      simpl. rewrite Htp3. split; [by apply Hstay | done].
  - injection Hd as <- <-. simpl in Hmem3, Htp3. rewrite Hmem3, Hm, Htp3.
    split; [by apply Hstay | by rewrite Hmem3, Hm].
Qed.

(** X29, an instance: the two guards in file before any bomb is placed;
    the guard in front remembers nothing and stays where it is. *)
Lemma quiet_turn_memory_witness :
  exists gm gm' guard guard',
    loadLevel file_level = Some gm /\ simulateTurn gm = Some gm'
    /\ guards (level gm) !! 0%nat = Some guard
    /\ guards (level gm') !! 0%nat = Some guard'
    /\ g_pos guard' = g_pos guard /\ memory guard' = None /\ targetPos guard' = None.
Proof.
  assert (E : exists gm, loadLevel file_level = Some gm) by (vm_compute; eauto).
  destruct E as [gm E].
  assert (Hp : playable gm = true) by (concrete E; vm_compute; reflexivity).
  assert (Hquiet : bombs gm = []) by (concrete E; vm_compute; reflexivity).
  assert (E' : exists gm', simulateTurn gm = Some gm') by (concrete E; vm_compute; eauto).
  destruct E' as [gm' E'].
  assert (G : exists guard, guards (level gm) !! 0%nat = Some guard /\ memory guard = None)
    by (concrete E; vm_compute; eauto).
  destruct G as (guard & G & Hmem).
  assert (G' : exists guard', guards (level gm') !! 0%nat = Some guard')
    by (concrete E; concrete E'; vm_compute; eauto).
  destruct G' as [guard' G'].
  exists gm, gm', guard, guard'. do 4 (split; [assumption|]).
  pose proof (quiet_turn_memory gm gm' 0 guard guard' Hp Hquiet E' G G') as H.
  rewrite Hmem in H. exact H.
Defined.

(** ** The blast along the four axes *)

Lemma step_exact (x d k i : Z) :
  0 < k ->
  (inject_Z x + (inject_Z (k * d) / inject_Z k) * inject_Z i == inject_Z (x + i * d))%Q.
Proof.
  intros Hk. rewrite !inject_Z_plus, !inject_Z_mult.
  field. intros E. apply (Qeq_bool_neq (inject_Z k) 0); [|done].
  unfold Qeq_bool. simpl. apply Z.eqb_neq. lia.
Qed.

Lemma js_round_exact (n : Z) (q : Q) : (q == inject_Z n)%Q -> js_round q = n.
Proof.
  intros E. unfold js_round. rewrite E. unfold Qfloor, Qplus, inject_Z. simpl.
  change (Z.pos (1 * 2)) with 2. rewrite Z.div_add_l by lia.
  change (1 * 1 / 2) with 0. lia.
Qed.

Lemma directions_unit (dir : Vec) :
  dir ∈ directions -> Z.max (Z.abs (vx dir)) (Z.abs (vy dir)) = 1
                      /\ vx dir * vx dir + vy dir * vy dir = 1.
Proof.
  unfold directions. intros H.
  repeat (apply elem_of_cons in H as [-> | H]); [done..|]. by apply elem_of_nil in H.
Qed.

Lemma sample_along (p dir : Vec) (k i : Z) :
  dir ∈ directions -> 0 < k -> sample p (along p dir k) i = along p dir i.
Proof.
  intros [Hmax Hsq]%directions_unit Hk. unfold sample, along. cbn [vx vy].
  replace (vx p + k * vx dir - vx p) with (k * vx dir) by lia.
  replace (vy p + k * vy dir - vy p) with (k * vy dir) by lia.
  replace (Z.max (Z.abs (k * vx dir)) (Z.abs (k * vy dir))) with k by nia.
  f_equal; by apply js_round_exact, step_exact.
Qed.

(** X30.  Along each of the four axes the blast is a ray.  The cell [k]
    steps from the bomb to the north, east, south or west is a blast tile
    exactly when [k] is at most [max(1, blastRange - 1)], the cell lies in
    bounds, and none of the cells strictly between it and the bomb is a
    Wall.  So a ray includes the first Wall it meets and stops behind it,
    and the bomb's own cell and its in-bounds neighbours are always hit.
    (Along an axis the sampled points are whole cells, so nothing is
    rounded.) *)
Theorem blast_along_axis (l : Level) (bombPos dir : Vec) (k : Z) :
  grid_complete l = true ->
  dir ∈ directions -> 0 <= k ->
  along bombPos dir k ∈ calculateBlastTiles l bombPos
  <-> k <= Z.max 1 (blastRange (config l) - 1)
      /\ isValidPosition l (along bombPos dir k) = true
      /\ forall j, 1 <= j < k -> isWall l (along bombPos dir j) = false.
Proof.
  intros _ Hdir Hk. pose proof (directions_unit dir Hdir) as [Hmax Hsq].
  unfold calculateBlastTiles.
  rewrite elem_of_calculateCircularBlast, within_radius_spec, hasLineOfSight_spec.
  set (r := Z.max 1 (blastRange (config l) - 1)).
  assert (Hr : 1 <= r) by lia.
  assert (Hdx : vx (along bombPos dir k) - vx bombPos = k * vx dir) by (simpl; lia).
  assert (Hdy : vy (along bombPos dir k) - vy bombPos = k * vy dir) by (simpl; lia).
  rewrite Hdx, Hdy.
  replace (Z.max (Z.abs (k * vx dir)) (Z.abs (k * vy dir))) with k by nia.
  assert (Hin : 0 <= r /\ k * vx dir * (k * vx dir) + k * vy dir * (k * vy dir) <= r * r
                <-> k <= r).
  { replace (k * vx dir * (k * vx dir) + k * vy dir * (k * vy dir)) with (k * k) by nia.
    split; [intros [_ ?]; nia | intros ?; split; [lia | nia]]. }
  rewrite Hin.
  assert (Hlos :
    (forall i, 1 <= i < k -> isWall l (sample bombPos (along bombPos dir k) i) = false)
    <-> forall j, 1 <= j < k -> isWall l (along bombPos dir j) = false).
  { split; intros H i Hi; specialize (H i Hi).
    - by rewrite sample_along in H by (done || lia).
    - by rewrite sample_along by (done || lia). }
  rewrite Hlos. done.
Qed.

(** X30, an instance: in the corridor with a Wall at [x = 3], the blast
    of a bomb at [(1,0)] reaches the Wall cell two steps to the east. *)
Lemma blast_along_axis_witness :
  exists l,
    new_Level corridor5_wall = Some l
    /\ mkVec 3 0 ∈ calculateBlastTiles l (mkVec 1 0).
Proof.
  assert (E : exists l, new_Level corridor5_wall = Some l) by (vm_compute; eauto).
  destruct E as [l E]. exists l. split; [exact E|].
  assert (Hgrid : grid_complete l = true) by (concrete E; vm_compute; reflexivity).
  assert (Hdir : mkVec 1 0 ∈ directions) by (apply (bool_decide_unpack _); vm_compute; exact I).
  apply (proj2 (blast_along_axis l (mkVec 1 0) (mkVec 1 0) 2 Hgrid Hdir ltac:(lia))).
  split; [|split].
  - concrete E. vm_compute. discriminate.
  - concrete E. vm_compute. reflexivity.
  - intros j Hj. assert (j = 1) as -> by lia. concrete E. vm_compute. reflexivity.
Defined.
